(** * Wayland transactions (src/wayland/meta-wayland-transaction.c)

    A shallow embedding of mutter's transaction engine: the per-transaction
    hash table of entries, the committed queue, the per-surface commit chain
    ([first_committed] / [last_committed]), the surface comparison used when
    a transaction is applied, and the cascade that applies transactions
    which have become ready.

    Pointers are addresses ([positive]); a nullable pointer is an [option].
    GLib's containers are modelled at their interface: a [GHashTable] keyed
    by surface is a [gmap], the [GQueue] of committed transactions is the
    list of its elements from head to tail. *)

From stdpp Require Import gmap list sorting.
From Stdlib Require Import ZArith Lia.

Local Open Scope Z_scope.

(** ** Addresses *)

(** [MetaWaylandSurface *] and [MetaWaylandTransaction *], both non-NULL. *)
Abbreviation Surface := positive (only parsing).
Abbreviation Txn := positive (only parsing).

(** ** Results of running a piece of the engine

    [Fault] stands for a dereference of a NULL or dangling transaction
    pointer; [OutOfFuel] for a loop that was cut off by its bound. *)
Inductive result (A : Type) : Type :=
| Ok (a : A)
| Fault
| OutOfFuel.
Arguments Ok {A} a.
Arguments Fault {A}.
Arguments OutOfFuel {A}.

Definition result_bind {A B : Type} (f : A → result B) (m : result A) : result B :=
  match m with
  | Ok a => f a
  | Fault => Fault
  | OutOfFuel => OutOfFuel
  end.

#[global] Instance result_mbind : MBind result := @result_bind.
#[global] Instance result_mret : MRet result := @Ok.

(** A pointer that must be live. *)
Definition deref {A : Type} (o : option A) : result A :=
  match o with
  | Some a => Ok a
  | None => Fault
  end.

(** A loop that does not return is reported as [OutOfFuel]. *)
Definition returns {A : Type} (o : option A) : result A :=
  match o with
  | Some a => Ok a
  | None => OutOfFuel
  end.

(** ** Surface state (external, opaque)

    [MetaWaylandSurfaceState] belongs to the surface code; the transaction
    code only reads its list of sub-surface placement operations and hands
    states to the external merge and apply operations. *)
Record MetaWaylandSubsurfacePlacementOp : Type := {
  op_surface : option Surface;
  op_sibling : option Surface;
}.

(** A state is either an object filled in by the protocol layer, or the
    result of the external [meta_wayland_surface_state_merge_into (from, to)],
    kept symbolic; [StateMergedNull to] is that call with a NULL [from]. *)
Inductive MetaWaylandSurfaceState : Type :=
| StatePending (serial : N) (ops : list MetaWaylandSubsurfacePlacementOp)
| StateMerged (from to : MetaWaylandSurfaceState)
| StateMergedNull (to : MetaWaylandSurfaceState).

(** Modelled from the spec: [meta_wayland_surface_state_merge_into] is not
    under src/; the spec has it combine two pending states monoid-style, so
    the placement operations of a merged state are those of [to] followed by
    those of [from]. *)
Fixpoint subsurface_placement_ops (st : MetaWaylandSurfaceState)
  : list MetaWaylandSubsurfacePlacementOp :=
  match st with
  | StatePending _ ops => ops
  | StateMerged from to =>
      subsurface_placement_ops to ++ subsurface_placement_ops from
  | StateMergedNull to => subsurface_placement_ops to
  end.

Definition meta_wayland_surface_state_merge_into
  (from : option MetaWaylandSurfaceState) (to : MetaWaylandSurfaceState)
  : MetaWaylandSurfaceState :=
  match from with
  | Some f => StateMerged f to
  | None => StateMergedNull to
  end.

(** [meta_wayland_surface_state_new ()], and what
    [meta_wayland_surface_state_reset] leaves behind: an empty state. *)
Definition meta_wayland_surface_state_new : MetaWaylandSurfaceState :=
  StatePending 0 [].

(** ** Data model *)

(** [struct _MetaWaylandTransactionEntry]. *)
Record MetaWaylandTransactionEntry : Type := {
  state : option MetaWaylandSurfaceState;
  has_sub_pos : bool;
  x : Z;
  y : Z;
}.

(** [g_new0 (MetaWaylandTransactionEntry, 1)]. *)
Definition entry_new0 : MetaWaylandTransactionEntry :=
  {| state := None; has_sub_pos := false; x := 0; y := 0 |}.

(** The value of a [next_candidate] field or of the [first_candidate]
    variable: NULL, the sentinel [META_WAYLAND_TRANSACTION_NONE]
    (the address [G_MAXSIZE]), or a transaction. *)
Inductive Candidate : Type :=
| CandNull
| META_WAYLAND_TRANSACTION_NONE
| CandPtr (t : Txn).

#[global] Instance Candidate_eq_dec : EqDecision Candidate.
Proof. solve_decision. Defined.

(** [struct _MetaWaylandTransaction].  [node_data] tells whether
    [node.data] is set; the links of [node] are the position of the
    transaction in the committed queue. *)
Record MetaWaylandTransaction : Type := {
  node_data : bool;
  next_candidate : Candidate;
  committed_sequence : Z;
  entries : gmap Surface MetaWaylandTransactionEntry;
}.

(** The fields of [MetaWaylandSurface] the transaction code touches. *)
Record MetaWaylandSurface : Type := {
  sub_parent : option Surface;
  sub_x : Z;
  sub_y : Z;
  first_committed : option Txn;
  last_committed : option Txn;
  pending_state : MetaWaylandSurfaceState;
}.

(** A surface nobody wrote to yet: no parent, no pending transaction. *)
Definition surface_new0 : MetaWaylandSurface :=
  {| sub_parent := None; sub_x := 0; sub_y := 0;
     first_committed := None; last_committed := None;
     pending_state := meta_wayland_surface_state_new |}.

(** What the engine does to the outside world, in order.  [EvApply] marks
    the entry into [meta_wayland_transaction_apply]; [EvSubPos] the write of
    a sub-surface position; the other two are the calls of the external
    apply-state and of [meta_wayland_transaction_sync_child_states]. *)
Inductive Event : Type :=
| EvApply (t : Txn)
| EvSubPos (s : Surface) (px py : Z)
| EvApplyState (s : Surface) (st : MetaWaylandSurfaceState)
| EvSyncChildStates (s : Surface).

(** The compositor: the heap of surfaces, the heap of live transactions,
    the committed queue, the static counter of
    [meta_wayland_transaction_commit], and the trace of events. *)
Record Compositor : Type := {
  surfaces : gmap Surface MetaWaylandSurface;
  transactions : gmap Txn MetaWaylandTransaction;
  committed_queue : list Txn;
  committed_sequence_counter : Z;
  trace : list Event;
}.

(** Every address denotes a surface; one never written is [surface_new0]. *)
Definition get_surface (sf : gmap Surface MetaWaylandSurface) (s : Surface)
  : MetaWaylandSurface :=
  default surface_new0 (sf !! s).

(** ** The surface forest *)

Module Forest.

Section Walk.
Variable sf : gmap Surface MetaWaylandSurface.

Definition parent (s : Surface) : option Surface :=
  sub_parent (get_surface sf s).

(** The loop of [is_ancestor]: [ancestor] runs up the parent chain.  A
    chain longer than the number of surface records is cyclic, and the
    C loop does not return on it when [candidate] is not on the way. *)
Fixpoint is_ancestor_loop (fuel : nat) (candidate : Surface)
         (ancestor : option Surface) : option bool :=
  match fuel with
  | O => None
  | S n =>
      match ancestor with
      | None => Some false
      | Some a =>
          if decide (a = candidate) then Some true
          else is_ancestor_loop n candidate (parent a)
      end
  end.

Definition walk_bound : nat := S (size sf).

Definition is_ancestor (candidate reference : Surface) : option bool :=
  is_ancestor_loop walk_bound candidate (parent reference).

(** Modelled from the spec: [meta_wayland_surface_get_toplevel] is not
    under src/; the spec calls it the top-level-surface lookup of a
    surface, the root of its parent chain. *)
Fixpoint get_toplevel_loop (fuel : nat) (s : Surface) : option Surface :=
  match fuel with
  | O => None
  | S n =>
      match parent s with
      | None => Some s
      | Some p => get_toplevel_loop n p
      end
  end.

Definition meta_wayland_surface_get_toplevel (s : Surface) : option Surface :=
  get_toplevel_loop walk_bound s.

(** [meta_wayland_transaction_compare]: the qsort callback. *)
Definition meta_wayland_transaction_compare (surface1 surface2 : Surface)
  : option Z :=
  if decide (parent surface1 = parent surface2) then Some 0
  else
    a12 ← is_ancestor surface1 surface2;
    if a12 : bool then Some 1
    else
      a21 ← is_ancestor surface2 surface1;
      if a21 : bool then Some (-1)
      else
        t1 ← meta_wayland_surface_get_toplevel surface1;
        t2 ← meta_wayland_surface_get_toplevel surface2;
        Some (if decide (t1 < t2)%positive then -1 else 1).

(** The strict ancestors of a surface, nearest first (specification). *)
Fixpoint ancestors_loop (fuel : nat) (p : option Surface)
  : option (list Surface) :=
  match fuel with
  | O => None
  | S n =>
      match p with
      | None => Some []
      | Some a => (a ::.) <$> ancestors_loop n (parent a)
      end
  end.

Definition ancestors (s : Surface) : option (list Surface) :=
  ancestors_loop walk_bound (parent s).

(** The forest is well formed when every parent chain ends. *)
Definition wf_forest : Prop := ∀ s, is_Some (ancestors s).

(** The same, checked on the surfaces that have a record. *)
Definition wf_forestb : bool :=
  forallb (λ s, bool_decide (is_Some (ancestors s))) (map_to_list sf).*1.

End Walk.

End Forest.

(** ** Field updates *)

Definition set_entries (es : gmap Surface MetaWaylandTransactionEntry)
  (r : MetaWaylandTransaction) : MetaWaylandTransaction :=
  {| node_data := node_data r; next_candidate := next_candidate r;
     committed_sequence := committed_sequence r; entries := es |}.

Definition set_next_candidate (c : Candidate) (r : MetaWaylandTransaction)
  : MetaWaylandTransaction :=
  {| node_data := node_data r; next_candidate := c;
     committed_sequence := committed_sequence r; entries := entries r |}.

Definition set_committed (seq : Z) (r : MetaWaylandTransaction)
  : MetaWaylandTransaction :=
  {| node_data := true; next_candidate := next_candidate r;
     committed_sequence := seq; entries := entries r |}.

Definition set_sub_pos (px py : Z) (r : MetaWaylandSurface) : MetaWaylandSurface :=
  {| sub_parent := sub_parent r; sub_x := px; sub_y := py;
     first_committed := first_committed r; last_committed := last_committed r;
     pending_state := pending_state r |}.

Definition set_committed_chain (first last : option Txn) (r : MetaWaylandSurface)
  : MetaWaylandSurface :=
  {| sub_parent := sub_parent r; sub_x := sub_x r; sub_y := sub_y r;
     first_committed := first; last_committed := last;
     pending_state := pending_state r |}.

Definition set_pending_state (st : MetaWaylandSurfaceState) (r : MetaWaylandSurface)
  : MetaWaylandSurface :=
  {| sub_parent := sub_parent r; sub_x := sub_x r; sub_y := sub_y r;
     first_committed := first_committed r; last_committed := last_committed r;
     pending_state := st |}.

Definition set_surfaces (sf : gmap Surface MetaWaylandSurface) (σ : Compositor)
  : Compositor :=
  {| surfaces := sf; transactions := transactions σ;
     committed_queue := committed_queue σ;
     committed_sequence_counter := committed_sequence_counter σ;
     trace := trace σ |}.

Definition set_transactions (tx : gmap Txn MetaWaylandTransaction) (σ : Compositor)
  : Compositor :=
  {| surfaces := surfaces σ; transactions := tx;
     committed_queue := committed_queue σ;
     committed_sequence_counter := committed_sequence_counter σ;
     trace := trace σ |}.

Definition set_committed_queue (q : list Txn) (σ : Compositor) : Compositor :=
  {| surfaces := surfaces σ; transactions := transactions σ;
     committed_queue := q;
     committed_sequence_counter := committed_sequence_counter σ;
     trace := trace σ |}.

Definition set_counter (c : Z) (σ : Compositor) : Compositor :=
  {| surfaces := surfaces σ; transactions := transactions σ;
     committed_queue := committed_queue σ;
     committed_sequence_counter := c;
     trace := trace σ |}.

Definition emit (ev : Event) (σ : Compositor) : Compositor :=
  {| surfaces := surfaces σ; transactions := transactions σ;
     committed_queue := committed_queue σ;
     committed_sequence_counter := committed_sequence_counter σ;
     trace := trace σ ++ [ev] |}.

Definition surface_of (σ : Compositor) (s : Surface) : MetaWaylandSurface :=
  get_surface (surfaces σ) s.

Definition update_surface (s : Surface)
  (f : MetaWaylandSurface → MetaWaylandSurface) (σ : Compositor) : Compositor :=
  set_surfaces (<[s := f (surface_of σ s)]> (surfaces σ)) σ.

Definition transaction_of (σ : Compositor) (t : Txn) : result MetaWaylandTransaction :=
  deref (transactions σ !! t).

Definition store_transaction (t : Txn) (r : MetaWaylandTransaction) (σ : Compositor)
  : Compositor :=
  set_transactions (<[t := r]> (transactions σ)) σ.

(** ** GLib containers at their interface *)

(** Iteration over a hash table ([g_hash_table_iter_next],
    [g_hash_table_get_keys_as_array]): each key once, in an order the
    table fixes. *)
Definition g_hash_table_iter {V : Type} (m : gmap Surface V) : list (Surface * V) :=
  map_to_list m.

Definition g_hash_table_get_keys_as_array {V : Type} (m : gmap Surface V)
  : list Surface :=
  (map_to_list m).*1.

Definition g_queue_push_tail_link (q : list Txn) (t : Txn) : list Txn := q ++ [t].

(** [g_queue_unlink]: the link leaves the queue (a link that is not in the
    queue leaves the elements as they are). *)
Definition g_queue_unlink (q : list Txn) (t : Txn) : list Txn :=
  filter (λ u, u ≠ t) q.

(** [g_queue_pop_head]: the head link leaves the queue, its [data] is
    returned, and the link itself is released with [g_list_free_1].  The
    links of the committed queue are the [node] fields of the
    transactions, the first member of their blocks: releasing the link
    releases the block of the transaction.  An empty queue gives NULL. *)
Definition g_queue_pop_head (σ : Compositor) : result (option Txn * Compositor) :=
  match committed_queue σ with
  | [] => Ok (None, σ)
  | t :: q' =>
      r ← transaction_of σ t;
      Ok (if node_data r then Some t else None,
          set_transactions (delete t (transactions σ)) (set_committed_queue q' σ))
  end.

(** The links after [transaction->node] ([node.next] and on); none when
    the transaction is not in the queue. *)
Fixpoint node_next (t : Txn) (q : list Txn) : list Txn :=
  match q with
  | [] => []
  | u :: q' => if decide (u = t) then q' else node_next t q'
  end.

(** [qsort] sorts ascending by its callback; which algorithm is left open
    by the C library.  The model is a stable insertion sort; a callback
    that does not return makes the sort not return. *)
Fixpoint qsort_insert (cmp : Surface → Surface → option Z) (a : Surface)
         (l : list Surface) : option (list Surface) :=
  match l with
  | [] => Some [a]
  | b :: l' =>
      c ← cmp a b;
      if decide (c ≤ 0) then Some (a :: b :: l')
      else (b ::.) <$> qsort_insert cmp a l'
  end.

Fixpoint qsort (cmp : Surface → Surface → option Z) (l : list Surface)
  : option (list Surface) :=
  match l with
  | [] => Some []
  | a :: l' => qsort cmp l' ≫= qsort_insert cmp a
  end.

(** ** Building a transaction *)

Definition meta_wayland_transaction_get_entry (r : MetaWaylandTransaction)
  (surface : Surface) : option MetaWaylandTransactionEntry :=
  entries r !! surface.

(** Returns the transaction with the entry in place, and the entry. *)
Definition meta_wayland_transaction_ensure_entry (r : MetaWaylandTransaction)
  (surface : Surface) : MetaWaylandTransaction * MetaWaylandTransactionEntry :=
  match meta_wayland_transaction_get_entry r surface with
  | Some entry => (r, entry)
  | None => (set_entries (<[surface := entry_new0]> (entries r)) r, entry_new0)
  end.

Definition add_placement_op (r : MetaWaylandTransaction)
  (op : MetaWaylandSubsurfacePlacementOp) : MetaWaylandTransaction :=
  let r1 :=
    match op_surface op with
    | Some s => (meta_wayland_transaction_ensure_entry r s).1
    | None => r
    end in
  match op_sibling op with
  | Some s => (meta_wayland_transaction_ensure_entry r1 s).1
  | None => r1
  end.

Definition meta_wayland_transaction_add_placement_surfaces
  (r : MetaWaylandTransaction) (st : MetaWaylandSurfaceState)
  : MetaWaylandTransaction :=
  foldl add_placement_op r (subsurface_placement_ops st).

Definition meta_wayland_transaction_add_entry (r : MetaWaylandTransaction)
  (surface : Surface) (entry : MetaWaylandTransactionEntry)
  : MetaWaylandTransaction :=
  let r1 := set_entries (<[surface := entry]> (entries r)) r in
  match state entry with
  | Some st => meta_wayland_transaction_add_placement_surfaces r1 st
  | None => r1
  end.

Definition meta_wayland_transaction_add_subsurface_position
  (t : Txn) (surface : Surface) (px py : Z) (σ : Compositor) : result Compositor :=
  r ← transaction_of σ t;
  let '(r1, entry) := meta_wayland_transaction_ensure_entry r surface in
  let entry' := {| state := state entry; has_sub_pos := true; x := px; y := py |} in
  Ok (store_transaction t (set_entries (<[surface := entry']> (entries r1)) r1) σ).

(** Returns [from] and [to] as the call leaves them. *)
Definition meta_wayland_transaction_entry_merge_into
  (from to : MetaWaylandTransactionEntry)
  : MetaWaylandTransactionEntry * MetaWaylandTransactionEntry :=
  let to1 :=
    if has_sub_pos from
    then {| state := state to; has_sub_pos := true; x := x from; y := y from |}
    else to in
  let from' := {| state := None; has_sub_pos := has_sub_pos from;
                  x := x from; y := y from |} in
  match state to1 with
  | Some st =>
      (from',
       {| state := Some (meta_wayland_surface_state_merge_into (state from) st);
          has_sub_pos := has_sub_pos to1; x := x to1; y := y to1 |})
  | None =>
      (from',
       {| state := state from;
          has_sub_pos := has_sub_pos to1; x := x to1; y := y to1 |})
  end.

(** One round of the loop of [meta_wayland_transaction_merge_into], on the
    pair ([from], [to]) of transactions. *)
Definition merge_into_step
  (ft : MetaWaylandTransaction * MetaWaylandTransaction)
  (kv : Surface * MetaWaylandTransactionEntry)
  : MetaWaylandTransaction * MetaWaylandTransaction :=
  let '(from, to) := ft in
  let '(surface, from_entry) := kv in
  let from' := set_entries (delete surface (entries from)) from in
  match meta_wayland_transaction_get_entry to surface with
  | None =>
      (from', meta_wayland_transaction_add_entry to surface from_entry)
  | Some to_entry =>
      let to1 :=
        match state from_entry with
        | Some st => meta_wayland_transaction_add_placement_surfaces to st
        | None => to
        end in
      let to_entry' :=
        (meta_wayland_transaction_entry_merge_into from_entry to_entry).2 in
      (from', set_entries (<[surface := to_entry']> (entries to1)) to1)
  end.

(** [meta_wayland_transaction_free]. *)
Definition meta_wayland_transaction_free (t : Txn) (σ : Compositor)
  : result Compositor :=
  r ← transaction_of σ t;
  let σ1 :=
    if node_data r
    then set_committed_queue (g_queue_unlink (committed_queue σ) t) σ
    else σ in
  Ok (set_transactions (delete t (transactions σ1)) σ1).

(** [meta_wayland_transaction_merge_into].  Merging a transaction into
    itself changes the table under its own iterator, which GLib leaves
    undefined: it is a [Fault]. *)
Definition meta_wayland_transaction_merge_into (from to : Txn) (σ : Compositor)
  : result Compositor :=
  rf ← transaction_of σ from;
  rt ← transaction_of σ to;
  if decide (from = to) then Fault
  else
    let '(rf', rt') := foldl merge_into_step (rf, rt) (g_hash_table_iter (entries rf)) in
    meta_wayland_transaction_free from
      (store_transaction to rt' (store_transaction from rf' σ)).

Definition meta_wayland_transaction_merge_pending_state
  (t : Txn) (surface : Surface) (σ : Compositor) : result Compositor :=
  r ← transaction_of σ t;
  let pending := pending_state (surface_of σ surface) in
  let '(r1, entry) := meta_wayland_transaction_ensure_entry r surface in
  let st' :=
    match state entry with
    | None => pending
    | Some st => meta_wayland_surface_state_merge_into (Some pending) st
    end in
  let entry' := {| state := Some st'; has_sub_pos := has_sub_pos entry;
                   x := x entry; y := y entry |} in
  Ok (update_surface surface (set_pending_state meta_wayland_surface_state_new)
        (store_transaction t (set_entries (<[surface := entry']> (entries r1)) r1) σ)).

(** [meta_wayland_transaction_new]: the new transaction lives at [t]. *)
Definition meta_wayland_transaction_new (t : Txn) (σ : Compositor) : Compositor :=
  store_transaction t
    {| node_data := false; next_candidate := CandNull;
       committed_sequence := 0; entries := ∅ |} σ.

(** ** The engine *)

Definition meta_wayland_transaction_apply_subsurface_position
  (surface : Surface) (entry : MetaWaylandTransactionEntry) (σ : Compositor)
  : Compositor :=
  if has_sub_pos entry
  then emit (EvSubPos surface (x entry) (y entry))
         (update_surface surface (set_sub_pos (x entry) (y entry)) σ)
  else σ.

(** The loop of [find_next_transaction_for_surface] over the links after
    the transaction's own. *)
Fixpoint find_next_loop (σ : Compositor) (surface : Surface) (nodes : list Txn)
  : result (option Txn) :=
  match nodes with
  | [] => Ok None
  | next :: rest =>
      if decide (last_committed (surface_of σ surface) = Some next)
      then Ok (Some next)
      else
        r ← transaction_of σ next;
        if decide (is_Some (entries r !! surface)) then Ok (Some next)
        else find_next_loop σ surface rest
  end.

(** [find_next_transaction_for_surface]: [transaction->node.next] is read
    from the transaction, which has to be live. *)
Definition find_next_transaction_for_surface (t : Txn) (surface : Surface)
  (σ : Compositor) : result (option Txn) :=
  _ ← transaction_of σ t;
  find_next_loop σ surface (node_next t (committed_queue σ)).

(** Where [candidate] points in [ensure_next_candidate]: at the
    [first_candidate] variable, or at the [next_candidate] field of a
    transaction. *)
Inductive CandidateSlot : Type :=
| SlotFirst
| SlotNext (t : Txn).

(** The [while] loop of [ensure_next_candidate]: [cur] is [*candidate]. *)
Fixpoint candidate_walk (fuel : nat) (σ : Compositor) (seq : Z)
         (slot : CandidateSlot) (cur : Candidate)
  : result (CandidateSlot * Candidate) :=
  match fuel with
  | O => OutOfFuel
  | S n =>
      match cur with
      | META_WAYLAND_TRANSACTION_NONE => Ok (slot, cur)
      | CandNull => Fault
      | CandPtr c =>
          rc ← transaction_of σ c;
          if decide (committed_sequence rc < seq)
          then candidate_walk n σ seq (SlotNext c) (next_candidate rc)
          else Ok (slot, cur)
      end
  end.

(** [ensure_next_candidate]; returns the new [first_candidate] as well. *)
Definition ensure_next_candidate (t : Txn) (first_candidate : Candidate)
  (σ : Compositor) : result (Compositor * Candidate) :=
  r ← transaction_of σ t;
  if decide (next_candidate r ≠ CandNull) then Ok (σ, first_candidate)
  else
    '(slot, cur) ← candidate_walk (S (size (transactions σ))) σ
                      (committed_sequence r) SlotFirst first_candidate;
    let σ1 := store_transaction t (set_next_candidate cur r) σ in
    match slot with
    | SlotFirst => Ok (σ1, CandPtr t)
    | SlotNext p =>
        rp ← transaction_of σ1 p;
        Ok (store_transaction p (set_next_candidate (CandPtr t) rp) σ1, first_candidate)
    end.

(** The body of the first loop of [meta_wayland_transaction_apply] for one
    surface; [states] collects [states[i]]. *)
Definition apply_surface (t : Txn) (r : MetaWaylandTransaction)
  (acc : Compositor * Candidate * list (option MetaWaylandSurfaceState))
  (surface : Surface)
  : result (Compositor * Candidate * list (option MetaWaylandSurfaceState)) :=
  let '(σ, first_candidate, states) := acc in
  entry ← deref (meta_wayland_transaction_get_entry r surface);
  let σ1 := meta_wayland_transaction_apply_subsurface_position surface entry σ in
  let σ2 :=
    match state entry with
    | Some st => emit (EvApplyState surface st) σ1
    | None => σ1
    end in
  if decide (last_committed (surface_of σ2 surface) = Some t)
  then Ok (update_surface surface (set_committed_chain None None) σ2,
           first_candidate, states ++ [state entry])
  else
    next_transaction ← find_next_transaction_for_surface t surface σ2;
    match next_transaction with
    | Some next =>
        let σ3 :=
          update_surface surface
            (λ r, set_committed_chain (Some next) (last_committed r) r) σ2 in
        '(σ4, first_candidate') ← ensure_next_candidate next first_candidate σ3;
        Ok (σ4, first_candidate', states ++ [state entry])
    | None => Ok (σ2, first_candidate, states ++ [state entry])
    end.

Fixpoint apply_surfaces (t : Txn) (r : MetaWaylandTransaction)
         (acc : Compositor * Candidate * list (option MetaWaylandSurfaceState))
         (sorted : list Surface)
  : result (Compositor * Candidate * list (option MetaWaylandSurfaceState)) :=
  match sorted with
  | [] => Ok acc
  | surface :: rest =>
      acc' ← apply_surface t r acc surface;
      apply_surfaces t r acc' rest
  end.

(** The second loop, from the last index down to 0. *)
Definition sync_child_states_pass (sorted : list Surface)
  (states : list (option MetaWaylandSurfaceState)) (σ : Compositor) : Compositor :=
  foldl (λ σ (p : Surface * option MetaWaylandSurfaceState),
           if p.2 is Some _ then emit (EvSyncChildStates p.1) σ else σ)
        σ (reverse (zip sorted states)).

(** [meta_wayland_transaction_apply]. *)
Definition meta_wayland_transaction_apply (t : Txn) (first_candidate : Candidate)
  (σ : Compositor) : result (Compositor * Candidate) :=
  let σ0 := emit (EvApply t) σ in
  r ← transaction_of σ0 t;
  sorted ← returns
    (qsort (Forest.meta_wayland_transaction_compare (surfaces σ0))
       (g_hash_table_get_keys_as_array (entries r)));
  '(σ1, first_candidate', states) ←
    apply_surfaces t r (σ0, first_candidate, []) sorted;
  σ2 ← meta_wayland_transaction_free t (sync_child_states_pass sorted states σ1);
  Ok (σ2, first_candidate').

(** [meta_wayland_transaction_apply] from the first loop on (lines 181
    to 221), for the order [sorted] that [qsort] has left the surfaces
    in. *)
Definition apply_in_order (t : Txn) (first_candidate : Candidate)
  (sorted : list Surface) (σ : Compositor) : result (Compositor * Candidate) :=
  let σ0 := emit (EvApply t) σ in
  r ← transaction_of σ0 t;
  '(σ1, first_candidate', states) ←
    apply_surfaces t r (σ0, first_candidate, []) sorted;
  σ2 ← meta_wayland_transaction_free t (sync_child_states_pass sorted states σ1);
  Ok (σ2, first_candidate').

(** [has_unapplied_dependencies]. *)
Definition has_unapplied_dependencies (t : Txn) (σ : Compositor) : result bool :=
  r ← transaction_of σ t;
  Ok (existsb
        (λ surface,
           bool_decide (first_committed (surface_of σ surface) ≠ Some t))
        (g_hash_table_get_keys_as_array (entries r))).

Definition meta_wayland_transaction_maybe_apply_one (t : Txn)
  (first_candidate : Candidate) (σ : Compositor) : result (Compositor * Candidate) :=
  blocked ← has_unapplied_dependencies t σ;
  if blocked : bool then Ok (σ, first_candidate)
  else meta_wayland_transaction_apply t first_candidate σ.

(** The [while (TRUE)] loop of [meta_wayland_transaction_maybe_apply]. *)
Fixpoint maybe_apply_loop (fuel : nat) (t : Txn) (first_candidate : Candidate)
         (σ : Compositor) : result Compositor :=
  match fuel with
  | O => OutOfFuel
  | S n =>
      '(σ1, first_candidate1) ←
        meta_wayland_transaction_maybe_apply_one t first_candidate σ;
      match first_candidate1 with
      | META_WAYLAND_TRANSACTION_NONE => Ok σ1
      | CandNull => Fault
      | CandPtr t' =>
          r' ← transaction_of σ1 t';
          maybe_apply_loop n t' (next_candidate r')
            (store_transaction t' (set_next_candidate CandNull r') σ1)
      end
  end.

Definition meta_wayland_transaction_maybe_apply (fuel : nat) (t : Txn)
  (σ : Compositor) : result Compositor :=
  maybe_apply_loop fuel t META_WAYLAND_TRANSACTION_NONE σ.

(** One round of the loop of [meta_wayland_transaction_commit] over the
    entries; the flag is [maybe_apply]. *)
Definition commit_surface (t : Txn) (acc : Compositor * bool) (surface : Surface)
  : Compositor * bool :=
  let '(σ, maybe_apply) := acc in
  match first_committed (surface_of σ surface) with
  | None =>
      (update_surface surface (set_committed_chain (Some t) (Some t)) σ, maybe_apply)
  | Some first =>
      (update_surface surface (set_committed_chain (Some first) (Some t)) σ, false)
  end.

(** The part of [meta_wayland_transaction_commit] before the final [if]. *)
Definition commit_register (t : Txn) (σ : Compositor) : result (Compositor * bool) :=
  r ← transaction_of σ t;
  let seq := (committed_sequence_counter σ + 1) `mod` 2 ^ 64 in
  let σ1 := store_transaction t (set_committed seq r) (set_counter seq σ) in
  let σ2 := set_committed_queue (g_queue_push_tail_link (committed_queue σ1) t) σ1 in
  Ok (foldl (commit_surface t) (σ2, true)
        (g_hash_table_get_keys_as_array (entries r))).

(** [meta_wayland_transaction_commit]. *)
Definition meta_wayland_transaction_commit (fuel : nat) (t : Txn) (σ : Compositor)
  : result Compositor :=
  '(σ1, maybe_apply) ← commit_register t σ;
  if maybe_apply : bool then meta_wayland_transaction_maybe_apply fuel t σ1
  else Ok σ1.

(** The loop of [meta_wayland_transaction_finalize]: the transaction that
    [g_queue_pop_head] returns is handed to
    [meta_wayland_transaction_free]. *)
Fixpoint finalize_loop (fuel : nat) (σ : Compositor) : result Compositor :=
  match fuel with
  | O => OutOfFuel
  | S n =>
      '(transaction, σ1) ← g_queue_pop_head σ;
      match transaction with
      | None => Ok σ1
      | Some t =>
          σ2 ← meta_wayland_transaction_free t σ1;
          finalize_loop n σ2
      end
  end.

Definition meta_wayland_transaction_finalize (σ : Compositor) : result Compositor :=
  finalize_loop (S (length (committed_queue σ))) σ.

(** ** Orders read off the callback *)

(** [a] sorts strictly before [b]. *)
Definition compare_lt (sf : gmap Surface MetaWaylandSurface) (a b : Surface) : Prop :=
  ∃ c, Forest.meta_wayland_transaction_compare sf a b = Some c ∧ c < 0.

(** Neither sorts strictly before the other. *)
Definition incomparable (sf : gmap Surface MetaWaylandSurface) (a b : Surface) : Prop :=
  ¬ compare_lt sf a b ∧ ¬ compare_lt sf b a.

(** [a] may stand before [b] in an array sorted ascending by the callback. *)
Definition compare_le (sf : gmap Surface MetaWaylandSurface) (a b : Surface) : Prop :=
  ∃ c, Forest.meta_wayland_transaction_compare sf a b = Some c ∧ c ≤ 0.

(** ** Concrete surfaces and transactions used as examples *)

Module Examples.

Definition surface_with_parent (p : option Surface) : MetaWaylandSurface :=
  {| sub_parent := p; sub_x := 0; sub_y := 0;
     first_committed := None; last_committed := None;
     pending_state := meta_wayland_surface_state_new |}.

(** A toplevel 1 with children 2 and 3, and 4 a child of 3. *)
Definition forest4 : gmap Surface MetaWaylandSurface :=
  <[4%positive := surface_with_parent (Some 3%positive)]>
    (<[3%positive := surface_with_parent (Some 1%positive)]>
       (<[2%positive := surface_with_parent (Some 1%positive)]> ∅)).

End Examples.

(** ** More examples *)

Module Examples2.

Definition empty_transaction : MetaWaylandTransaction :=
  {| node_data := false; next_candidate := CandNull;
     committed_sequence := 0; entries := ∅ |}.

(** Two committed transactions 7 and 8 wait in the queue; 9 was created
    and never committed. *)
Definition queued2 : Compositor :=
  {| surfaces := ∅;
     transactions :=
       <[9%positive := empty_transaction]>
         (<[8%positive := set_committed 2 empty_transaction]>
            (<[7%positive := set_committed 1 empty_transaction]> ∅));
     committed_queue := [7%positive; 8%positive];
     committed_sequence_counter := 2;
     trace := [] |}.

Definition stateP : MetaWaylandSurfaceState := StatePending 1 [].
Definition stateC : MetaWaylandSurfaceState := StatePending 2 [].

(** Surface 2 is a sub-surface of the toplevel 1; transaction 5 holds a
    state for each and a position for 1, and is not committed yet. *)
Definition parent_child_transaction : MetaWaylandTransaction :=
  {| node_data := false; next_candidate := CandNull;
     committed_sequence := 0;
     entries :=
       <[1%positive := {| state := Some stateP; has_sub_pos := true;
                          x := 10; y := 20 |}]>
         (<[2%positive := {| state := Some stateC; has_sub_pos := false;
                             x := 0; y := 0 |}]> ∅) |}.

Definition parent_child : Compositor :=
  {| surfaces := <[2%positive := Examples.surface_with_parent (Some 1%positive)]> ∅;
     transactions := <[5%positive := parent_child_transaction]> ∅;
     committed_queue := [];
     committed_sequence_counter := 0;
     trace := [] |}.

Definition stateA : MetaWaylandSurfaceState := StatePending 3 [].
Definition stateB : MetaWaylandSurfaceState := StatePending 4 [].

(** Transactions 1 and 2 both hold an entry for surface 5: 1 with a state
    and a position, 2 with a state and another position. *)
Definition merge_from_entry : MetaWaylandTransactionEntry :=
  {| state := Some stateA; has_sub_pos := true; x := 3; y := 4 |}.
Definition merge_to_entry : MetaWaylandTransactionEntry :=
  {| state := Some stateB; has_sub_pos := true; x := 8; y := 9 |}.
Definition merge_from : MetaWaylandTransaction :=
  {| node_data := false; next_candidate := CandNull; committed_sequence := 0;
     entries := <[5%positive := merge_from_entry]> ∅ |}.
Definition merge_to : MetaWaylandTransaction :=
  {| node_data := false; next_candidate := CandNull; committed_sequence := 0;
     entries := <[5%positive := merge_to_entry]> ∅ |}.
Definition merge_pair : Compositor :=
  {| surfaces := ∅;
     transactions := <[1%positive := merge_from]> (<[2%positive := merge_to]> ∅);
     committed_queue := []; committed_sequence_counter := 0; trace := [] |}.

(** Transaction 1 holds a state for surface 5 that restacks surface 6;
    transaction 2 is empty. *)
Definition stateR : MetaWaylandSurfaceState :=
  StatePending 7 [{| op_surface := Some 6%positive; op_sibling := None |}].
Definition placement_from : MetaWaylandTransaction :=
  {| node_data := false; next_candidate := CandNull; committed_sequence := 0;
     entries := <[5%positive := {| state := Some stateR; has_sub_pos := false;
                                   x := 0; y := 0 |}]> ∅ |}.
Definition placement_pair : Compositor :=
  {| surfaces := ∅;
     transactions :=
       <[1%positive := placement_from]> (<[2%positive := empty_transaction]> ∅);
     committed_queue := []; committed_sequence_counter := 0; trace := [] |}.

End Examples2.

(** ** Well-formedness of the committed queue *)

(** Every element of the queue is a live transaction whose [node.data] is
    set (what [meta_wayland_transaction_commit] does before it links it). *)
Definition queue_committed (σ : Compositor) : Prop :=
  ∀ t, t ∈ committed_queue σ →
       ∃ r, transactions σ !! t = Some r ∧ node_data r = true.

(** ** Entries that carry something *)

(** The entry has a state snapshot or a position override. *)
Definition entry_is_set (e : MetaWaylandTransactionEntry) : Prop :=
  is_Some (state e) ∨ has_sub_pos e = true.

(** A placement operation of the state names the surface. *)
Definition placement_named (st : MetaWaylandSurfaceState) (s : Surface) : Prop :=
  ∃ op, op ∈ subsurface_placement_ops st ∧
        (op_surface op = Some s ∨ op_sibling op = Some s).

#[global] Instance entry_is_set_dec e : Decision (entry_is_set e).
Proof. unfold entry_is_set. apply _. Defined.

Definition all_entries_set (r : MetaWaylandTransaction) : Prop :=
  map_Forall (λ _ e, entry_is_set e) (entries r).

(** Every entry of every live transaction is set. *)
Definition entries_invariant (σ : Compositor) : Prop :=
  map_Forall (λ _ r, all_entries_set r) (transactions σ).

#[global] Instance entries_invariant_dec σ : Decision (entries_invariant σ).
Proof. unfold entries_invariant, all_entries_set. apply _. Defined.

(** The operations that build transactions, as data. *)
Inductive BuildOp : Type :=
| OpAddSubsurfacePosition (t : Txn) (s : Surface) (px py : Z)
| OpMergePendingState (t : Txn) (s : Surface)
| OpMergeInto (from to : Txn).

Definition run_build_op (op : BuildOp) (σ : Compositor) : result Compositor :=
  match op with
  | OpAddSubsurfacePosition t s px py =>
      meta_wayland_transaction_add_subsurface_position t s px py σ
  | OpMergePendingState t s =>
      meta_wayland_transaction_merge_pending_state t s σ
  | OpMergeInto from to => meta_wayland_transaction_merge_into from to σ
  end.

(** ** The candidate chain, as a list *)

(** The chain that starts at the pointer [c] runs through the transactions
    of [l], in this order, and arrives at the pointer [c']. *)
Fixpoint is_seg (tx : gmap Txn MetaWaylandTransaction) (c : Candidate)
         (l : list Txn) (c' : Candidate) : Prop :=
  match l with
  | [] => c = c'
  | t :: l' =>
      c = CandPtr t ∧
      ∃ r, tx !! t = Some r ∧ is_seg tx (next_candidate r) l' c'
  end.

(** [l] is the whole chain from [c] to the sentinel. *)
Definition is_chain (tx : gmap Txn MetaWaylandTransaction) (c : Candidate)
  (l : list Txn) : Prop :=
  is_seg tx c l META_WAYLAND_TRANSACTION_NONE.

Definition seq_of (tx : gmap Txn MetaWaylandTransaction) (t : Txn) : Z :=
  from_option committed_sequence 0 (tx !! t).

Definition chain_sorted (tx : gmap Txn MetaWaylandTransaction) (l : list Txn) : Prop :=
  StronglySorted (λ a b, seq_of tx a ≤ seq_of tx b) l.

(** The candidate chain is [l]: it is linked through [next_candidate]
    from [c], every transaction outside it has a NULL [next_candidate],
    it ascends by [committed_sequence] and holds no transaction twice. *)
Record chain_ok (tx : gmap Txn MetaWaylandTransaction) (c : Candidate)
    (l : list Txn) : Prop := {
  chain_linked : is_chain tx c l;
  chain_rest_null : ∀ t r, tx !! t = Some r → t ∉ l → next_candidate r = CandNull;
  chain_ascending : chain_sorted tx l;
  chain_nodup : NoDup l;
}.

(** A transaction without its chain link: what the cascade never changes. *)
Definition erase_next (r : MetaWaylandTransaction) : MetaWaylandTransaction :=
  set_next_candidate CandNull r.

Definition txn_data (tx : gmap Txn MetaWaylandTransaction)
  : gmap Txn MetaWaylandTransaction :=
  erase_next <$> tx.

(** The two states differ at most in [next_candidate] fields. *)
Definition same_but_chain (σ σ' : Compositor) : Prop :=
  surfaces σ' = surfaces σ ∧
  txn_data (transactions σ') = txn_data (transactions σ) ∧
  committed_queue σ' = committed_queue σ ∧
  committed_sequence_counter σ' = committed_sequence_counter σ ∧
  trace σ' = trace σ.

(** ** The per-surface commit chain, as a list *)

(** Transaction [t] is live and holds an entry for surface [s]. *)
Definition has_entry (tx : gmap Txn MetaWaylandTransaction) (s : Surface) (t : Txn)
  : Prop :=
  is_Some (tx !! t ≫= λ r, entries r !! s).

#[global] Instance has_entry_dec tx s t : Decision (has_entry tx s t).
Proof. unfold has_entry. apply _. Defined.

(** The queued transactions that hold an entry for [s], oldest first. *)
Definition pending (σ : Compositor) (s : Surface) : list Txn :=
  filter (has_entry (transactions σ) s) (committed_queue σ).

(** The two ends of a list, as [first_committed] and [last_committed]
    record them. *)
Definition ends (l : list Txn) : option Txn * option Txn := (head l, last l).

Definition chain_of (σ : Compositor) (s : Surface) : option Txn * option Txn :=
  (first_committed (surface_of σ s), last_committed (surface_of σ s)).

(** The state of the engine between two rounds of the cascade: the queue
    holds live, committed transactions, each once; every surface records
    the oldest and the newest queued transaction that touches it; the
    surfaces form a forest. *)
Record engine_inv (σ : Compositor) : Prop := {
  inv_nodup : NoDup (committed_queue σ);
  inv_committed : queue_committed σ;
  inv_chain : ∀ s, chain_of σ s = ends (pending σ s);
  inv_forest : Forest.wf_forest (surfaces σ);
}.

(** No cascade is running: every [next_candidate] is NULL. *)
Definition quiescent (σ : Compositor) : Prop :=
  chain_ok (transactions σ) META_WAYLAND_TRANSACTION_NONE [].

(** The transactions the trace says were applied, in order. *)
Definition applied (tr : list Event) : list Txn :=
  omap (λ ev, if ev is EvApply t then Some t else None) tr.

(** The readiness check passes. *)
Definition ready (σ : Compositor) (t : Txn) : Prop :=
  has_unapplied_dependencies t σ = Ok false.

(** While [meta_wayland_transaction_apply] runs for [t]: the surfaces of
    [done] have been advanced past [t], the others not yet. *)
Definition chains_during (t : Txn) (done : list Surface) (σ : Compositor) : Prop :=
  ∀ s, chain_of σ s =
         ends (if decide (s ∈ done)
               then filter (λ u, u ≠ t) (pending σ s)
               else pending σ s).

(** What a round on one surface keeps of the state: the queue, the
    transactions up to chain links, the counter, the applications in the
    trace, and the forest. *)
Record loop_frame (σ σ' : Compositor) : Prop := {
  frame_queue : committed_queue σ' = committed_queue σ;
  frame_data : txn_data (transactions σ') = txn_data (transactions σ);
  frame_counter : committed_sequence_counter σ' = committed_sequence_counter σ;
  frame_applied : applied (trace σ') = applied (trace σ);
  frame_forest : Forest.wf_forest (surfaces σ) → Forest.wf_forest (surfaces σ');
}.

(** ** Commit order and application order *)

(** [a] stands before [b] in [l]. *)
Definition precedes (l : list Txn) (a b : Txn) : Prop :=
  ∃ l1 l2 l3, l = l1 ++ a :: l2 ++ b :: l3.

(** How a state relates to the order [order] in which transactions were
    committed, [tx0] being the transactions as they were built: the queue
    keeps that order; a committed transaction is queued or applied; the
    applied ones were committed; the queued ones hold the entries they
    were built with; the others are untouched; and no transaction was
    applied before an earlier one with which it shares a surface. *)
Record order_inv (tx0 : gmap Txn MetaWaylandTransaction) (order : list Txn)
    (σ : Compositor) : Prop := {
  ord_nodup : NoDup order;
  ord_sub : committed_queue σ `sublist_of` order;
  ord_cover : ∀ u, u ∈ order → u ∈ committed_queue σ ∨ u ∈ applied (trace σ);
  ord_applied_in : ∀ u, u ∈ applied (trace σ) → u ∈ order;
  ord_entries : ∀ u, u ∈ committed_queue σ →
                ∀ s, has_entry (transactions σ) s u ↔ has_entry tx0 s u;
  ord_outside : ∀ u, u ∉ order →
                txn_data (transactions σ) !! u = txn_data tx0 !! u;
  ord_applied : ∀ pre T2 post, applied (trace σ) = pre ++ T2 :: post →
                ∀ T1 s, precedes order T1 T2 →
                        has_entry tx0 s T1 → has_entry tx0 s T2 → T1 ∈ pre;
}.

(** A bound on the rounds of a cascade: [q] transactions are queued and
    [l] of them are candidates. *)
Definition cascade_measure (q l : nat) : nat := q * S q + l.

(** Fuel that lets a commit return when at most [n] transactions are
    queued afterwards. *)
Definition commit_fuel (n : nat) : nat := S (cascade_measure n 0).

(** ** Runs of the engine *)

(** What drives the engine: a commit of a transaction, or a call of
    [meta_wayland_transaction_maybe_apply] on a transaction that is in the
    queue (on any other transaction the driver does nothing). *)
Inductive EngineStep : Type :=
| DoCommit (t : Txn)
| DoMaybeApply (t : Txn).

Definition run_step (fuel : nat) (step : EngineStep) (σ : Compositor)
  : result Compositor :=
  match step with
  | DoCommit t => meta_wayland_transaction_commit fuel t σ
  | DoMaybeApply t =>
      if decide (t ∈ committed_queue σ)
      then meta_wayland_transaction_maybe_apply fuel t σ
      else Ok σ
  end.

Fixpoint run_steps (fuel : nat) (steps : list EngineStep) (σ : Compositor)
  : result Compositor :=
  match steps with
  | [] => Ok σ
  | step :: steps' =>
      σ' ← run_step fuel step σ;
      run_steps fuel steps' σ'
  end.

(** The transactions a run commits, in order. *)
Definition commits (steps : list EngineStep) : list Txn :=
  omap (λ step, if step is DoCommit t then Some t else None) steps.

(** The loop heads of a cascade started on [t0] in [σ0]: the state, the
    transaction the round is about, and [first_candidate]. *)
Inductive cascade_head (σ0 : Compositor) (t0 : Txn)
  : Compositor → Txn → Candidate → Prop :=
| head_start : cascade_head σ0 t0 σ0 t0 META_WAYLAND_TRANSACTION_NONE
| head_next σ t c σ1 t' r' :
    cascade_head σ0 t0 σ t c →
    meta_wayland_transaction_maybe_apply_one t c σ = Ok (σ1, CandPtr t') →
    transactions σ1 !! t' = Some r' →
    cascade_head σ0 t0
      (store_transaction t' (set_next_candidate CandNull r') σ1)
      t' (next_candidate r').

(** The points of a cascade at which the candidate chain can be looked
    at: every loop head, and, in a round that applies its transaction,
    the state after each surface of the first loop of apply. *)
Inductive chain_point (σ0 : Compositor) (t0 : Txn) : Compositor → Candidate → Prop :=
| point_head σ t c : cascade_head σ0 t0 σ t c → chain_point σ0 t0 σ c
| point_apply σ t c r pre post σ1 c1 states :
    cascade_head σ0 t0 σ t c →
    ready σ t →
    transactions σ !! t = Some r →
    qsort (Forest.meta_wayland_transaction_compare (surfaces σ))
      (g_hash_table_get_keys_as_array (entries r)) = Some (pre ++ post) →
    apply_surfaces t r (emit (EvApply t) σ, c, []) pre = Ok (σ1, c1, states) →
    chain_point σ0 t0 σ1 c1.

(** ** A queue of transactions that wait for each other *)

Module Examples3.

Definition entry_with (n : N) : MetaWaylandTransactionEntry :=
  {| state := Some (StatePending n []); has_sub_pos := false; x := 0; y := 0 |}.

Definition queued (seq : Z) (es : gmap Surface MetaWaylandTransactionEntry)
  : MetaWaylandTransaction :=
  {| node_data := true; next_candidate := CandNull;
     committed_sequence := seq; entries := es |}.

Definition surface_waiting (first last : Txn) : MetaWaylandSurface :=
  {| sub_parent := None; sub_x := 0; sub_y := 0;
     first_committed := Some first; last_committed := Some last;
     pending_state := meta_wayland_surface_state_new |}.

(** Surfaces 11 and 12 are toplevels.  Transaction 7 touches 11, 8 touches
    11 and 12, 9 touches 12; they were committed in this order and none
    was applied.  Transaction 10 touches 11 and is not committed. *)
Definition blocked3 : Compositor :=
  {| surfaces :=
       <[11%positive := surface_waiting 7 8]>
         (<[12%positive := surface_waiting 8 9]> ∅);
     transactions :=
       <[7%positive := queued 1 (<[11%positive := entry_with 1]> ∅)]>
         (<[8%positive := queued 2 (<[11%positive := entry_with 2]>
                                      (<[12%positive := entry_with 3]> ∅))]>
            (<[9%positive := queued 3 (<[12%positive := entry_with 4]> ∅)]>
               (<[10%positive :=
                    {| node_data := false; next_candidate := CandNull;
                       committed_sequence := 0;
                       entries := <[11%positive := entry_with 5]> ∅ |}]> ∅)));
     committed_queue := [7%positive; 8%positive; 9%positive];
     committed_sequence_counter := 3;
     trace := [] |}.

Definition run3 : list EngineStep := [DoCommit 10; DoMaybeApply 7].

End Examples3.

(** ** More example data *)

Module Examples4.

(** Transaction 10 of [blocked3]. *)
Definition uncommitted10 : MetaWaylandTransaction :=
  {| node_data := false; next_candidate := CandNull; committed_sequence := 0;
     entries := <[11%positive := Examples3.entry_with 5]> ∅ |}.

End Examples4.

(** ** What apply does to a surface and tells the outside world *)

(** The position of the entry, written to the surface when the entry has
    one. *)
Definition apply_position (e : MetaWaylandTransactionEntry) (r : MetaWaylandSurface)
  : MetaWaylandSurface :=
  if has_sub_pos e then set_sub_pos (x e) (y e) r else r.

(** The events of the first loop of apply for one entry. *)
Definition entry_events (s : Surface) (e : MetaWaylandTransactionEntry) : list Event :=
  (if has_sub_pos e then [EvSubPos s (x e) (y e)] else []) ++
  (if state e is Some st then [EvApplyState s st] else []).

(** The events of the first loop over the surfaces [sorted]. *)
Definition first_pass_events (r : MetaWaylandTransaction) (sorted : list Surface)
  : list Event :=
  sorted ≫= λ s, from_option (entry_events s) [] (entries r !! s).

(** The events of the second loop: the surfaces whose entry holds a state,
    last to first. *)
Definition second_pass_events (r : MetaWaylandTransaction) (sorted : list Surface)
  : list Event :=
  omap (λ s, if entries r !! s ≫= state is Some _
             then Some (EvSyncChildStates s) else None)
       (reverse sorted).

(** The fields of a surface that the commit chain does not use. *)
Definition geometry (r : MetaWaylandSurface)
  : option Surface * Z * Z * MetaWaylandSurfaceState :=
  (sub_parent r, sub_x r, sub_y r, pending_state r).

Module Examples5.

(** Transaction 7 of [blocked3]. *)
Definition queued7 : MetaWaylandTransaction :=
  Examples3.queued 1 (<[11%positive := Examples3.entry_with 1]> ∅).

End Examples5.

(** ** Candidates and readiness *)

(** The transaction is marked as a candidate: its [next_candidate] is not
    NULL. *)
Definition marked (σ : Compositor) (u : Txn) : Prop :=
  ∃ r, transactions σ !! u = Some r ∧ next_candidate r ≠ CandNull.

(** During a cascade that is about to look at [t]: every other queued
    transaction that is ready is marked as a candidate. *)
Definition candidates_cover (σ : Compositor) (t : Txn) : Prop :=
  ∀ u, u ∈ committed_queue σ → u ≠ t → ready σ u → marked σ u.

(** ** Sequence numbers in the queue *)

(** The queue ascends strictly by [committed_sequence], and no queued
    transaction has a sequence number above the counter. *)
Definition queue_ascending (σ : Compositor) : Prop :=
  StronglySorted (λ a b, seq_of (transactions σ) a < seq_of (transactions σ) b)
    (committed_queue σ) ∧
  Forall (λ u, seq_of (transactions σ) u ≤ committed_sequence_counter σ)
    (committed_queue σ).

(** What a cascade keeps of the queue: the transactions still queued were
    queued before, in the same order, with the same data, and the counter
    is the same. *)
Definition data_frame (σ0 σ : Compositor) : Prop :=
  committed_queue σ `sublist_of` committed_queue σ0 ∧
  (∀ u, u ∈ committed_queue σ →
        txn_data (transactions σ) !! u = txn_data (transactions σ0) !! u) ∧
  committed_sequence_counter σ = committed_sequence_counter σ0.

(** After [k] commits from a counter [c0], as long as the [N] commits of
    the run do not make the counter wrap. *)
Definition ascending_after (c0 : Z) (N : nat) (k : nat) (σ : Compositor) : Prop :=
  (k ≤ N)%nat →
  queue_ascending σ ∧ committed_sequence_counter σ = c0 + Z.of_nat k.

(** ** The transactions a building operation works on *)

Definition op_transactions (op : BuildOp) : list Txn :=
  match op with
  | OpAddSubsurfacePosition t _ _ _ => [t]
  | OpMergePendingState t _ => [t]
  | OpMergeInto from to => [from; to]
  end.

(** ** Entries that carry something, or are placeholders *)




(** * Facts *)

(** ** The result monad *)

Lemma result_bind_Ok {A B : Type} (f : A → result B) (m : result A) (b : B) :
  m ≫= f = Ok b ↔ ∃ a, m = Ok a ∧ f a = Ok b.
Proof.
  destruct m; simpl; split; try (intros [? [? ?]]); try discriminate; eauto.
  congruence.
Qed.

Ltac inv_result :=
  repeat match goal with
  | H : _ ≫= _ = Ok _ |- _ =>
      apply result_bind_Ok in H; destruct H as (? & ? & H)
  | H : Ok _ = Ok _ |- _ => injection H as H; try subst
  | H : Fault = Ok _ |- _ => discriminate H
  | H : OutOfFuel = Ok _ |- _ => discriminate H
  | H : deref ?o = Ok _ |- _ =>
      destruct o eqn:?; simpl in H; [injection H as H; try subst | discriminate H]
  | H : returns ?o = Ok _ |- _ =>
      destruct o eqn:?; simpl in H; [injection H as H; try subst | discriminate H]
  end.

(** ** The surface forest and the comparison *)

Module ForestFacts.
Import Forest.

Section Walk.
Variable sf : gmap Surface MetaWaylandSurface.

Lemma ancestors_loop_mono n m p l :
  ancestors_loop sf n p = Some l → (n ≤ m)%nat → ancestors_loop sf m p = Some l.
Proof.
  revert m p l. induction n as [|n IH]; intros m p l H Hle; [done|].
  destruct m as [|m]; [lia|]. simpl in *.
  destruct p as [a|]; [|done].
  destruct (ancestors_loop sf n (parent sf a)) as [l'|] eqn:E; [|done].
  rewrite (IH m _ l' E); [done|lia].
Qed.

Lemma ancestors_loop_suffix n p l1 a l2 :
  ancestors_loop sf n p = Some (l1 ++ a :: l2) →
  ancestors_loop sf n (parent sf a) = Some l2.
Proof.
  revert p l1. induction n as [|n IH]; intros p l1 H; [done|].
  simpl in H. destruct p as [b|]; [|by destruct l1].
  destruct (ancestors_loop sf n (parent sf b)) as [l'|] eqn:E; [|done].
  simpl in H. destruct l1 as [|c l1]; simpl in H; simplify_eq.
  - apply (ancestors_loop_mono n (S n)); [done|lia].
  - apply (ancestors_loop_mono n (S n)); [by eapply IH|lia].
Qed.

Lemma is_ancestor_loop_spec n c p l :
  ancestors_loop sf n p = Some l →
  is_ancestor_loop sf n c p = Some (bool_decide (c ∈ l)).
Proof.
  revert p l. induction n as [|n IH]; intros p l H; [done|].
  simpl in *. destruct p as [a|].
  - destruct (ancestors_loop sf n (parent sf a)) as [l'|] eqn:E; [|done].
    simpl in H. simplify_eq. case_decide as Hac.
    + subst. f_equal. symmetry. apply bool_decide_eq_true. left.
    + rewrite (IH _ _ E). f_equal. apply bool_decide_ext.
      rewrite elem_of_cons. intuition congruence.
  - by simplify_eq.
Qed.

Lemma get_toplevel_loop_spec n s l :
  ancestors_loop sf n (parent sf s) = Some l →
  get_toplevel_loop sf n s = Some (default s (last l)).
Proof.
  revert s l. induction n as [|n IH]; intros s l H; [done|].
  simpl in *. destruct (parent sf s) as [p|].
  - destruct (ancestors_loop sf n (parent sf p)) as [l'|] eqn:E; [|done].
    simpl in H. simplify_eq. rewrite (IH _ _ E). f_equal.
    rewrite (last_cons p l'). by destruct (last l').
  - by simplify_eq.
Qed.

Lemma is_ancestor_spec c r l :
  ancestors sf r = Some l → is_ancestor sf c r = Some (bool_decide (c ∈ l)).
Proof. apply is_ancestor_loop_spec. Qed.

Lemma get_toplevel_spec s l :
  ancestors sf s = Some l →
  meta_wayland_surface_get_toplevel sf s = Some (default s (last l)).
Proof. apply get_toplevel_loop_spec. Qed.

(** The ancestors of an ancestor are a strict suffix. *)
Lemma ancestors_of_ancestor a b la lb :
  ancestors sf a = Some la → ancestors sf b = Some lb → a ∈ lb →
  ∃ l1, lb = l1 ++ a :: la.
Proof.
  intros Ha Hb Hin. apply list_elem_of_split in Hin as (l1 & l2 & ->).
  exists l1. apply ancestors_loop_suffix in Hb.
  unfold ancestors in Ha. congruence.
Qed.

Lemma ancestors_same_parent a b :
  parent sf a = parent sf b → ancestors sf a = ancestors sf b.
Proof. unfold ancestors. by intros ->. Qed.

Lemma wf_forestb_spec : wf_forestb sf = true → wf_forest sf.
Proof.
  unfold wf_forestb. rewrite forallb_forall. intros H s.
  destruct (sf !! s) as [r|] eqn:E.
  - specialize (H s). rewrite bool_decide_eq_true in H. apply H.
    apply list_elem_of_In, list_elem_of_fmap. exists (s, r). split; [done|].
    by apply elem_of_map_to_list.
  - unfold ancestors, parent, get_surface. rewrite E. simpl. by eexists.
Qed.

Lemma compare_zero_iff a b :
  meta_wayland_transaction_compare sf a b = Some 0 ↔ parent sf a = parent sf b.
Proof.
  unfold meta_wayland_transaction_compare. case_decide as Hp; [done|].
  split; [|done]. intros H.
  destruct (is_ancestor sf a b) as [[]|]; simpl in H; [done| |done].
  destruct (is_ancestor sf b a) as [[]|]; simpl in H; [done| |done].
  destruct (meta_wayland_surface_get_toplevel sf a); simpl in H; [|done].
  destruct (meta_wayland_surface_get_toplevel sf b); simpl in H; [|done].
  by case_decide.
Qed.

(** Ties are the pairs with one parent, so they are transitive. *)
Lemma compare_zero_trans a b c :
  meta_wayland_transaction_compare sf a b = Some 0 →
  meta_wayland_transaction_compare sf b c = Some 0 →
  meta_wayland_transaction_compare sf a c = Some 0.
Proof. rewrite !compare_zero_iff. congruence. Qed.

Lemma compare_unrelated a b ta tb :
  parent sf a ≠ parent sf b →
  is_ancestor sf a b = Some false → is_ancestor sf b a = Some false →
  meta_wayland_surface_get_toplevel sf a = Some ta →
  meta_wayland_surface_get_toplevel sf b = Some tb →
  meta_wayland_transaction_compare sf a b =
    Some (if decide (ta < tb)%positive then -1 else 1).
Proof.
  intros Hp Hab Hba Hta Htb. unfold meta_wayland_transaction_compare.
  rewrite decide_False by done. by rewrite Hab, Hba, Hta, Htb.
Qed.

Section WellFormed.
Hypothesis Hwf : wf_forest sf.

Lemma is_ancestor_total a b : ∃ v, is_ancestor sf a b = Some v.
Proof. destruct (Hwf b) as [l Hl]. eexists. by apply is_ancestor_spec. Qed.

Lemma get_toplevel_total a : ∃ t, meta_wayland_surface_get_toplevel sf a = Some t.
Proof. destruct (Hwf a) as [l Hl]. eexists. by apply get_toplevel_spec. Qed.

Lemma is_ancestor_true_inv a b :
  is_ancestor sf a b = Some true →
  ∃ la l1, ancestors sf a = Some la ∧ ancestors sf b = Some (l1 ++ a :: la).
Proof.
  intros H. destruct (Hwf a) as [la Ha], (Hwf b) as [lb Hb].
  rewrite (is_ancestor_spec _ _ _ Hb) in H. simplify_eq.
  apply bool_decide_eq_true in H.
  destruct (ancestors_of_ancestor _ _ _ _ Ha Hb H) as [l1 ->]. eauto.
Qed.

(** No surface is among its own ancestors, and ancestry is one-way. *)
Lemma is_ancestor_asym a b :
  is_ancestor sf a b = Some true → is_ancestor sf b a = Some false.
Proof.
  intros H. destruct (is_ancestor_true_inv _ _ H) as (la & l1 & Ha & Hb).
  rewrite (is_ancestor_spec _ _ _ Ha). f_equal. apply bool_decide_eq_false.
  intros Hin. destruct (ancestors_of_ancestor _ _ _ _ Hb Ha Hin) as [l2 E].
  apply (f_equal length) in E. rewrite !length_app in E. simpl in E.
  rewrite length_app in E. simpl in E. lia.
Qed.

Lemma is_ancestor_parent_ne a b :
  is_ancestor sf a b = Some true → parent sf a ≠ parent sf b.
Proof.
  intros H Hp. destruct (is_ancestor_true_inv _ _ H) as (la & l1 & Ha & Hb).
  rewrite (ancestors_same_parent _ _ Hp), Hb in Ha. simplify_eq.
  apply (f_equal length) in Ha. rewrite length_app in Ha. simpl in Ha. lia.
Qed.

(** What the callback answers for an ancestor and its descendant: the
    ancestor is the greater one. *)
Lemma compare_ancestor a b :
  is_ancestor sf a b = Some true →
  meta_wayland_transaction_compare sf a b = Some 1 ∧
  meta_wayland_transaction_compare sf b a = Some (-1).
Proof.
  intros H. pose proof (is_ancestor_parent_ne _ _ H) as Hp.
  pose proof (is_ancestor_asym _ _ H) as Hba.
  unfold meta_wayland_transaction_compare.
  rewrite !decide_False by congruence. by rewrite H, Hba.
Qed.

End WellFormed.

End Walk.
End ForestFacts.

(** ** The comparison is not a strict weak ordering *)

Module CompareOrder.
Import Forest ForestFacts.

(** The values of the callback in a well-formed forest, case by case of
    the source: 0 exactly for two surfaces with one parent (lines 112 and
    113); opposite signs when the parents differ and one surface is a
    strict ancestor of the other (lines 116 to 120) or the toplevels
    differ (lines 126 and 127); and, for two surfaces of one tree that
    are neither siblings nor ancestor and descendant, the last return
    gives 1 whichever surface comes first. *)
Lemma compare_sign_consistency (sf : gmap Surface MetaWaylandSurface) (a b : Surface) :
  wf_forest sf →
  ∃ c1 c2 ta tb,
    meta_wayland_transaction_compare sf a b = Some c1 ∧
    meta_wayland_transaction_compare sf b a = Some c2 ∧
    meta_wayland_surface_get_toplevel sf a = Some ta ∧
    meta_wayland_surface_get_toplevel sf b = Some tb ∧
    (c1 = 0 ↔ parent sf a = parent sf b) ∧
    (c2 = 0 ↔ parent sf a = parent sf b) ∧
    (parent sf a ≠ parent sf b →
     is_ancestor sf a b = Some true ∨ is_ancestor sf b a = Some true ∨ ta ≠ tb →
     (c1 = 1 ∧ c2 = -1) ∨ (c1 = -1 ∧ c2 = 1)) ∧
    (parent sf a ≠ parent sf b →
     is_ancestor sf a b = Some false → is_ancestor sf b a = Some false →
     ta = tb → c1 = 1 ∧ c2 = 1) ∧
    (∀ c, meta_wayland_transaction_compare sf a b = Some 0 →
          meta_wayland_transaction_compare sf b c = Some 0 →
          meta_wayland_transaction_compare sf a c = Some 0).
Proof.
  intros Hwf.
  destruct (get_toplevel_total sf Hwf a) as [ta Hta].
  destruct (get_toplevel_total sf Hwf b) as [tb Htb].
  destruct (is_ancestor_total sf Hwf a b) as [vab Hab].
  destruct (is_ancestor_total sf Hwf b a) as [vba Hba].
  pose proof (compare_zero_iff sf a b) as Zab.
  pose proof (compare_zero_iff sf b a) as Zba.
  pose proof (compare_zero_trans sf a b) as Ztr.
  destruct (decide (parent sf a = parent sf b)) as [Hp|Hp].
  { exists 0, 0, ta, tb.
    rewrite (proj2 Zab Hp), (proj2 Zba (eq_sym Hp)).
    split_and!; try done.
    - intros c _ Hbc. apply compare_zero_iff. apply compare_zero_iff in Hbc.
      congruence. }
  assert (parent sf b ≠ parent sf a) as Hp' by congruence.
  destruct vab.
  { destruct (compare_ancestor sf Hwf a b Hab) as [E1 E2].
    exists 1, (-1), ta, tb. rewrite E1, E2 in *.
    repeat split; try done; auto; congruence. }
  destruct vba.
  { destruct (compare_ancestor sf Hwf b a Hba) as [E1 E2].
    exists (-1), 1, ta, tb. rewrite E1, E2 in *.
    repeat split; try done; auto; congruence. }
  rewrite (compare_unrelated sf a b ta tb) in * by done.
  rewrite (compare_unrelated sf b a tb ta) in * by done.
  do 2 eexists. exists ta, tb.
  split; [done|]. split; [done|]. split; [done|]. split; [done|].
  split; [by repeat case_decide|]. split; [by repeat case_decide|].
  split; [|split].
  - intros _ [?|[?|Hne]]; [congruence|congruence|].
    repeat case_decide; auto; lia.
  - intros _ _ _ ->. rewrite !decide_False by lia. done.
  - intros c Hc. by repeat case_decide.
Qed.

(** C4 (the code at the failing input).  In [forest4] the surfaces 2 and 4
    are distinct, have different parents and one toplevel, and the
    callback returns 1 for both orders: it is not antisymmetric.  Nor is incomparability transitive: 3 is tied
    with 2, 2 is incomparable with 4, and yet 4 sorts strictly before 3. *)
Theorem compare_not_strict_weak_order :
  wf_forest Examples.forest4 ∧
  meta_wayland_transaction_compare Examples.forest4 2 4 = Some 1 ∧
  meta_wayland_transaction_compare Examples.forest4 4 2 = Some 1 ∧
  incomparable Examples.forest4 3 2 ∧
  incomparable Examples.forest4 2 4 ∧
  ¬ incomparable Examples.forest4 3 4.
Proof.
  split; [apply wf_forestb_spec; vm_compute; reflexivity|].
  assert (∀ a b c, meta_wayland_transaction_compare Examples.forest4 a b = Some c →
                   0 ≤ c → ¬ compare_lt Examples.forest4 a b) as Hge.
  { intros a b c E Hc (c' & E' & Hc'). rewrite E in E'. simplify_eq. lia. }
  split; [by vm_compute|]. split; [by vm_compute|].
  split; [|split].
  - split; eapply (Hge _ _ 0); by vm_compute.
  - split; eapply (Hge _ _ 1); by vm_compute.
  - intros [_ H]. apply H. exists (-1). split; [by vm_compute|lia].
Qed.

End CompareOrder.

(** ** Destroying transactions *)

Module Teardown.

Lemma free_Ok t σ r :
  transactions σ !! t = Some r →
  meta_wayland_transaction_free t σ =
    Ok {| surfaces := surfaces σ;
          transactions := delete t (transactions σ);
          committed_queue :=
            if node_data r then g_queue_unlink (committed_queue σ) t
            else committed_queue σ;
          committed_sequence_counter := committed_sequence_counter σ;
          trace := trace σ |}.
Proof.
  intros H. unfold meta_wayland_transaction_free, transaction_of. rewrite H. simpl.
  by destruct (node_data r).
Qed.

(** C10.  Freeing a live transaction whose [node.data] is unset returns,
    removes the transaction, and leaves the committed queue (and the
    surfaces and the trace) as they were. *)
Theorem free_uncommitted_keeps_queue (t : Txn) (σ : Compositor) (r : MetaWaylandTransaction) :
  transactions σ !! t = Some r →
  node_data r = false →
  ∃ σ', meta_wayland_transaction_free t σ = Ok σ' ∧
        committed_queue σ' = committed_queue σ ∧
        transactions σ' = delete t (transactions σ) ∧
        surfaces σ' = surfaces σ ∧ trace σ' = trace σ.
Proof.
  intros H Hn. rewrite (free_Ok _ _ _ H), Hn. eexists. split; [done|]. done.
Qed.

(** C10 (witness): transaction 9 of [queued2]. *)
Lemma free_uncommitted_keeps_queue_witness :
  ∃ σ', meta_wayland_transaction_free 9 Examples2.queued2 = Ok σ' ∧
        committed_queue σ' = committed_queue Examples2.queued2 ∧
        transactions σ' = delete 9%positive (transactions Examples2.queued2) ∧
        surfaces σ' = surfaces Examples2.queued2 ∧
        trace σ' = trace Examples2.queued2.
Proof.
  apply (free_uncommitted_keeps_queue 9 Examples2.queued2 Examples2.empty_transaction);
    reflexivity.
Defined.

(** Only a committed transaction is unlinked. *)
Lemma free_committed_unlinks t σ r σ' :
  transactions σ !! t = Some r → node_data r = true →
  meta_wayland_transaction_free t σ = Ok σ' →
  committed_queue σ' = g_queue_unlink (committed_queue σ) t.
Proof.
  intros H Hn. rewrite (free_Ok _ _ _ H), Hn. intros. by simplify_eq.
Qed.

Lemma g_queue_unlink_length q t : (length (g_queue_unlink q t) ≤ length q)%nat.
Proof. apply length_filter. Qed.

Lemma g_queue_unlink_elem q t u : u ∈ g_queue_unlink q t ↔ u ∈ q ∧ u ≠ t.
Proof. unfold g_queue_unlink. rewrite list_elem_of_filter. tauto. Qed.

Lemma g_queue_unlink_absent q t : t ∉ q → g_queue_unlink q t = q.
Proof.
  intros H. unfold g_queue_unlink. induction q as [|u q IH]; [done|].
  rewrite not_elem_of_cons in H. destruct H as [Hne Hq].
  rewrite filter_cons_True by congruence. by rewrite IH.
Qed.

(** On an empty queue finalize returns at once. *)
Lemma finalize_empty σ :
  committed_queue σ = [] → meta_wayland_transaction_finalize σ = Ok σ.
Proof.
  intros H. unfold meta_wayland_transaction_finalize. cbn [finalize_loop].
  unfold g_queue_pop_head. by rewrite H.
Qed.



End Teardown.

(** ** Surfaces and hash-table keys *)

Lemma forallb_ext_elem {A : Type} (f g : A → bool) (l : list A) :
  (∀ a, a ∈ l → f a = g a) → forallb f l = forallb g l.
Proof.
  induction l as [|a l IH]; intros H; [done|]. simpl.
  rewrite (H a) by left. f_equal. apply IH. intros b Hb. apply H. by right.
Qed.

Lemma existsb_ext_elem {A : Type} (f g : A → bool) (l : list A) :
  (∀ a, a ∈ l → f a = g a) → existsb f l = existsb g l.
Proof.
  induction l as [|a l IH]; intros H; [done|]. simpl.
  rewrite (H a) by left. f_equal. apply IH. intros b Hb. apply H. by right.
Qed.

Lemma surface_of_update s f σ s' :
  surface_of (update_surface s f σ) s' =
    if decide (s = s') then f (surface_of σ s) else surface_of σ s'.
Proof.
  unfold surface_of, update_surface, get_surface. simpl.
  case_decide as E.
  - subst. by rewrite lookup_insert_eq.
  - by rewrite lookup_insert_ne.
Qed.

Lemma keys_NoDup {V : Type} (m : gmap Surface V) :
  NoDup (g_hash_table_get_keys_as_array m).
Proof. apply NoDup_fst_map_to_list. Qed.

Lemma elem_of_keys {V : Type} (m : gmap Surface V) (s : Surface) :
  s ∈ g_hash_table_get_keys_as_array m ↔ is_Some (m !! s).
Proof.
  unfold g_hash_table_get_keys_as_array. rewrite list_elem_of_fmap. split.
  - intros ([k v] & -> & H). apply elem_of_map_to_list in H. by eexists.
  - intros [v H]. exists (s, v). split; [done|]. by apply elem_of_map_to_list.
Qed.

(** ** Commit *)

Module Commit.

(** What the loop over the entries leaves: the flag is cleared by the first
    surface that had a [first_committed]; every surface of the list gets
    [last_committed] set, and [first_committed] when it had none. *)
Lemma commit_surfaces_spec t l σ b :
  NoDup l →
  (foldl (commit_surface t) (σ, b) l).2 =
    (b && forallb (λ s, bool_decide (first_committed (surface_of σ s) = None)) l) ∧
  transactions (foldl (commit_surface t) (σ, b) l).1 = transactions σ ∧
  committed_queue (foldl (commit_surface t) (σ, b) l).1 = committed_queue σ ∧
  committed_sequence_counter (foldl (commit_surface t) (σ, b) l).1
    = committed_sequence_counter σ ∧
  trace (foldl (commit_surface t) (σ, b) l).1 = trace σ ∧
  ∀ s, surface_of (foldl (commit_surface t) (σ, b) l).1 s =
         if decide (s ∈ l)
         then set_committed_chain
                (Some (default t (first_committed (surface_of σ s)))) (Some t)
                (surface_of σ s)
         else surface_of σ s.
Proof.
  revert σ b. induction l as [|a l IH]; intros σ b Hnd.
  { simpl. rewrite andb_true_r. by split_and!. }
  apply NoDup_cons in Hnd as [Hal Hnd]. cbn [foldl].
  set (σb := commit_surface t (σ, b) a).
  assert (σb = (update_surface a
                  (set_committed_chain
                     (Some (default t (first_committed (surface_of σ a)))) (Some t)) σ,
                b && bool_decide (first_committed (surface_of σ a) = None))) as Eb.
  { subst σb. unfold commit_surface.
    destruct (first_committed (surface_of σ a)) as [f|] eqn:E; simpl.
    - by rewrite andb_false_r.
    - by rewrite andb_true_r. }
  rewrite Eb. clear Eb σb.
  destruct (IH (update_surface a
                  (set_committed_chain
                     (Some (default t (first_committed (surface_of σ a)))) (Some t)) σ)
               (b && bool_decide (first_committed (surface_of σ a) = None)) Hnd)
    as (H2 & Htx & Hq & Hc & Htr & Hsf).
  rewrite H2, Htx, Hq, Hc, Htr. split_and!; try done.
  - cbn [forallb]. rewrite <- andb_assoc. f_equal. f_equal.
    apply forallb_ext_elem. intros s Hs.
    rewrite surface_of_update. rewrite decide_False; [done|]. by intros ->.
  - intros s. rewrite Hsf, !surface_of_update.
    destruct (decide (a = s)) as [->|Hne].
    + rewrite (decide_False (P := s ∈ l)) by done.
      by rewrite decide_True by left.
    + destruct (decide (s ∈ l)) as [Hin|Hnin].
      * by rewrite decide_True by (by right).
      * rewrite decide_False; [done|]. rewrite elem_of_cons. naive_solver.
Qed.

(** C2.  For a live transaction, commit appends it to the queue and leaves
    the trace alone while it registers it; the flag [maybe_apply] it ends
    with is set exactly when no surface of the transaction had a
    [first_committed] at the start.  With the flag set commit is the run of
    the engine on the transaction, whose readiness check passes, so that
    apply is invoked on it; with the flag cleared commit returns the
    registered state: the transaction is queued, live, and not applied. *)
Theorem commit_applies_iff_unclaimed (fuel : nat) (t : Txn) (σ : Compositor)
    (r : MetaWaylandTransaction) :
  transactions σ !! t = Some r →
  ∃ σ1 maybe_apply,
    commit_register t σ = Ok (σ1, maybe_apply) ∧
    (maybe_apply = true ↔
     ∀ s, is_Some (entries r !! s) → first_committed (surface_of σ s) = None) ∧
    committed_queue σ1 = committed_queue σ ++ [t] ∧
    trace σ1 = trace σ ∧
    is_Some (transactions σ1 !! t) ∧
    meta_wayland_transaction_commit fuel t σ =
      (if maybe_apply then meta_wayland_transaction_maybe_apply fuel t σ1
       else Ok σ1) ∧
    (maybe_apply = true →
     meta_wayland_transaction_maybe_apply_one t META_WAYLAND_TRANSACTION_NONE σ1 =
       meta_wayland_transaction_apply t META_WAYLAND_TRANSACTION_NONE σ1).
Proof.
  intros Hr.
  unfold meta_wayland_transaction_commit, commit_register, transaction_of.
  rewrite Hr. cbn [deref mbind result_mbind result_bind].
  set (seq := (committed_sequence_counter σ + 1) `mod` 2 ^ 64).
  set (σ2 := set_committed_queue _ _).
  destruct (commit_surfaces_spec t (g_hash_table_get_keys_as_array (entries r))
              σ2 true (keys_NoDup _)) as (Hflag & Htx & Hq & _ & Htr & Hsf).
  destruct (foldl (commit_surface t) (σ2, true) _) as [σ1 flag] eqn:Efold.
  simpl in Hflag, Htx, Hq, Htr, Hsf.
  assert (∀ s, surface_of σ2 s = surface_of σ s) as Hsame by done.
  assert (transactions σ1 !! t = Some (set_committed seq r)) as Ht1.
  { rewrite Htx. subst σ2. simpl. apply lookup_insert_eq. }
  exists σ1, flag. split; [done|]. split_and!; try done.
  - rewrite Hflag, forallb_forall. split.
    + intros H s Hs. specialize (H s). rewrite Hsame, bool_decide_eq_true in H.
      apply H, list_elem_of_In, elem_of_keys, Hs.
    + intros H s Hs. rewrite Hsame. apply bool_decide_eq_true, H.
      by apply elem_of_keys, list_elem_of_In.
  - intros ->.
    unfold meta_wayland_transaction_maybe_apply_one, has_unapplied_dependencies,
      transaction_of.
    rewrite Ht1. cbn [deref mbind result_mbind result_bind].
    replace (existsb _ _) with false; [done|]. symmetry.
    apply not_true_is_false. rewrite existsb_exists. intros (s & Hs & Hne).
    apply list_elem_of_In in Hs. apply bool_decide_eq_true in Hne. apply Hne.
    symmetry in Hflag. rewrite forallb_forall in Hflag.
    specialize (Hflag s (proj1 (list_elem_of_In _ _) Hs)).
    apply bool_decide_eq_true in Hflag.
    rewrite Hsf, decide_True by done. cbn [set_committed_chain first_committed].
    by rewrite Hflag.
Qed.

(** C2 (witness): transaction 5 of [parent_child]. *)
Lemma commit_applies_iff_unclaimed_witness :
  ∃ σ1 maybe_apply,
    commit_register 5 Examples2.parent_child = Ok (σ1, maybe_apply) ∧
    (maybe_apply = true ↔
     ∀ s, is_Some (entries (Examples2.parent_child_transaction) !! s) →
          first_committed (surface_of Examples2.parent_child s) = None) ∧
    committed_queue σ1 = committed_queue Examples2.parent_child ++ [5%positive] ∧
    trace σ1 = trace Examples2.parent_child ∧
    is_Some (transactions σ1 !! 5%positive) ∧
    meta_wayland_transaction_commit 1 5 Examples2.parent_child =
      (if maybe_apply then meta_wayland_transaction_maybe_apply 1 5 σ1
       else Ok σ1) ∧
    (maybe_apply = true →
     meta_wayland_transaction_maybe_apply_one 5 META_WAYLAND_TRANSACTION_NONE σ1 =
       meta_wayland_transaction_apply 5 META_WAYLAND_TRANSACTION_NONE σ1).
Proof.
  apply (commit_applies_iff_unclaimed 1 5 Examples2.parent_child
           Examples2.parent_child_transaction).
  reflexivity.
Defined.

Lemma keys_empty {V : Type} :
  g_hash_table_get_keys_as_array (∅ : gmap Surface V) = [].
Proof. unfold g_hash_table_get_keys_as_array. by rewrite map_to_list_empty. Qed.

(** C9.  Committing a live transaction with no entry, with fuel for one
    round of the cascade: it is appended to the queue with the flag
    [maybe_apply] set, the readiness check finds no dependency, and commit
    returns with apply entered for the transaction and no per-surface
    event, the surfaces untouched, the transaction destroyed and no longer
    in the queue, which is the queue from before the commit. *)
Theorem commit_empty_applies_immediately (fuel : nat) (t : Txn) (σ : Compositor)
    (r : MetaWaylandTransaction) :
  transactions σ !! t = Some r →
  entries r = ∅ →
  t ∉ committed_queue σ →
  ∃ σ1 σ',
    commit_register t σ = Ok (σ1, true) ∧
    committed_queue σ1 = committed_queue σ ++ [t] ∧
    has_unapplied_dependencies t σ1 = Ok false ∧
    meta_wayland_transaction_commit (S fuel) t σ = Ok σ' ∧
    trace σ' = trace σ ++ [EvApply t] ∧
    surfaces σ' = surfaces σ ∧
    transactions σ' = delete t (transactions σ) ∧
    t ∉ committed_queue σ' ∧
    committed_queue σ' = committed_queue σ.
Proof.
  intros Hr He Hq.
  unfold meta_wayland_transaction_commit, commit_register, transaction_of.
  rewrite Hr. cbn [deref mbind result_mbind result_bind].
  rewrite He, keys_empty. cbn [mbind result_mbind result_bind foldl].
  set (seq := (committed_sequence_counter σ + 1) `mod` 2 ^ 64).
  set (σ1 := set_committed_queue _ _).
  assert (transactions σ1 !! t = Some (set_committed seq r)) as Ht1.
  { subst σ1. simpl. apply lookup_insert_eq. }
  assert (has_unapplied_dependencies t σ1 = Ok false) as Hdep.
  { unfold has_unapplied_dependencies, transaction_of. rewrite Ht1. simpl.
    by rewrite He, keys_empty. }
  eexists σ1, _. split; [done|]. split; [done|]. split; [done|].
  unfold meta_wayland_transaction_maybe_apply. cbn [maybe_apply_loop].
  unfold meta_wayland_transaction_maybe_apply_one. rewrite Hdep.
  cbn [mbind result_mbind result_bind].
  unfold meta_wayland_transaction_apply, transaction_of.
  cbn [emit transactions]. rewrite Ht1.
  cbn [deref mbind result_mbind result_bind set_committed entries].
  rewrite He, keys_empty.
  cbn [qsort returns mbind result_mbind result_bind apply_surfaces
       sync_child_states_pass zip zip_with reverse foldl rev_append].
  rewrite (Teardown.free_Ok t _ (set_committed seq r)) by done.
  cbn [mbind result_mbind result_bind set_committed node_data].
  split; [done|]. subst σ1. cbn -[g_queue_unlink].
  assert (g_queue_unlink (committed_queue σ ++ [t]) t = committed_queue σ) as Eq.
  { unfold g_queue_unlink. rewrite filter_app.
    rewrite filter_cons_False, filter_nil, app_nil_r by (by intros []).
    by apply Teardown.g_queue_unlink_absent. }
  rewrite Eq. split_and!; try done. apply delete_insert_eq.
Qed.

(** C9 (witness): transaction 9 of [queued2], which is not in the queue. *)
Lemma commit_empty_applies_immediately_witness :
  ∃ σ1 σ',
    commit_register 9 Examples2.queued2 = Ok (σ1, true) ∧
    committed_queue σ1 = committed_queue Examples2.queued2 ++ [9%positive] ∧
    has_unapplied_dependencies 9 σ1 = Ok false ∧
    meta_wayland_transaction_commit 1 9 Examples2.queued2 = Ok σ' ∧
    trace σ' = trace Examples2.queued2 ++ [EvApply 9] ∧
    surfaces σ' = surfaces Examples2.queued2 ∧
    transactions σ' = delete 9%positive (transactions Examples2.queued2) ∧
    9%positive ∉ committed_queue σ' ∧
    committed_queue σ' = committed_queue Examples2.queued2.
Proof.
  apply (commit_empty_applies_immediately 0 9 Examples2.queued2
           Examples2.empty_transaction); [reflexivity|reflexivity|].
  simpl. intros H.
  apply elem_of_cons in H as [H|H]; [discriminate H|].
  apply elem_of_cons in H as [H|H]; [discriminate H|].
  by apply elem_of_nil in H.
Defined.

End Commit.

(** ** The order in which apply visits the surfaces *)

Module ApplyOrder.
Import Forest ForestFacts.

(** In an array sorted ascending by the callback no surface stands before
    one of its descendants: descendants come first. *)
Lemma sorted_ancestor_not_before sf (p c : Surface) (l1 l2 : list Surface) :
  wf_forest sf →
  is_ancestor sf p c = Some true →
  StronglySorted (compare_le sf) (l1 ++ p :: l2) →
  c ∉ l2.
Proof.
  intros Hwf Hpc Hs Hc.
  apply StronglySorted_app_1_r, StronglySorted_inv in Hs as [_ Hall].
  rewrite Forall_forall in Hall. destruct (Hall c Hc) as (k & Hk & Hle).
  destruct (compare_ancestor sf Hwf p c Hpc) as [E _].
  rewrite E in Hk. simplify_eq. lia.
Qed.

(** C3 (the code at the failing input).  Surface 1 is the parent of
    surface 2 and transaction 5 holds a state for both.  Committing it
    applies it at once, and apply visits the child first: the state of 2
    is applied before the position and the state of 1, and the child
    states are synchronised for 1 before 2. *)
Theorem apply_visits_descendant_first :
  is_ancestor (surfaces Examples2.parent_child) 1 2 = Some true ∧
  meta_wayland_transaction_compare (surfaces Examples2.parent_child) 1 2 = Some 1 ∧
  ∃ σ', meta_wayland_transaction_commit 1 5 Examples2.parent_child = Ok σ' ∧
        trace σ' =
          [EvApply 5;
           EvApplyState 2 Examples2.stateC;
           EvSubPos 1 10 20; EvApplyState 1 Examples2.stateP;
           EvSyncChildStates 1; EvSyncChildStates 2].
Proof.
  split; [by vm_compute|]. split; [by vm_compute|].
  eexists. split; [by vm_compute|]. reflexivity.
Qed.

End ApplyOrder.

(** ** Building and merging transactions *)

Module Merge.

Lemma ensure_entry_keeps r s s' e :
  entries r !! s' = Some e →
  entries (meta_wayland_transaction_ensure_entry r s).1 !! s' = Some e.
Proof.
  intros H. unfold meta_wayland_transaction_ensure_entry,
    meta_wayland_transaction_get_entry.
  destruct (entries r !! s) eqn:E; simpl; [done|].
  rewrite lookup_insert_ne; [done|]. intros ->. congruence.
Qed.

Lemma ensure_entry_origin r s s' e :
  entries (meta_wayland_transaction_ensure_entry r s).1 !! s' = Some e →
  entries r !! s' = Some e ∨ (entries r !! s' = None ∧ s' = s ∧ e = entry_new0).
Proof.
  unfold meta_wayland_transaction_ensure_entry, meta_wayland_transaction_get_entry.
  destruct (entries r !! s) eqn:E; simpl; [by left|].
  destruct (decide (s = s')) as [->|Hne].
  - rewrite lookup_insert_eq. intros. simplify_eq. by right.
  - rewrite lookup_insert_ne by done. by left.
Qed.

Lemma ensure_entry_present r s :
  is_Some (entries (meta_wayland_transaction_ensure_entry r s).1 !! s).
Proof.
  unfold meta_wayland_transaction_ensure_entry, meta_wayland_transaction_get_entry.
  destruct (entries r !! s) eqn:E; simpl; [by rewrite E|].
  by rewrite lookup_insert_eq.
Qed.

Lemma add_placement_op_keeps r op s e :
  entries r !! s = Some e → entries (add_placement_op r op) !! s = Some e.
Proof.
  intros H. unfold add_placement_op.
  destruct (op_surface op), (op_sibling op); auto using ensure_entry_keeps.
Qed.

Lemma add_placement_op_origin r op s e :
  entries (add_placement_op r op) !! s = Some e →
  entries r !! s = Some e ∨
  (entries r !! s = None ∧ e = entry_new0 ∧
   (op_surface op = Some s ∨ op_sibling op = Some s)).
Proof.
  unfold add_placement_op.
  destruct (op_surface op) as [a|], (op_sibling op) as [b|]; intros H.
  - apply ensure_entry_origin in H as [H|(H & -> & ->)].
    + apply ensure_entry_origin in H as [H|(H & -> & ->)]; [by left|].
      right. auto.
    + destruct (entries r !! b) eqn:E; [|right; auto].
      rewrite (ensure_entry_keeps _ _ _ _ E) in H. done.
  - apply ensure_entry_origin in H as [H|(H & -> & ->)]; [by left|]. right. auto.
  - apply ensure_entry_origin in H as [H|(H & -> & ->)]; [by left|]. right. auto.
  - by left.
Qed.

Lemma add_placement_ops_keeps ops r s e :
  entries r !! s = Some e → entries (foldl add_placement_op r ops) !! s = Some e.
Proof.
  revert r. induction ops as [|op ops IH]; intros r H; [done|].
  simpl. by apply IH, add_placement_op_keeps.
Qed.

Lemma add_placement_ops_origin ops r s e :
  entries (foldl add_placement_op r ops) !! s = Some e →
  entries r !! s = Some e ∨
  (entries r !! s = None ∧ e = entry_new0 ∧
   ∃ op, op ∈ ops ∧ (op_surface op = Some s ∨ op_sibling op = Some s)).
Proof.
  revert r. induction ops as [|op ops IH]; intros r H; [by left|].
  simpl in H. apply IH in H as [H|(H & -> & op' & Hin & Hop)].
  - apply add_placement_op_origin in H as [H|(H & -> & Hop)]; [by left|].
    right. split_and!; try done. exists op. split; [left|done].
  - destruct (entries r !! s) eqn:E.
    + by rewrite (add_placement_op_keeps _ _ _ _ E) in H.
    + right. split_and!; try done. exists op'. split; [by right|done].
Qed.

Lemma add_placement_surfaces_keeps r st s e :
  entries r !! s = Some e →
  entries (meta_wayland_transaction_add_placement_surfaces r st) !! s = Some e.
Proof. apply add_placement_ops_keeps. Qed.

Lemma add_placement_surfaces_origin r st s e :
  entries (meta_wayland_transaction_add_placement_surfaces r st) !! s = Some e →
  entries r !! s = Some e ∨
  (entries r !! s = None ∧ e = entry_new0 ∧ placement_named st s).
Proof. apply add_placement_ops_origin. Qed.

(** One round of the merge loop leaves the entries of [to] for the other
    surfaces as they are. *)
Lemma merge_into_step_keeps from to k v s e :
  entries to !! s = Some e → k ≠ s →
  entries (merge_into_step (from, to) (k, v)).2 !! s = Some e.
Proof.
  intros H Hne. unfold merge_into_step, meta_wayland_transaction_get_entry.
  destruct (entries to !! k) as [te|] eqn:E; simpl.
  - rewrite lookup_insert_ne by done.
    destruct (state v); [by apply add_placement_surfaces_keeps|done].
  - unfold meta_wayland_transaction_add_entry.
    destruct (state v).
    + apply add_placement_surfaces_keeps. simpl. by rewrite lookup_insert_ne.
    + simpl. by rewrite lookup_insert_ne.
Qed.

(** The round for a surface that [to] has an entry for. *)
Lemma merge_into_step_both from to s v te :
  entries to !! s = Some te →
  entries (merge_into_step (from, to) (s, v)).2 !! s =
    Some (meta_wayland_transaction_entry_merge_into v te).2.
Proof.
  intros H. unfold merge_into_step, meta_wayland_transaction_get_entry.
  rewrite H. simpl. by rewrite lookup_insert_eq.
Qed.

(** Where an entry of [to] after one round comes from. *)
Lemma merge_into_step_origin from to k v s e :
  entries (merge_into_step (from, to) (k, v)).2 !! s = Some e →
  (k ≠ s ∧ entries to !! s = Some e) ∨
  (k = s ∧ entries to !! s = None ∧ e = v) ∨
  (k = s ∧ ∃ te, entries to !! s = Some te ∧
                 e = (meta_wayland_transaction_entry_merge_into v te).2) ∨
  (k ≠ s ∧ entries to !! s = None ∧ e = entry_new0 ∧
   ∃ st, state v = Some st ∧ placement_named st s).
Proof.
  unfold merge_into_step, meta_wayland_transaction_get_entry.
  destruct (entries to !! k) as [te|] eqn:E; simpl.
  - destruct (decide (k = s)) as [->|Hne].
    + rewrite lookup_insert_eq. intros. simplify_eq. right. right. left. eauto.
    + rewrite lookup_insert_ne by done. destruct (state v) as [st|] eqn:Es.
      * intros H. apply add_placement_surfaces_origin in H as [H|(H & -> & Hn)];
          [by left|]. right. right. right. eauto 10.
      * by left.
  - unfold meta_wayland_transaction_add_entry.
    destruct (state v) as [st|] eqn:Es.
    + intros H. apply add_placement_surfaces_origin in H as [H|(H & -> & Hn)].
      * simpl in H. destruct (decide (k = s)) as [->|Hne].
        -- rewrite lookup_insert_eq in H. simplify_eq. right. left. done.
        -- rewrite lookup_insert_ne in H by done. by left.
      * simpl in H. destruct (decide (k = s)) as [->|Hne].
        -- by rewrite lookup_insert_eq in H.
        -- rewrite lookup_insert_ne in H by done. right. right. right. eauto 10.
    + simpl. destruct (decide (k = s)) as [->|Hne].
      * rewrite lookup_insert_eq. intros. simplify_eq. right. left. done.
      * rewrite lookup_insert_ne by done. by left.
Qed.

Lemma merge_into_fold_keeps kvs from to s e :
  entries to !! s = Some e → s ∉ kvs.*1 →
  entries (foldl merge_into_step (from, to) kvs).2 !! s = Some e.
Proof.
  revert from to. induction kvs as [|[k v] kvs IH]; intros from to H Hs; [done|].
  simpl in Hs. apply not_elem_of_cons in Hs as [Hne Hs].
  cbn [foldl]. destruct (merge_into_step (from, to) (k, v)) as [f' t'] eqn:E.
  apply IH; [|done]. change t' with (f', t').2. rewrite <- E.
  by apply merge_into_step_keeps.
Qed.

(** The entry of [to] for a surface both transactions have. *)
Lemma merge_into_fold_both kvs from to s fe te :
  NoDup kvs.*1 → (s, fe) ∈ kvs → entries to !! s = Some te →
  entries (foldl merge_into_step (from, to) kvs).2 !! s =
    Some (meta_wayland_transaction_entry_merge_into fe te).2.
Proof.
  revert from to. induction kvs as [|[k v] kvs IH]; intros from to Hnd Hin Hto.
  { by apply elem_of_nil in Hin. }
  simpl in Hnd. apply NoDup_cons in Hnd as [Hk Hnd].
  cbn [foldl]. destruct (merge_into_step (from, to) (k, v)) as [f' t'] eqn:E.
  apply elem_of_cons in Hin as [Hin|Hin].
  - simplify_eq. apply merge_into_fold_keeps; [|done].
    change t' with (f', t').2. rewrite <- E. by apply merge_into_step_both.
  - apply IH; [done|done|]. change t' with (f', t').2. rewrite <- E.
    apply merge_into_step_keeps; [done|]. intros ->. apply Hk.
    apply list_elem_of_fmap. by exists (s, fe).
Qed.

Lemma merge_into_Ok from to σ rf rt :
  from ≠ to →
  transactions σ !! from = Some rf → transactions σ !! to = Some rt →
  ∃ σ', meta_wayland_transaction_merge_into from to σ = Ok σ' ∧
        transactions σ' !! from = None ∧
        transactions σ' !! to =
          Some (foldl merge_into_step (rf, rt) (g_hash_table_iter (entries rf))).2 ∧
        (∀ u, u ≠ from → u ≠ to → transactions σ' !! u = transactions σ !! u) ∧
        surfaces σ' = surfaces σ ∧ trace σ' = trace σ.
Proof.
  intros Hne Hf Ht. unfold meta_wayland_transaction_merge_into, transaction_of.
  rewrite Hf, Ht. cbn [deref mbind result_mbind result_bind].
  rewrite decide_False by done.
  destruct (foldl merge_into_step (rf, rt) _) as [rf' rt'] eqn:E.
  rewrite (Teardown.free_Ok from _ rf').
  2:{ simpl. rewrite lookup_insert_ne by done. apply lookup_insert_eq. }
  eexists. split; [done|]. simpl. split_and!; try done.
  - apply lookup_delete_eq.
  - rewrite lookup_delete_ne by done. apply lookup_insert_eq.
  - intros u H1 H2. by rewrite lookup_delete_ne, !lookup_insert_ne.
Qed.

(** C7.  Merging [from] into another live transaction [to] returns; for a
    surface both have an entry for, the entry of [to] afterwards is what
    the entry merge makes of the two: with a position in [from]'s entry that
    position, otherwise [to]'s own; with a state in both the external merge
    of [from]'s state into [to]'s, and with a state in [from]'s entry only
    that state.  [from]'s entry is left without a state and [from] is
    destroyed. *)
Theorem merge_into_common_entry (from to : Txn) (σ : Compositor)
    (rf rt : MetaWaylandTransaction) (s : Surface)
    (fe te : MetaWaylandTransactionEntry) :
  from ≠ to →
  transactions σ !! from = Some rf →
  transactions σ !! to = Some rt →
  entries rf !! s = Some fe →
  entries rt !! s = Some te →
  ∃ σ' rt' e',
    meta_wayland_transaction_merge_into from to σ = Ok σ' ∧
    transactions σ' !! from = None ∧
    transactions σ' !! to = Some rt' ∧
    entries rt' !! s = Some e' ∧
    e' = (meta_wayland_transaction_entry_merge_into fe te).2 ∧
    state (meta_wayland_transaction_entry_merge_into fe te).1 = None ∧
    (has_sub_pos fe = true → has_sub_pos e' = true ∧ x e' = x fe ∧ y e' = y fe) ∧
    (has_sub_pos fe = false →
     has_sub_pos e' = has_sub_pos te ∧ x e' = x te ∧ y e' = y te) ∧
    (∀ stf stt, state fe = Some stf → state te = Some stt →
       state e' = Some (meta_wayland_surface_state_merge_into (Some stf) stt)) ∧
    (∀ stf, state fe = Some stf → state te = None → state e' = Some stf).
Proof.
  intros Hne Hf Ht Hfe Hte.
  destruct (merge_into_Ok from to σ rf rt Hne Hf Ht)
    as (σ' & Hrun & Hgone & Hto & _).
  eexists σ', _, _. split; [done|]. split; [done|]. split; [done|].
  split.
  { apply merge_into_fold_both; [apply NoDup_fst_map_to_list| |done].
    by apply elem_of_map_to_list. }
  split; [done|].
  unfold meta_wayland_transaction_entry_merge_into.
  destruct (has_sub_pos fe) eqn:Ep, (state te) as [stt|] eqn:Est; simpl;
    rewrite ?Est; simpl; split_and!; try done; try (intros; simplify_eq; done);
    intros stf stt0 E1 E2; rewrite E1; by simplify_eq.
Qed.

(** C7 (witness): surface 5 in the transactions 1 and 2 of [merge_pair]. *)
Lemma merge_into_common_entry_witness :
  ∃ σ' rt' e',
    meta_wayland_transaction_merge_into 1 2 Examples2.merge_pair = Ok σ' ∧
    transactions σ' !! 1%positive = None ∧
    transactions σ' !! 2%positive = Some rt' ∧
    entries rt' !! 5%positive = Some e' ∧
    e' = (meta_wayland_transaction_entry_merge_into
            Examples2.merge_from_entry Examples2.merge_to_entry).2 ∧
    state (meta_wayland_transaction_entry_merge_into
             Examples2.merge_from_entry Examples2.merge_to_entry).1 = None ∧
    (has_sub_pos Examples2.merge_from_entry = true →
     has_sub_pos e' = true ∧ x e' = x Examples2.merge_from_entry ∧
     y e' = y Examples2.merge_from_entry) ∧
    (has_sub_pos Examples2.merge_from_entry = false →
     has_sub_pos e' = has_sub_pos Examples2.merge_to_entry ∧
     x e' = x Examples2.merge_to_entry ∧ y e' = y Examples2.merge_to_entry) ∧
    (∀ stf stt, state Examples2.merge_from_entry = Some stf →
       state Examples2.merge_to_entry = Some stt →
       state e' = Some (meta_wayland_surface_state_merge_into (Some stf) stt)) ∧
    (∀ stf, state Examples2.merge_from_entry = Some stf →
       state Examples2.merge_to_entry = None → state e' = Some stf).
Proof.
  apply (merge_into_common_entry 1 2 Examples2.merge_pair
           Examples2.merge_from Examples2.merge_to 5
           Examples2.merge_from_entry Examples2.merge_to_entry);
    [discriminate|reflexivity|reflexivity|reflexivity|reflexivity].
Defined.




Lemma add_subsurface_position_spec t s px py σ r :
  transactions σ !! t = Some r →
  meta_wayland_transaction_add_subsurface_position t s px py σ =
    Ok (store_transaction t
          (set_entries
             (<[s := {| state := (meta_wayland_transaction_ensure_entry r s).2.(state);
                        has_sub_pos := true; x := px; y := py |}]>
                (entries (meta_wayland_transaction_ensure_entry r s).1))
             (meta_wayland_transaction_ensure_entry r s).1) σ).
Proof.
  intros H. unfold meta_wayland_transaction_add_subsurface_position, transaction_of.
  rewrite H. simpl. by destruct (meta_wayland_transaction_ensure_entry r s).
Qed.

Lemma merge_pending_state_spec t s σ r :
  transactions σ !! t = Some r →
  ∃ st',
    meta_wayland_transaction_merge_pending_state t s σ =
      Ok (update_surface s (set_pending_state meta_wayland_surface_state_new)
            (store_transaction t
               (set_entries
                  (<[s := {| state := Some st';
                             has_sub_pos :=
                               (meta_wayland_transaction_ensure_entry r s).2.(has_sub_pos);
                             x := (meta_wayland_transaction_ensure_entry r s).2.(x);
                             y := (meta_wayland_transaction_ensure_entry r s).2.(y) |}]>
                     (entries (meta_wayland_transaction_ensure_entry r s).1))
                  (meta_wayland_transaction_ensure_entry r s).1) σ)).
Proof.
  intros H. unfold meta_wayland_transaction_merge_pending_state, transaction_of.
  rewrite H. simpl. destruct (meta_wayland_transaction_ensure_entry r s).
  by eexists.
Qed.







End Merge.

(** ** The candidate chain *)

Module Chain.

Section Segments.
Variable tx : gmap Txn MetaWaylandTransaction.

Lemma is_seg_app c l1 l2 c' :
  is_seg tx c (l1 ++ l2) c' ↔ ∃ m, is_seg tx c l1 m ∧ is_seg tx m l2 c'.
Proof.
  revert c. induction l1 as [|t l1 IH]; intros c; simpl.
  - split; [intros H; by exists c|]. by intros (m & -> & H).
  - split.
    + intros (-> & r & Hr & H). apply IH in H as (m & H1 & H2).
      exists m. split; [|done]. split; [done|]. by exists r.
    + intros (m & (-> & r & Hr & H1) & H2). split; [done|].
      exists r. split; [done|]. apply IH. by exists m.
Qed.

Lemma is_seg_live c l c' t : is_seg tx c l c' → t ∈ l → is_Some (tx !! t).
Proof.
  revert c. induction l as [|u l IH]; intros c H Ht; [by apply elem_of_nil in Ht|].
  destruct H as (-> & r & Hr & H).
  apply elem_of_cons in Ht as [->|Ht]; [by eexists|]. by eapply IH.
Qed.

(** A transaction on the chain has a [next_candidate] that is not NULL,
    provided the chain does not end in NULL. *)
Lemma is_seg_next_set c l c' t r :
  is_seg tx c l c' → c' ≠ CandNull → t ∈ l → tx !! t = Some r →
  next_candidate r ≠ CandNull.
Proof.
  revert c. induction l as [|u l IH]; intros c H Hc' Ht Hr;
    [by apply elem_of_nil in Ht|].
  destruct H as (-> & ru & Hru & H).
  destruct (decide (t ∈ l)) as [Hin|Hnin]; [by eapply IH|].
  apply elem_of_cons in Ht as [->|Ht]; [|done]. simplify_eq.
  destruct l as [|v l]; simpl in H; [congruence|].
  destruct H as [-> _]. done.
Qed.

End Segments.

(** A segment only depends on the links of its own transactions. *)
Lemma is_seg_ext tx tx' c l c' :
  (∀ t, t ∈ l → next_candidate <$> tx' !! t = next_candidate <$> tx !! t) →
  is_seg tx c l c' → is_seg tx' c l c'.
Proof.
  revert c. induction l as [|u l IH]; intros c Hext H; [done|].
  destruct H as (-> & r & Hr & H). split; [done|].
  specialize (Hext u (list_elem_of_here _ _)) as Hu. rewrite Hr in Hu.
  destruct (tx' !! u) as [r'|] eqn:Er'; [|done]. simpl in Hu. simplify_eq.
  exists r'. split; [done|]. rewrite Hu. apply IH; [|done].
  intros t Ht. apply Hext. by right.
Qed.

Lemma seq_of_data tx tx' t : txn_data tx' = txn_data tx → seq_of tx' t = seq_of tx t.
Proof.
  intros H. apply (f_equal (λ m, m !! t)) in H. unfold txn_data in H.
  rewrite !lookup_fmap in H. unfold seq_of.
  destruct (tx' !! t), (tx !! t); simpl in *; by simplify_eq.
Qed.

Lemma chain_sorted_data tx tx' l :
  txn_data tx' = txn_data tx → chain_sorted tx l → chain_sorted tx' l.
Proof.
  intros H. unfold chain_sorted. intros Hs.
  induction Hs as [|a l Hs IH Hall]; constructor; [done|].
  eapply Forall_impl; [done|]. intros b. simpl. by rewrite !(seq_of_data _ _ _ H).
Qed.

Lemma txn_data_insert tx t r c :
  tx !! t = Some r →
  txn_data (<[t := set_next_candidate c r]> tx) = txn_data tx.
Proof.
  intros H. unfold txn_data. rewrite fmap_insert.
  apply insert_id. rewrite lookup_fmap, H. done.
Qed.

Lemma txn_data_lookup tx tx' t r :
  txn_data tx' = txn_data tx → tx !! t = Some r →
  ∃ r', tx' !! t = Some r' ∧ erase_next r' = erase_next r.
Proof.
  intros H Hr. apply (f_equal (λ m, m !! t)) in H. unfold txn_data in H.
  rewrite !lookup_fmap, Hr in H. destruct (tx' !! t) as [r'|]; [|done].
  simpl in H. exists r'. split; [done|]. congruence.
Qed.

Lemma erase_next_fields r r' :
  erase_next r' = erase_next r →
  entries r' = entries r ∧ node_data r' = node_data r ∧
  committed_sequence r' = committed_sequence r.
Proof.
  intros H. split_and!.
  - by apply (f_equal entries) in H.
  - by apply (f_equal node_data) in H.
  - by apply (f_equal committed_sequence) in H.
Qed.

(** The walk of [ensure_next_candidate] stops at the first transaction of
    the chain whose sequence number is not below [seq]. *)
Lemma candidate_walk_spec σ seq l :
  ∀ fuel slot c,
    is_chain (transactions σ) c l → (length l < fuel)%nat →
    ∃ l1 l2 cur',
      l = l1 ++ l2 ∧
      candidate_walk fuel σ seq slot c =
        Ok (from_option SlotNext slot (last l1), cur') ∧
      is_seg (transactions σ) c l1 cur' ∧
      is_chain (transactions σ) cur' l2 ∧
      Forall (λ u, seq_of (transactions σ) u < seq) l1 ∧
      (∀ u, head l2 = Some u → seq ≤ seq_of (transactions σ) u).
Proof.
  induction l as [|t l IH]; intros fuel slot c Hc Hlen.
  - destruct fuel as [|n]; [simpl in Hlen; lia|].
    unfold is_chain in Hc. simpl in Hc. subst c.
    exists [], [], META_WAYLAND_TRANSACTION_NONE. by split_and!.
  - destruct fuel as [|n]; [simpl in Hlen; lia|].
    destruct Hc as (-> & r & Hr & Hc). cbn [candidate_walk].
    unfold transaction_of. rewrite Hr. cbn [deref mbind result_mbind result_bind].
    case_decide as Hlt.
    + destruct (IH n (SlotNext t) (next_candidate r) Hc)
        as (l1 & l2 & cur' & -> & Hw & Hseg & Hch & Hall & Hhd);
        [simpl in Hlen; lia|].
      exists (t :: l1), l2, cur'. split; [done|]. rewrite Hw. split.
      { f_equal. f_equal. rewrite last_cons. by destruct (last l1). }
      split; [split; [done|]; by exists r|]. split; [done|]. split; [|done].
      constructor; [|done]. unfold seq_of. by rewrite Hr.
    + exists [], (t :: l), (CandPtr t). split; [done|]. split; [done|].
      split; [done|]. split; [split; [done|]; by exists r|].
      split; [done|]. intros u Hu. simpl in Hu. simplify_eq.
      unfold seq_of. rewrite Hr. simpl. lia.
Qed.

Lemma nodup_live_length (tx : gmap Txn MetaWaylandTransaction) (l : list Txn) :
  NoDup l → (∀ t, t ∈ l → is_Some (tx !! t)) → (length l ≤ size tx)%nat.
Proof.
  intros Hnd Hlive. rewrite <- (size_list_to_set (C := gset positive) l Hnd).
  rewrite <- (size_dom (D := gset positive) tx). apply subseteq_size.
  intros t Ht. apply elem_of_list_to_set in Ht. by apply elem_of_dom, Hlive.
Qed.

Lemma chain_ok_live tx c l t : chain_ok tx c l → t ∈ l → is_Some (tx !! t).
Proof. intros [H _ _ _] Ht. by eapply is_seg_live. Qed.

Lemma chain_ok_length tx c l : chain_ok tx c l → (length l ≤ size tx)%nat.
Proof.
  intros H. apply nodup_live_length; [by destruct H|].
  intros t. by eapply chain_ok_live.
Qed.

(** On the chain or not: read off [next_candidate]. *)
Lemma chain_ok_member tx c l t r :
  chain_ok tx c l → tx !! t = Some r → t ∈ l ↔ next_candidate r ≠ CandNull.
Proof.
  intros [Hl Hn _ _] Hr. split.
  - intros Ht. by eapply is_seg_next_set.
  - intros Hne. destruct (decide (t ∈ l)); [done|]. by destruct Hne, (Hn t r).
Qed.

Lemma same_but_chain_refl σ : same_but_chain σ σ.
Proof. by split_and!. Qed.

Lemma same_but_chain_trans σ1 σ2 σ3 :
  same_but_chain σ1 σ2 → same_but_chain σ2 σ3 → same_but_chain σ1 σ3.
Proof.
  intros (? & ? & ? & ? & ?) (? & ? & ? & ? & ?). split_and!; congruence.
Qed.

Lemma same_but_chain_store σ t r c :
  transactions σ !! t = Some r →
  same_but_chain σ (store_transaction t (set_next_candidate c r) σ).
Proof. intros H. split_and!; try done. simpl. by apply txn_data_insert. Qed.

(** Insertion.  On a chain that is linked, ascending and duplicate
    free [ensure_next_candidate] returns, and the chain is so again: it is
    the old chain when the transaction was on it, and otherwise the old
    chain with the transaction put in before the first transaction whose
    sequence number is not lower.  Nothing but chain links changes. *)
Lemma ensure_next_candidate_spec t c σ l r :
  chain_ok (transactions σ) c l →
  transactions σ !! t = Some r →
  ∃ σ' c' l',
    ensure_next_candidate t c σ = Ok (σ', c') ∧
    chain_ok (transactions σ') c' l' ∧
    same_but_chain σ σ' ∧
    (t ∈ l → l' = l ∧ σ' = σ ∧ c' = c) ∧
    (t ∉ l →
     ∃ l1 l2, l = l1 ++ l2 ∧ l' = l1 ++ t :: l2 ∧
              Forall (λ u, seq_of (transactions σ) u < committed_sequence r) l1 ∧
              Forall (λ u, committed_sequence r ≤ seq_of (transactions σ) u) l2).
Proof.
  intros Hok Hr. unfold ensure_next_candidate, transaction_of.
  rewrite Hr. cbn [deref mbind result_mbind result_bind].
  pose proof (chain_ok_member _ _ _ _ _ Hok Hr) as Hmem.
  case_decide as Hnext.
  { exists σ, c, l. split; [done|]. split; [done|].
    split; [apply same_but_chain_refl|]. split; [done|].
    intros Hnin. by apply Hmem in Hnext. }
  assert (t ∉ l) as Hnin by (intros H; by apply Hmem in H).
  destruct Hok as [Hlink Hnull Hsorted Hnd].
  destruct (candidate_walk_spec σ (committed_sequence r) l
              (S (size (transactions σ))) SlotFirst c Hlink)
    as (l1 & l2 & cur' & -> & Hw & Hseg1 & Hseg2 & Hlt & Hhd).
  { pose proof (nodup_live_length (transactions σ) l Hnd) as Hlen.
    assert (∀ u, u ∈ l → is_Some (transactions σ !! u)) as Hlive
      by (intros u; by eapply is_seg_live).
    specialize (Hlen Hlive). lia. }
  rewrite Hw. cbn [mbind result_mbind result_bind].
  apply NoDup_app in Hnd as (Hnd1 & Hdisj & Hnd2).
  apply not_elem_of_app in Hnin as [Hn1 Hn2].
  assert (Forall (λ u, committed_sequence r ≤ seq_of (transactions σ) u) l2) as Hge.
  { destruct l2 as [|u l2]; [done|]. specialize (Hhd u eq_refl).
    apply StronglySorted_app_1_r, StronglySorted_inv in Hsorted as [_ Hall].
    constructor; [done|]. eapply Forall_impl; [done|]. simpl. intros. lia. }
  set (σ1 := store_transaction t (set_next_candidate cur' r) σ).
  assert (same_but_chain σ σ1) as Hsame1 by by apply same_but_chain_store.
  assert (chain_sorted (transactions σ) (l1 ++ t :: l2)) as Hsorted'.
  { apply StronglySorted_app in Hsorted as (H12 & Hs1 & Hs2).
    apply StronglySorted_app_2; [|done|].
    - intros a b Ha Hb. rewrite Forall_forall in Hlt, Hge.
      specialize (Hlt a Ha). apply elem_of_cons in Hb as [->|Hb].
      + unfold seq_of at 2. rewrite Hr. simpl. lia.
      + by apply H12.
    - constructor; [done|]. eapply Forall_impl; [done|]. intros b Hb.
      simpl in *. unfold seq_of at 1. rewrite Hr. done. }
  assert (NoDup (l1 ++ t :: l2)) as Hnd'.
  { apply NoDup_app. split_and!; [done| |].
    - intros u Hu Hu'. apply elem_of_cons in Hu' as [->|Hu']; [done|].
      by apply (Hdisj u).
    - by constructor. }
  destruct (last l1) as [p|] eqn:Elast; cbn [from_option].
  - apply last_Some in Elast as [l1' ->].
    assert (p ≠ t) as Hpt.
    { intros ->. apply Hn1, elem_of_app. right. left. }
    apply is_seg_app in Hseg1 as (m & Hseg1 & -> & rp & Hrp & Hnextp).
    simpl in Hnextp.
    unfold transaction_of. subst σ1. cbn [store_transaction set_transactions transactions].
    rewrite lookup_insert_ne by done. rewrite Hrp.
    cbn [deref mbind result_mbind result_bind].
    eexists _, c, ((l1' ++ [p]) ++ t :: l2). split; [done|].
    apply NoDup_app in Hnd1 as (Hnd1' & Hp1 & _).
    split; [|split; [|split; [intros Hin; by apply elem_of_app in Hin as [?|?]|]]].
    + cbn [transactions store_transaction set_transactions]. constructor.
      * unfold is_chain. rewrite <- app_assoc.
        apply is_seg_app. exists (CandPtr p). split.
        -- eapply is_seg_ext; [|exact Hseg1]. intros u Hu.
           rewrite !lookup_insert_ne; [done| |].
           ++ intros ->. apply Hn1, elem_of_app. by left.
           ++ intros ->. apply (Hp1 u Hu). left.
        -- simpl. split; [done|]. eexists. split; [apply lookup_insert_eq|].
           simpl. split; [done|]. eexists. split.
           { rewrite lookup_insert_ne by done. apply lookup_insert_eq. }
           simpl. eapply is_seg_ext; [|exact Hseg2]. intros u Hu.
           rewrite !lookup_insert_ne; [done| |].
           ++ by intros ->.
           ++ intros ->. apply (Hdisj u); [|done]. apply elem_of_app. right. left.
      * cbn [transactions]. intros u ru Hu Hnu.
        apply not_elem_of_app in Hnu as [Hnu1 Hnu2].
        apply not_elem_of_cons in Hnu2 as [Hut Hnu2].
        apply not_elem_of_app in Hnu1 as [Hnu1 Hup].
        apply not_elem_of_cons in Hup as [Hup _].
        rewrite !lookup_insert_ne in Hu by done.
        apply (Hnull u ru Hu). rewrite !not_elem_of_app, not_elem_of_cons.
        split_and!; try done. apply not_elem_of_nil.
      * eapply chain_sorted_data; [|exact Hsorted'].
        cbn [transactions]. rewrite txn_data_insert.
        -- by apply txn_data_insert.
        -- by rewrite lookup_insert_ne.
      * done.
    + eapply same_but_chain_trans; [exact Hsame1|].
      apply (same_but_chain_store (store_transaction t (set_next_candidate cur' r) σ)).
      simpl. by rewrite lookup_insert_ne.
    + intros _. exists (l1' ++ [p]), l2. by split_and!.
  - assert (l1 = []) as -> by (destruct l1; [done|]; by rewrite last_cons in Elast; destruct (last l1)).
    simpl in Hseg1. subst cur'.
    eexists σ1, (CandPtr t), (t :: l2). split; [done|].
    split; [|split; [done|split; [done|]]].
    + constructor.
      * subst σ1. cbn [store_transaction set_transactions transactions].
        split; [done|]. eexists. split; [apply lookup_insert_eq|]. simpl.
        eapply is_seg_ext; [|exact Hseg2]. intros u Hu.
        rewrite lookup_insert_ne; [done|]. by intros ->.
      * subst σ1. cbn [store_transaction set_transactions transactions].
        intros u ru Hu Hnu. apply not_elem_of_cons in Hnu as [Hut Hnu].
        rewrite lookup_insert_ne in Hu by done. by apply (Hnull u ru).
      * eapply chain_sorted_data; [|exact Hsorted'].
        subst σ1. by apply txn_data_insert.
      * done.
    + intros _. exists [], l2. by split_and!.
Qed.

Lemma chain_ok_inv tx c l :
  chain_ok tx c l →
  match c with
  | META_WAYLAND_TRANSACTION_NONE => l = []
  | CandNull => False
  | CandPtr t => ∃ l', l = t :: l'
  end.
Proof.
  intros [H _ _ _]. unfold is_chain in H.
  destruct l as [|u l]; simpl in H.
  - by subst c.
  - destruct H as [-> _]. by exists l.
Qed.

(** Dequeuing.  The head of the chain has the lowest sequence number
    on it; unlinking it leaves the rest a chain again. *)
Lemma chain_pop tx c u l :
  chain_ok tx c (u :: l) →
  ∃ r, c = CandPtr u ∧ tx !! u = Some r ∧
       chain_ok (<[u := set_next_candidate CandNull r]> tx) (next_candidate r) l ∧
       Forall (λ v, seq_of tx u ≤ seq_of tx v) l.
Proof.
  intros [Hl Hn Hs Hnd]. destruct Hl as (-> & r & Hr & Hl).
  apply NoDup_cons in Hnd as [Hu Hnd].
  apply StronglySorted_inv in Hs as [Hs Hall].
  exists r. split; [done|]. split; [done|]. split; [|done]. constructor.
  - eapply is_seg_ext; [|exact Hl]. intros v Hv.
    rewrite lookup_insert_ne; [done|]. by intros ->.
  - intros v rv Hv Hnv. destruct (decide (u = v)) as [->|Hne].
    + rewrite lookup_insert_eq in Hv. by simplify_eq.
    + rewrite lookup_insert_ne in Hv by done. apply (Hn v rv Hv).
      rewrite not_elem_of_cons. by split.
  - eapply chain_sorted_data; [|exact Hs]. by apply txn_data_insert.
  - done.
Qed.

(** Destroying a transaction that is not on the chain keeps the chain. *)
Lemma chain_ok_delete tx c l t :
  chain_ok tx c l → t ∉ l → chain_ok (delete t tx) c l.
Proof.
  intros [Hl Hn Hs Hnd] Ht. constructor.
  - eapply is_seg_ext; [|exact Hl]. intros v Hv.
    rewrite lookup_delete_ne; [done|]. by intros ->.
  - intros v rv Hv Hnv. apply lookup_delete_Some in Hv as [_ Hv]. by apply (Hn v rv).
  - unfold chain_sorted in *. clear Hl Hn.
    induction Hs as [|a l Hs IH Hall]; constructor.
    + apply IH; [by apply NoDup_cons in Hnd as [_ ?]|].
      rewrite not_elem_of_cons in Ht. tauto.
    + rewrite not_elem_of_cons in Ht. destruct Ht as [Hta Htl].
      apply Forall_forall. intros b Hb. rewrite Forall_forall in Hall.
      specialize (Hall b Hb). unfold seq_of in *.
      rewrite !lookup_delete_ne; [done| |]; [by intros ->|by intros ->].
  - done.
Qed.

End Chain.

(** ** Lists of pending transactions *)

Module Pending.

Lemma has_entry_spec tx s t :
  has_entry tx s t ↔ ∃ r, tx !! t = Some r ∧ is_Some (entries r !! s).
Proof.
  unfold has_entry. destruct (tx !! t) as [r|]; simpl.
  - split; [intros H; by exists r|]. by intros (r' & ? & H); simplify_eq.
  - split; [by intros [? ?]|]. by intros (? & ? & _).
Qed.

Lemma has_entry_data tx tx' s t :
  txn_data tx' = txn_data tx → has_entry tx' s t ↔ has_entry tx s t.
Proof.
  intros H. apply (f_equal (λ m, m !! t)) in H. unfold txn_data in H.
  rewrite !lookup_fmap in H. unfold has_entry.
  destruct (tx' !! t) as [r'|], (tx !! t) as [r|]; simpl in *; try done.
  assert (erase_next r' = erase_next r) as H' by congruence.
  apply Chain.erase_next_fields in H' as (-> & _). done.
Qed.

Lemma has_entry_delete tx s t u :
  u ≠ t → has_entry (delete t tx) s u ↔ has_entry tx s u.
Proof. intros H. unfold has_entry. by rewrite lookup_delete_ne. Qed.

Lemma node_next_split q1 t q2 : t ∉ q1 → node_next t (q1 ++ t :: q2) = q2.
Proof.
  induction q1 as [|u q1 IH]; intros H; simpl.
  - by rewrite decide_True.
  - apply not_elem_of_cons in H as [Hne H]. rewrite decide_False by done. by apply IH.
Qed.

Lemma head_last_singleton (l : list Txn) t :
  NoDup l → head l = Some t → last l = Some t → l = [t].
Proof.
  intros Hnd Hh Hl. destruct l as [|a l]; [done|]. simpl in Hh. simplify_eq.
  destruct l as [|b l]; [done|]. exfalso.
  apply NoDup_cons in Hnd as [Hn _]. apply Hn.
  rewrite last_cons_cons in Hl. by apply last_Some_elem_of.
Qed.

Lemma filter_split_head (P : Txn → Prop) `{!∀ u, Decision (P u)} q t rest :
  filter P q = t :: rest →
  ∃ q1 q2, q = q1 ++ t :: q2 ∧ filter P q1 = [] ∧ filter P q2 = rest ∧ P t.
Proof.
  induction q as [|u q IH]; intros Hf; [done|].
  rewrite filter_cons in Hf. destruct (decide (P u)) as [Hu|Hu].
  - simplify_eq. exists [], q. by split_and!.
  - destruct (IH Hf) as (q1 & q2 & -> & H1 & H2 & Ht).
    exists (u :: q1), q2. split_and!; try done.
    by rewrite filter_cons_False.
Qed.

(** The scan of [find_next_transaction_for_surface] finds the first of the
    later queued transactions that holds the surface. *)
Lemma find_next_loop_spec σ s nodes :
  (∀ u, u ∈ nodes → is_Some (transactions σ !! u)) →
  (∀ u, last_committed (surface_of σ s) = Some u → u ∈ nodes →
        has_entry (transactions σ) s u) →
  find_next_loop σ s nodes = Ok (head (filter (has_entry (transactions σ) s) nodes)).
Proof.
  induction nodes as [|u nodes IH]; intros Hlive Hlast; [done|].
  cbn [find_next_loop]. rewrite filter_cons. case_decide as Hl.
  - rewrite decide_True; [done|]. apply Hlast; [done|left].
  - destruct (Hlive u) as [r Hr]; [left|]. unfold transaction_of. rewrite Hr.
    cbn [deref mbind result_mbind result_bind].
    assert (has_entry (transactions σ) s u ↔ is_Some (entries r !! s)) as Hiff.
    { rewrite has_entry_spec. split; [intros (? & ? & ?); by simplify_eq|].
      intros H. by exists r. }
    destruct (decide (is_Some (entries r !! s))) as [He|He].
    + rewrite decide_True by by apply Hiff. done.
    + rewrite decide_False by by rewrite Hiff. apply IH.
      * intros v Hv. apply Hlive. by right.
      * intros v Hv Hin. apply Hlast; [done|by right].
Qed.

Lemma filter_filter_ne (P : Txn → Prop) `{!∀ u, Decision (P u)} (q : list Txn) t :
  filter (λ u, u ≠ t) (filter P q) = filter P (filter (λ u, u ≠ t) q).
Proof.
  induction q as [|u q IH]; [done|].
  rewrite !filter_cons. destruct (decide (P u)), (decide (u ≠ t));
    rewrite ?filter_cons, ?decide_True, ?decide_False by done; by rewrite ?IH.
Qed.

Lemma filter_ext_elem (P Q : Txn → Prop) `{!∀ u, Decision (P u)}
    `{!∀ u, Decision (Q u)} (q : list Txn) :
  (∀ u, u ∈ q → P u ↔ Q u) → filter P q = filter Q q.
Proof.
  induction q as [|u q IH]; intros HPQ; [done|].
  rewrite !filter_cons. destruct (decide (P u)) as [Hp|Hp].
  - rewrite decide_True by (apply HPQ; [left|done]). f_equal. apply IH.
    intros v Hv. apply HPQ. by right.
  - rewrite decide_False by (rewrite <- HPQ; [done|left]). apply IH.
    intros v Hv. apply HPQ. by right.
Qed.

Lemma filter_all (P : Txn → Prop) `{!∀ u, Decision (P u)} (q : list Txn) :
  Forall P q → filter P q = q.
Proof.
  induction 1 as [|u q Hu Hq IH]; [done|].
  rewrite filter_cons_True by done. by rewrite IH.
Qed.

End Pending.

(** ** The forest under updates of surfaces, and the sort *)

Module ForestUpdate.
Import Forest ForestFacts.

Lemma ancestors_loop_ext sf sf' n p :
  (∀ u, parent sf' u = parent sf u) →
  ancestors_loop sf' n p = ancestors_loop sf n p.
Proof.
  intros H. revert p. induction n as [|n IH]; intros p; [done|].
  simpl. destruct p as [a|]; [|done]. by rewrite H, IH.
Qed.

(** Writing a surface record with the same parent keeps the forest. *)
Lemma wf_forest_insert sf s r' :
  sub_parent r' = sub_parent (get_surface sf s) →
  wf_forest sf → wf_forest (<[s := r']> sf).
Proof.
  intros Hp Hwf u.
  assert (∀ v, parent (<[s := r']> sf) v = parent sf v) as Hpar.
  { intros v. unfold parent, get_surface. destruct (decide (s = v)) as [->|Hne].
    - by rewrite lookup_insert_eq.
    - by rewrite lookup_insert_ne. }
  destruct (Hwf u) as [l Hl]. exists l. unfold ancestors in *.
  rewrite Hpar, (ancestors_loop_ext sf _ _ _ Hpar).
  eapply ancestors_loop_mono; [done|]. unfold walk_bound.
  rewrite map_size_insert. destruct (sf !! s); simpl; lia.
Qed.

Lemma wf_forest_update s f σ :
  (∀ r, sub_parent (f r) = sub_parent r) →
  wf_forest (surfaces σ) → wf_forest (surfaces (update_surface s f σ)).
Proof. intros Hf. simpl. apply wf_forest_insert. apply Hf. Qed.

Lemma qsort_insert_total (cmp : Surface → Surface → option Z) a l :
  (∀ a b, is_Some (cmp a b)) →
  ∃ l', qsort_insert cmp a l = Some l' ∧ l' ≡ₚ a :: l.
Proof.
  intros Hc. induction l as [|b l (l' & IH & Hp)]; simpl.
  - by exists [a].
  - destruct (Hc a b) as [c ->]. simpl. case_decide.
    + by eexists.
    + rewrite IH. simpl. eexists. split; [done|]. rewrite Hp. apply Permutation_swap.
Qed.

(** With a callback that returns, the sort returns a permutation. *)
Lemma qsort_total (cmp : Surface → Surface → option Z) l :
  (∀ a b, is_Some (cmp a b)) → ∃ l', qsort cmp l = Some l' ∧ l' ≡ₚ l.
Proof.
  intros Hc. induction l as [|a l (l' & IH & Hp)]; simpl.
  - by exists [].
  - rewrite IH. simpl. destruct (qsort_insert_total cmp a l' Hc) as (l'' & -> & Hp').
    exists l''. split; [done|]. by rewrite Hp', Hp.
Qed.

Lemma compare_total sf a b :
  wf_forest sf → is_Some (meta_wayland_transaction_compare sf a b).
Proof.
  intros Hwf. unfold meta_wayland_transaction_compare. case_decide; [done|].
  destruct (is_ancestor_total sf Hwf a b) as [[] ->]; simpl; [done|].
  destruct (is_ancestor_total sf Hwf b a) as [[] ->]; simpl; [done|].
  destruct (get_toplevel_total sf Hwf a) as [ta ->].
  destruct (get_toplevel_total sf Hwf b) as [tb ->]. done.
Qed.

End ForestUpdate.

(** ** Applying one transaction *)

Module Apply.
Import Chain Pending.

Lemma erase_next_id r : next_candidate r = CandNull → erase_next r = r.
Proof. destruct r. simpl. by intros ->. Qed.

Lemma chain_of_update s f σ s' :
  chain_of (update_surface s f σ) s' =
    if decide (s = s')
    then (first_committed (f (surface_of σ s)), last_committed (f (surface_of σ s)))
    else chain_of σ s'.
Proof. unfold chain_of. rewrite surface_of_update. by case_decide. Qed.

Lemma pending_frame σ σ' s :
  committed_queue σ' = committed_queue σ →
  txn_data (transactions σ') = txn_data (transactions σ) →
  pending σ' s = pending σ s.
Proof.
  intros Hq Hd. unfold pending. rewrite Hq. apply filter_ext_elem.
  intros u _. by apply has_entry_data.
Qed.

Lemma applied_app tr1 tr2 : applied (tr1 ++ tr2) = applied tr1 ++ applied tr2.
Proof. apply omap_app. Qed.

Lemma loop_frame_refl σ : loop_frame σ σ.
Proof. by constructor. Qed.

Lemma loop_frame_trans σ1 σ2 σ3 :
  loop_frame σ1 σ2 → loop_frame σ2 σ3 → loop_frame σ1 σ3.
Proof.
  intros [? ? ? ? ?] [? ? ? ? ?]. constructor; try congruence. auto.
Qed.

Lemma loop_frame_same_but_chain σ σ' : same_but_chain σ σ' → loop_frame σ σ'.
Proof.
  intros (Hs & Hd & Hq & Hc & Ht). constructor; try done.
  - by rewrite Ht.
  - by rewrite Hs.
Qed.

Lemma loop_frame_update s f σ :
  (∀ r, sub_parent (f r) = sub_parent r) → loop_frame σ (update_surface s f σ).
Proof.
  intros Hf. constructor; try done. by apply ForestUpdate.wf_forest_update.
Qed.

Lemma loop_frame_emit ev σ :
  (∀ t, ev ≠ EvApply t) → loop_frame σ (emit ev σ).
Proof.
  intros Hev. constructor; try done. simpl. rewrite applied_app. simpl.
  destruct ev; try by rewrite app_nil_r. by destruct (Hev t).
Qed.

Lemma chains_during_frame t done σ σ' :
  loop_frame σ σ' → (∀ s, chain_of σ' s = chain_of σ s) →
  chains_during t done σ → chains_during t done σ'.
Proof.
  intros [Hq Hd _ _ _] Hc H s. rewrite Hc, (pending_frame σ σ') by done. apply H.
Qed.

(** The position and the state of one entry are applied: only the
    position fields of the surface and the trace change. *)
Lemma apply_entry_frame s e σ :
  let σ2 :=
    match state e with
    | Some st =>
        emit (EvApplyState s st)
          (meta_wayland_transaction_apply_subsurface_position s e σ)
    | None => meta_wayland_transaction_apply_subsurface_position s e σ
    end in
  loop_frame σ σ2 ∧ transactions σ2 = transactions σ ∧
  ∀ s', chain_of σ2 s' = chain_of σ s'.
Proof.
  intros σ2.
  assert (loop_frame σ (meta_wayland_transaction_apply_subsurface_position s e σ) ∧
          transactions (meta_wayland_transaction_apply_subsurface_position s e σ)
            = transactions σ ∧
          ∀ s', chain_of (meta_wayland_transaction_apply_subsurface_position s e σ) s'
                = chain_of σ s') as (H1 & H2 & H3).
  { unfold meta_wayland_transaction_apply_subsurface_position.
    destruct (has_sub_pos e); [|split_and!; [apply loop_frame_refl|done|done]].
    split_and!.
    - eapply loop_frame_trans;
        [by apply (loop_frame_update s (set_sub_pos (x e) (y e)))|].
      by apply loop_frame_emit.
    - done.
    - intros s'. unfold chain_of.
      change (surface_of (emit ?ev ?σ) s') with (surface_of σ s').
      rewrite surface_of_update. by case_decide; subst. }
  subst σ2. destruct (state e); [|done]. split_and!; try done.
  eapply loop_frame_trans; [exact H1|]. by apply loop_frame_emit.
Qed.

Lemma transactions_update s f σ :
  transactions (update_surface s f σ) = transactions σ.
Proof. done. Qed.

Lemma queue_committed_frame σ σ' :
  loop_frame σ σ' → queue_committed σ → queue_committed σ'.
Proof.
  intros [Hq Hd _ _ _] H t Ht. rewrite Hq in Ht. destruct (H t Ht) as (r & Hr & Hn).
  destruct (txn_data_lookup _ _ t r Hd Hr) as (r' & Hr' & He).
  exists r'. split; [done|]. apply erase_next_fields in He as (_ & -> & _). done.
Qed.

Lemma chains_during_cons t s done σ σ' p :
  (∀ s', chain_of σ' s' = if decide (s = s') then ends p else chain_of σ s') →
  (∀ s', pending σ' s' = pending σ s') →
  s ∉ done →
  p = filter (λ u, u ≠ t) (pending σ s) →
  chains_during t done σ → chains_during t (s :: done) σ'.
Proof.
  intros Hc Hp Hs -> H s'. rewrite Hc, Hp. case_decide as E.
  - subst s'. by rewrite decide_True by left.
  - rewrite H. destruct (decide (s' ∈ done)) as [Hin|Hnin].
    + by rewrite decide_True by (by right).
    + rewrite decide_False; [done|]. rewrite not_elem_of_cons. by split.
Qed.

(** One round of the first loop of apply, for a surface whose chain is
    headed by the transaction. *)
Lemma apply_surface_spec t r σ c l states done s e :
  NoDup (committed_queue σ) →
  queue_committed σ →
  chains_during t done σ →
  chain_ok (transactions σ) c l →
  (∀ u, u ∈ l → u ∈ committed_queue σ ∧ u ≠ t) →
  transactions σ !! t = Some r →
  s ∉ done →
  entries r !! s = Some e →
  first_committed (surface_of σ s) = Some t →
  ∃ σ' c' l',
    apply_surface t r (σ, c, states) s = Ok (σ', c', states ++ [state e]) ∧
    loop_frame σ σ' ∧
    chains_during t (s :: done) σ' ∧
    chain_ok (transactions σ') c' l' ∧
    (∀ u, u ∈ l' → u ∈ committed_queue σ' ∧ u ≠ t) ∧
    transactions σ' !! t = Some r ∧
    (∀ u, u ∈ l → u ∈ l').
Proof.
  intros Hnd Hcom Hch Hok Hl Ht Hs He Hfirst.
  unfold apply_surface, meta_wayland_transaction_get_entry. rewrite He.
  cbn [deref mbind result_mbind result_bind].
  destruct (apply_entry_frame s e σ) as (Hf2 & Htx2 & Hch2).
  set (σ2 := match state e with Some _ => _ | None => _ end) in *.
  pose proof (Hch s) as Hcs. rewrite decide_False in Hcs by done.
  assert (NoDup (pending σ s)) as Hndp by (by apply NoDup_filter).
  assert (head (pending σ s) = Some t) as Hhead.
  { unfold chain_of, ends in Hcs. congruence. }
  assert (last_committed (surface_of σ2 s) = last (pending σ s)) as Hlast.
  { pose proof (Hch2 s) as H2. unfold chain_of, ends in H2, Hcs. congruence. }
  assert (∀ s', pending σ2 s' = pending σ s') as Hp2.
  { intros s'. apply pending_frame; by destruct Hf2. }
  destruct (pending σ s) as [|t' rest] eqn:Ep; [done|]. simpl in Hhead. simplify_eq.
  case_decide as Hl2.
  - (* the chain of the surface ends here *)
    assert (rest = []) as ->.
    { rewrite Hl2 in Hlast. symmetry in Hlast.
      pose proof (head_last_singleton _ t Hndp eq_refl Hlast). by simplify_eq. }
    eexists _, c, l. split; [done|].
    assert (loop_frame σ (update_surface s (set_committed_chain None None) σ2)) as Hf.
    { eapply loop_frame_trans; [exact Hf2|]. by apply loop_frame_update. }
    rewrite !transactions_update, Htx2.
    split; [done|]. split; [|split; [done|split; [|split; [done|done]]]].
    + eapply (chains_during_cons t s done σ _ []); try done.
      * intros s'. rewrite chain_of_update. case_decide; [done|]. apply Hch2.
      * rewrite Ep. rewrite filter_cons_False; [done|]. by intros Hx.
    + intros u Hu. destruct Hf as [-> _ _ _ _]. by apply Hl.
  - (* a later transaction takes over *)
    assert (rest ≠ []) as Hrest.
    { intros ->. apply Hl2. by rewrite Hlast. }
    destruct (filter_split_head _ _ _ _ Ep) as (q1 & q2 & Eq & Hq1 & Hq2 & Hent).
    assert (t ∉ q1 ∧ t ∉ q2) as [Htq1 Htq2].
    { rewrite Eq in Hnd. apply NoDup_app in Hnd as (_ & Hd & Hnd).
      apply NoDup_cons in Hnd as [? _]. split; [|done].
      intros Hx. apply (Hd t Hx). left. }
    assert (committed_queue σ2 = committed_queue σ) as Hq2' by by destruct Hf2.
    assert (find_next_transaction_for_surface t s σ2 = Ok (head rest)) as Hfind.
    { unfold find_next_transaction_for_surface, transaction_of.
      rewrite Htx2, Ht. cbn [deref mbind result_mbind result_bind].
      rewrite Hq2', Eq. rewrite node_next_split by done.
      rewrite find_next_loop_spec; [by rewrite Htx2, Hq2| |].
      - intros u Hu. rewrite Htx2. destruct (Hcom u) as (ru & Hru & _); [|by eexists].
        rewrite Eq. apply elem_of_app. right. by right.
      - intros u Hu _. rewrite Htx2. rewrite Hlast in Hu.
        apply last_Some_elem_of in Hu. rewrite <- Ep in Hu.
        by apply list_elem_of_filter in Hu as [? _]. }
    rewrite Hfind. cbn [mbind result_mbind result_bind].
    destruct rest as [|next rest']; [done|]. cbn [head].
    assert (next ∈ committed_queue σ ∧ next ≠ t) as [Hnq Hnt].
    { assert (next ∈ q2) as Hn2.
      { assert (next ∈ filter (has_entry (transactions σ) s) q2) as Hx
          by (rewrite Hq2; left).
        by apply list_elem_of_filter in Hx as [_ ?]. }
      split; [rewrite Eq; apply elem_of_app; right; by right|]. by intros ->. }
    set (σ3 := update_surface s _ σ2).
    assert (loop_frame σ σ3) as Hf3.
    { eapply loop_frame_trans; [exact Hf2|]. by apply loop_frame_update. }
    destruct (Hcom next Hnq) as (rn & Hrn & _).
    assert (transactions σ3 = transactions σ) as Htx3 by done.
    destruct (ensure_next_candidate_spec next c σ3 l rn)
      as (σ4 & c' & l' & Hens & Hok4 & Hsame & Hin & Hnin);
      [by rewrite Htx3|by rewrite Htx3|].
    rewrite Hens. cbn [mbind result_mbind result_bind].
    assert (loop_frame σ σ4) as Hf4.
    { eapply loop_frame_trans; [exact Hf3|]. by apply loop_frame_same_but_chain. }
    assert (∀ u, u ∈ l' ↔ u = next ∨ u ∈ l) as Hl'.
    { intros u. destruct (decide (next ∈ l)) as [Hnl|Hnl].
      - destruct (Hin Hnl) as (-> & _). split; [by right|]. by intros [->|?].
      - destruct (Hnin Hnl) as (l1 & l2 & -> & -> & _).
        rewrite !elem_of_app, elem_of_cons. tauto. }
    exists σ4, c', l'. split; [done|]. split; [done|].
    split; [|split; [done|split; [|split]]].
    + eapply (chains_during_cons t s done σ _ (next :: rest')); try done.
      * intros s'. destruct Hsame as (Hsf & _). unfold chain_of, surface_of.
        rewrite Hsf. fold (surface_of σ3 s'). subst σ3.
        rewrite surface_of_update. case_decide as E.
        -- subst s'. cbn [set_committed_chain first_committed last_committed].
           unfold ends. f_equal. by rewrite Hlast.
        -- apply Hch2.
      * intros s'. apply pending_frame; by destruct Hf4.
      * rewrite Ep. rewrite filter_cons_False by (by intros Hx).
        symmetry. apply filter_all.
        apply Forall_forall. intros u Hu Heq. subst u.
        apply NoDup_cons in Hndp as [Hx _]. by apply Hx.
    + intros u Hu. destruct Hf4 as [-> _ _ _ _].
      apply Hl' in Hu as [->|Hu]; [done|]. by apply Hl.
    + destruct Hsame as (_ & Hd & _).
      destruct (txn_data_lookup _ _ t r Hd) as (r4 & Hr4 & He4);
        [by rewrite Htx3|].
      assert (t ∉ l') as Htl'.
      { intros Hx. apply Hl' in Hx as [?|Hx]; [done|]. by destruct (Hl t Hx). }
      assert (t ∉ l) as Htl by (intros Hx; by destruct (Hl t Hx)).
      pose proof (chain_rest_null _ _ _ Hok4 t r4 Hr4 Htl') as Hn4.
      pose proof (chain_rest_null _ _ _ Hok t r Ht Htl) as Hn.
      rewrite Hr4. f_equal.
      rewrite <- (erase_next_id r4 Hn4), <- (erase_next_id r Hn). done.
    + intros u Hu. apply Hl'. by right.
Qed.

(** The first loop of apply, over surfaces whose chains the transaction
    heads. *)
Lemma apply_surfaces_spec t r todo :
  ∀ σ c l states done,
    NoDup (committed_queue σ) →
    queue_committed σ →
    chains_during t done σ →
    chain_ok (transactions σ) c l →
    (∀ u, u ∈ l → u ∈ committed_queue σ ∧ u ≠ t) →
    transactions σ !! t = Some r →
    NoDup todo →
    (∀ s, s ∈ todo →
          s ∉ done ∧ is_Some (entries r !! s) ∧ head (pending σ s) = Some t) →
    ∃ σ' c' l' states' done',
      apply_surfaces t r (σ, c, states) todo = Ok (σ', c', states') ∧
      loop_frame σ σ' ∧
      chains_during t done' σ' ∧
      (∀ s, s ∈ done' ↔ s ∈ todo ∨ s ∈ done) ∧
      chain_ok (transactions σ') c' l' ∧
      (∀ u, u ∈ l' → u ∈ committed_queue σ' ∧ u ≠ t) ∧
      transactions σ' !! t = Some r ∧
      (∀ u, u ∈ l → u ∈ l').
Proof.
  induction todo as [|s todo IH];
    intros σ c l states done Hnd Hcom Hch Hok Hl Ht Hndt Htodo.
  { exists σ, c, l, states, done. split; [done|].
    split; [apply loop_frame_refl|]. split; [done|]. split; [|done].
    intros s. rewrite elem_of_nil. tauto. }
  apply NoDup_cons in Hndt as [Hs Hndt].
  destruct (Htodo s) as (Hsd & [e He] & Hhead); [left|].
  assert (first_committed (surface_of σ s) = Some t) as Hfirst.
  { pose proof (Hch s) as Hc. rewrite decide_False in Hc by done.
    unfold chain_of, ends in Hc. congruence. }
  destruct (apply_surface_spec t r σ c l states done s e)
    as (σ1 & c1 & l1 & Hrun & Hf1 & Hch1 & Hok1 & Hl1 & Ht1 & Hsub1); try done.
  cbn [apply_surfaces]. rewrite Hrun. cbn [mbind result_mbind result_bind].
  destruct (IH σ1 c1 l1 (states ++ [state e]) (s :: done))
    as (σ' & c' & l' & states' & done' & Hrun' & Hf' & Hch' & Hdone' & Hok' & Hl' & Ht' & Hsub');
    try done.
  { destruct Hf1 as [-> _ _ _ _]. done. }
  { by eapply queue_committed_frame. }
  { intros s' Hs'. destruct (Htodo s') as (Hsd' & He' & Hhead'); [by right|].
    split_and!; [|done|].
    - rewrite not_elem_of_cons. split; [|done]. by intros ->.
    - rewrite (pending_frame σ σ1); [done|by destruct Hf1|by destruct Hf1]. }
  exists σ', c', l', states', done'. split; [done|].
  split; [by eapply loop_frame_trans|]. split; [done|]. split.
  { intros s'. rewrite Hdone', !elem_of_cons. tauto. }
  split; [done|]. split; [done|]. split; [done|]. auto.
Qed.

Lemma sync_pass_frame sorted states σ :
  loop_frame σ (sync_child_states_pass sorted states σ) ∧
  surfaces (sync_child_states_pass sorted states σ) = surfaces σ ∧
  transactions (sync_child_states_pass sorted states σ) = transactions σ.
Proof.
  unfold sync_child_states_pass. generalize (reverse (zip sorted states)).
  intros ps. revert σ. induction ps as [|[s st] ps IH]; intros σ.
  { split_and!; [apply loop_frame_refl|done|done]. }
  cbn [foldl]. destruct st as [st|]; cbn [snd fst]; [|apply IH].
  destruct (IH (emit (EvSyncChildStates s) σ)) as (H1 & H2 & H3).
  split_and!; [|by rewrite H2|by rewrite H3].
  eapply loop_frame_trans; [|exact H1]. by apply loop_frame_emit.
Qed.

Lemma ready_spec σ t r :
  transactions σ !! t = Some r →
  ready σ t ↔ ∀ s, is_Some (entries r !! s) → first_committed (surface_of σ s) = Some t.
Proof.
  intros Hr. unfold ready, has_unapplied_dependencies, transaction_of.
  rewrite Hr. cbn [deref mbind result_mbind result_bind]. split.
  - intros H s Hs. injection H as H. apply not_true_iff_false in H.
    destruct (decide (first_committed (surface_of σ s) = Some t)) as [|Hne]; [done|].
    destruct H. apply existsb_exists. exists s. split.
    + by apply list_elem_of_In, elem_of_keys.
    + by apply bool_decide_eq_true.
  - intros H. f_equal. apply not_true_iff_false. rewrite existsb_exists.
    intros (s & Hs & Hne). apply bool_decide_eq_true in Hne. apply Hne, H.
    by apply elem_of_keys, list_elem_of_In.
Qed.

(** Applying a ready, queued transaction during a cascade: apply returns,
    the transaction has left the queue and the heap, the invariant of the
    engine holds again, the candidate chain is still a chain of queued
    transactions, and the trace has one more application. *)
Lemma apply_spec t c σ l r :
  engine_inv σ →
  chain_ok (transactions σ) c l →
  (∀ u, u ∈ l → u ∈ committed_queue σ ∧ u ≠ t) →
  transactions σ !! t = Some r →
  t ∈ committed_queue σ →
  ready σ t →
  ∃ σ' c' l',
    meta_wayland_transaction_apply t c σ = Ok (σ', c') ∧
    engine_inv σ' ∧
    chain_ok (transactions σ') c' l' ∧
    (∀ u, u ∈ l' → u ∈ committed_queue σ') ∧
    (∀ u, u ∈ l → u ∈ l') ∧
    committed_queue σ' = filter (λ u, u ≠ t) (committed_queue σ) ∧
    txn_data (transactions σ') = delete t (txn_data (transactions σ)) ∧
    committed_sequence_counter σ' = committed_sequence_counter σ ∧
    applied (trace σ') = applied (trace σ) ++ [t].
Proof.
  intros [Hnd Hcom Hchain Hwf] Hok Hl Ht Htq Hready.
  rewrite (ready_spec σ t r Ht) in Hready.
  unfold meta_wayland_transaction_apply, transaction_of.
  cbn [emit transactions surfaces]. rewrite Ht.
  cbn [deref mbind result_mbind result_bind].
  destruct (ForestUpdate.qsort_total
              (Forest.meta_wayland_transaction_compare (surfaces σ))
              (g_hash_table_get_keys_as_array (entries r)))
    as (sorted & -> & Hperm).
  { intros a b. by apply ForestUpdate.compare_total. }
  cbn [returns mbind result_mbind result_bind].
  set (σ0 := emit (EvApply t) σ).
  assert (∀ s, s ∈ sorted ↔ is_Some (entries r !! s)) as Hsorted.
  { intros s. by rewrite Hperm, elem_of_keys. }
  destruct (apply_surfaces_spec t r sorted σ0 c l [] [])
    as (σ1 & c' & l' & states & done' & Hrun & Hf1 & Hch1 & Hdone & Hok1 & Hl1 & Ht1 & Hsub);
    try done.
  { rewrite Hperm. apply keys_NoDup. }
  { intros s Hs. apply Hsorted in Hs. split_and!; [apply not_elem_of_nil|done|].
    pose proof (Hchain s) as Hc. unfold chain_of, ends in Hc.
    change (pending σ0 s) with (pending σ s). specialize (Hready s Hs). congruence. }
  rewrite Hrun. cbn [mbind result_mbind result_bind].
  destruct (sync_pass_frame sorted states σ1) as (Hf2 & Hsf2 & Htx2).
  set (σ2 := sync_child_states_pass sorted states σ1) in *.
  destruct (Hcom t Htq) as (r0 & Hr0 & Hnode). simplify_eq.
  rewrite (Teardown.free_Ok t σ2 r) by by rewrite Htx2.
  cbn [mbind result_mbind result_bind]. rewrite Hnode.
  assert (loop_frame σ0 σ2) as Hf by (by eapply loop_frame_trans).
  assert (committed_queue σ2 = committed_queue σ) as Hq by by destruct Hf.
  assert (txn_data (transactions σ1) = txn_data (transactions σ)) as Hd.
  { destruct Hf1 as [_ Hd _ _ _]. by rewrite Hd. }
  assert (∀ s, pending σ1 s = pending σ s) as Hp1.
  { intros s. change (pending σ s) with (pending σ0 s).
    apply pending_frame; by destruct Hf1. }
  assert (t ∉ l') as Htl' by (intros Hx; by destruct (Hl1 t Hx)).
  eexists _, c', l'. split; [done|]. cbn [transactions committed_queue
    committed_sequence_counter trace surfaces].
  rewrite Htx2, Hq. split; [|split_and!].
  - constructor; cbn [transactions committed_queue surfaces].
    + by apply NoDup_filter.
    + intros u Hu. cbn [committed_queue] in Hu.
      apply Teardown.g_queue_unlink_elem in Hu as [Hu Hne].
      destruct (Hcom u Hu) as (ru & Hru & Hn).
      destruct (txn_data_lookup _ _ u ru Hd Hru) as (ru' & Hru' & He).
      exists ru'. cbn [transactions]. rewrite lookup_delete_ne by done.
      split; [done|]. apply erase_next_fields in He as (_ & -> & _). done.
    + intros s.
      assert (chain_of {| surfaces := surfaces σ2;
                          transactions := delete t (transactions σ1);
                          committed_queue := g_queue_unlink (committed_queue σ) t;
                          committed_sequence_counter := committed_sequence_counter σ2;
                          trace := trace σ2 |} s = chain_of σ1 s) as ->.
      { unfold chain_of, surface_of. cbn [surfaces]. by rewrite Hsf2. }
      rewrite Hch1. f_equal.
      assert (pending {| surfaces := surfaces σ2;
                         transactions := delete t (transactions σ1);
                         committed_queue := g_queue_unlink (committed_queue σ) t;
                         committed_sequence_counter := committed_sequence_counter σ2;
                         trace := trace σ2 |} s
              = filter (λ u, u ≠ t) (pending σ1 s)) as ->.
      { rewrite Hp1. unfold pending, g_queue_unlink. cbn [transactions committed_queue].
        rewrite filter_filter_ne. apply filter_ext_elem. intros u Hu.
        apply list_elem_of_filter in Hu as [Hne _].
        rewrite has_entry_delete by done. by apply has_entry_data. }
      case_decide as Hin; [done|]. symmetry. apply filter_all, Forall_forall.
      intros u Hu ->. apply list_elem_of_filter in Hu as [Hent _].
      apply has_entry_spec in Hent as (rt & Hrt & Hs). simplify_eq.
      apply Hin, Hdone. left. by apply Hsorted.
    + rewrite Hsf2. destruct Hf1 as [_ _ _ _ Hw]. by apply Hw.
  - by apply chain_ok_delete.
  - intros u Hu. destruct (Hl1 u Hu) as [Hu1 Hne].
    apply Teardown.g_queue_unlink_elem. split; [|done]. destruct Hf1 as [Hq1 _ _ _ _].
    by rewrite Hq1 in Hu1.
  - done.
  - done.
  - rewrite <- Hd. unfold txn_data. by rewrite fmap_delete.
  - by destruct Hf.
  - destruct Hf2 as [_ _ _ -> _]. destruct Hf1 as [_ _ _ -> _].
    subst σ0. cbn [emit trace]. by rewrite applied_app.
Qed.

End Apply.

(** ** The cascade *)

Module Cascade.
Import Chain Pending Apply.

Lemma has_entry_txn_data tx s t : has_entry (txn_data tx) s t ↔ has_entry tx s t.
Proof.
  unfold has_entry, txn_data. rewrite lookup_fmap. by destruct (tx !! t).
Qed.

Lemma engine_inv_same_but_chain σ σ' :
  same_but_chain σ σ' → engine_inv σ → engine_inv σ'.
Proof.
  intros Hs [Hnd Hcom Hch Hwf].
  pose proof (loop_frame_same_but_chain _ _ Hs) as Hf.
  destruct Hs as (Hsf & Hd & Hq & _ & _). constructor.
  - by rewrite Hq.
  - by eapply queue_committed_frame.
  - intros s. rewrite (pending_frame σ σ') by done. rewrite <- Hch.
    unfold chain_of, surface_of. by rewrite Hsf.
  - by rewrite Hsf.
Qed.

Lemma order_inv_same_but_chain tx0 order σ σ' :
  same_but_chain σ σ' → order_inv tx0 order σ → order_inv tx0 order σ'.
Proof.
  intros (Hsf & Hd & Hq & _ & Htr) [H1 H2 H3 H4 H5 H6 H7]. constructor.
  - done.
  - by rewrite Hq.
  - intros u Hu. rewrite Hq, Htr. by apply H3.
  - intros u Hu. rewrite Htr in Hu. by apply H4.
  - intros u Hu s. rewrite Hq in Hu. rewrite <- (H5 u Hu s). by apply has_entry_data.
  - intros u Hu. rewrite Hd. by apply H6.
  - intros pre T2 post Ha. rewrite Htr in Ha. by eapply H7.
Qed.

Lemma nodup_subset_length (l q : list Txn) :
  NoDup l → (∀ u, u ∈ l → u ∈ q) → (length l ≤ length q)%nat.
Proof.
  intros Hnd Hsub. apply submseteq_length, NoDup_submseteq; done.
Qed.

Lemma filter_ne_length (q : list Txn) t :
  t ∈ q → (length (filter (λ u, u ≠ t) q) < length q)%nat.
Proof.
  induction q as [|u q IH]; intros Ht; [by apply elem_of_nil in Ht|].
  rewrite filter_cons. destruct (decide (u ≠ t)) as [Hne|He].
  - simpl. apply elem_of_cons in Ht as [->|Ht]; [done|]. specialize (IH Ht). lia.
  - simpl. pose proof (length_filter (λ u, u ≠ t) q). lia.
Qed.

(** In a list without duplicates, the order of two elements of a sublist
    is their order in the list. *)
Lemma precedes_sublist (l order : list Txn) a b :
  NoDup order → l `sublist_of` order → a ∈ l → b ∈ l →
  precedes order a b → precedes l a b.
Proof.
  intros Hnd Hsub Ha Hb (o1 & o2 & o3 & ->).
  apply NoDup_app in Hnd as (_ & Ho1 & Hnd).
  apply NoDup_cons in Hnd as [Ha' _].
  apply sublist_app_r in Hsub as (m1 & m2 & -> & Hs1 & Hs2).
  assert (a ∉ m1) as Ham1.
  { intros Hx. apply (Ho1 a); [by eapply elem_of_sublist|left]. }
  assert (b ∉ m1) as Hbm1.
  { intros Hx. apply (Ho1 b); [by eapply elem_of_sublist|].
    right. apply elem_of_app. right. left. }
  apply sublist_cons_r in Hs2 as [Hs2|(m2' & -> & Hs2)].
  { exfalso. apply elem_of_app in Ha as [?|Ha]; [done|].
    apply Ha'. by eapply elem_of_sublist. }
  assert (a ≠ b) as Hab.
  { intros ->. apply Ha', elem_of_app. right. left. }
  assert (b ∈ m2') as Hb2.
  { apply elem_of_app in Hb as [?|Hb]; [done|].
    apply elem_of_cons in Hb as [?|?]; [by subst|done]. }
  apply list_elem_of_split in Hb2 as (k2 & k3 & ->).
  by exists m1, k2, k3.
Qed.

Lemma head_elem (l : list Txn) h : head l = Some h → h ∈ l.
Proof. destruct l; intros; simplify_eq/=. left. Qed.

(** The step of the ordering argument.  A transaction whose readiness check passes is not
    preceded in the queue by a transaction that touches one of its
    surfaces. *)
Lemma ready_no_earlier σ t r s T1 :
  engine_inv σ → transactions σ !! t = Some r → ready σ t →
  precedes (committed_queue σ) T1 t →
  has_entry (transactions σ) s T1 → has_entry (transactions σ) s t → False.
Proof.
  intros [Hnd _ Hch _] Hr Hready (l1 & l2 & l3 & Eq) H1 Ht.
  rewrite (ready_spec σ t r Hr) in Hready.
  assert (first_committed (surface_of σ s) = Some t) as Hfirst.
  { apply Hready. apply has_entry_spec in Ht as (r' & ? & ?). by simplify_eq. }
  pose proof (Hch s) as Hc. unfold chain_of, ends in Hc.
  assert (head (pending σ s) = Some t) as Hhead by congruence.
  unfold pending in Hhead. rewrite Eq in Hhead, Hnd.
  rewrite filter_app, filter_cons_True in Hhead by done.
  apply NoDup_app in Hnd as (_ & Hd & Hnd).
  apply NoDup_cons in Hnd as [Hn _].
  assert (t ∈ filter (has_entry (transactions σ) s) l1 ++ [T1]) as Hin.
  { destruct (filter (has_entry (transactions σ) s) l1) as [|a f];
      simpl in *; simplify_eq; left. }
  apply elem_of_app in Hin as [Hin|Hin].
  - apply list_elem_of_filter in Hin as [_ Hin]. apply (Hd t Hin).
    right. apply elem_of_app. right. left.
  - apply list_elem_of_singleton in Hin as ->. apply Hn, elem_of_app. right. left.
Qed.

(** Applying a ready transaction keeps the relation to the commit order. *)
Lemma order_inv_apply tx0 order σ σ' t r :
  engine_inv σ → order_inv tx0 order σ →
  transactions σ !! t = Some r → t ∈ committed_queue σ → ready σ t →
  committed_queue σ' = filter (λ u, u ≠ t) (committed_queue σ) →
  txn_data (transactions σ') = delete t (txn_data (transactions σ)) →
  applied (trace σ') = applied (trace σ) ++ [t] →
  order_inv tx0 order σ'.
Proof.
  intros Hinv [H1 H2 H3 H4 H5 H6 H7] Hr Htq Hready Hq Hd Ha. constructor.
  - done.
  - rewrite Hq. etrans; [apply sublist_filter|done].
  - intros u Hu. rewrite Hq, Ha. destruct (decide (u = t)) as [->|Hne].
    + right. apply elem_of_app. right. left.
    + destruct (H3 u Hu) as [Hin|Hin].
      * left. by apply list_elem_of_filter.
      * right. apply elem_of_app. by left.
  - intros u Hu. rewrite Ha in Hu. apply elem_of_app in Hu as [Hu|Hu]; [by apply H4|].
    apply list_elem_of_singleton in Hu as ->. by eapply elem_of_sublist.
  - intros u Hu s. rewrite Hq in Hu. apply list_elem_of_filter in Hu as [Hne Hu].
    rewrite <- (H5 u Hu s).
    rewrite <- (has_entry_txn_data (transactions σ')),
            <- (has_entry_txn_data (transactions σ)), Hd.
    by apply has_entry_delete.
  - intros u Hu. rewrite Hd. rewrite lookup_delete_ne; [by apply H6|].
    intros ->. apply Hu. by eapply elem_of_sublist.
  - intros pre T2 post Hsplit T1 s Hprec He1 He2. rewrite Ha in Hsplit.
    destruct post as [|p post _] using rev_ind.
    + apply app_inj_tail in Hsplit as [Hpre Ht2]. subst pre T2.
      assert (T1 ∈ order) as Ho.
      { destruct Hprec as (l1 & l2 & l3 & ->). apply elem_of_app. right. left. }
      destruct (H3 T1 Ho) as [Hin|Hin]; [|done]. exfalso.
      apply (ready_no_earlier σ t r s T1); try done.
      * by apply (precedes_sublist _ order).
      * by apply H5.
      * by apply H5.
    + rewrite app_comm_cons, app_assoc in Hsplit.
      apply app_inj_tail in Hsplit as [Hsplit _]. by eapply H7.
Qed.

Lemma has_unapplied_dependencies_Ok σ t r :
  transactions σ !! t = Some r → ∃ b, has_unapplied_dependencies t σ = Ok b.
Proof.
  intros Hr. unfold has_unapplied_dependencies, transaction_of. rewrite Hr.
  by eexists.
Qed.

(** The rest of a round of the cascade, after [maybe_apply_one]: the next
    candidate is taken off the chain, or the cascade ends. *)
Lemma cascade_continue tx0 order n
    (IH : ∀ σ t c l,
        engine_inv σ → chain_ok (transactions σ) c l →
        (∀ u, u ∈ l → u ∈ committed_queue σ) → t ∉ l → t ∈ committed_queue σ →
        order_inv tx0 order σ →
        (cascade_measure (length (committed_queue σ)) (length l) < n)%nat →
        ∃ σ', maybe_apply_loop n t c σ = Ok σ' ∧ engine_inv σ' ∧ quiescent σ' ∧
              order_inv tx0 order σ' ∧
              committed_sequence_counter σ' = committed_sequence_counter σ)
    σ1 c1 l1 :
  engine_inv σ1 → chain_ok (transactions σ1) c1 l1 →
  (∀ u, u ∈ l1 → u ∈ committed_queue σ1) →
  order_inv tx0 order σ1 →
  (cascade_measure (length (committed_queue σ1)) (length l1) ≤ n)%nat →
  ∃ σ',
    match c1 with
    | META_WAYLAND_TRANSACTION_NONE => Ok σ1
    | CandNull => Fault
    | CandPtr t' =>
        r' ← transaction_of σ1 t';
        maybe_apply_loop n t' (next_candidate r')
          (store_transaction t' (set_next_candidate CandNull r') σ1)
    end = Ok σ' ∧
    engine_inv σ' ∧ quiescent σ' ∧ order_inv tx0 order σ' ∧
    committed_sequence_counter σ' = committed_sequence_counter σ1.
Proof.
  intros Hinv Hok Hl Hord Hm.
  pose proof (chain_ok_inv _ _ _ Hok) as Hc.
  destruct c1 as [| |u]; [done| |].
  - subst l1. exists σ1. by split_and!.
  - destruct Hc as [l' ->].
    destruct (chain_pop _ _ _ _ Hok) as (r' & _ & Hr' & Hok' & _).
    unfold transaction_of. rewrite Hr'. cbn [deref mbind result_mbind result_bind].
    pose proof (same_but_chain_store σ1 u r' CandNull Hr') as Hsame.
    destruct (IH (store_transaction u (set_next_candidate CandNull r') σ1)
                 u (next_candidate r') l') as (σ' & Hrun & ? & ? & ? & Hcnt).
    + by eapply engine_inv_same_but_chain.
    + done.
    + intros v Hv. apply Hl. by right.
    + destruct Hok as [_ _ _ Hnd]. by apply NoDup_cons in Hnd as [? _].
    + apply Hl. left.
    + by eapply order_inv_same_but_chain.
    + unfold cascade_measure in *. simpl in *. lia.
    + exists σ'. by split_and!.
Qed.

(** The cascade returns, and leaves the engine in order: no candidate is
    left, and no transaction was applied before an earlier one with which
    it shares a surface. *)
Lemma maybe_apply_loop_spec tx0 order n :
  ∀ σ t c l,
    engine_inv σ → chain_ok (transactions σ) c l →
    (∀ u, u ∈ l → u ∈ committed_queue σ) → t ∉ l → t ∈ committed_queue σ →
    order_inv tx0 order σ →
    (cascade_measure (length (committed_queue σ)) (length l) < n)%nat →
    ∃ σ', maybe_apply_loop n t c σ = Ok σ' ∧ engine_inv σ' ∧ quiescent σ' ∧
          order_inv tx0 order σ' ∧
          committed_sequence_counter σ' = committed_sequence_counter σ.
Proof.
  induction n as [|n IH]; intros σ t c l Hinv Hok Hl Htl Htq Hord Hm; [lia|].
  destruct (inv_committed σ Hinv t Htq) as (r & Hr & _).
  cbn [maybe_apply_loop]. unfold meta_wayland_transaction_maybe_apply_one.
  destruct (has_unapplied_dependencies_Ok σ t r Hr) as [b Hb]. rewrite Hb.
  cbn [mbind result_mbind result_bind]. destruct b.
  - (* not ready: skipped *)
    cbn [mbind result_mbind result_bind].
    apply (cascade_continue tx0 order n IH σ c l); try done. lia.
  - destruct (apply_spec t c σ l r) as
      (σ1 & c1 & l1 & Hrun & Hinv1 & Hok1 & Hl1 & _ & Hq1 & Hd1 & Hc1 & Ha1);
      try done.
    { intros u Hu. split; [by apply Hl|]. by intros ->. }
    rewrite Hrun. cbn [mbind result_mbind result_bind].
    destruct (cascade_continue tx0 order n IH σ1 c1 l1)
      as (σ' & Hrun' & ? & ? & ? & Hcnt); try done.
    + by apply (order_inv_apply tx0 order σ σ1 t r).
    + pose proof (filter_ne_length (committed_queue σ) t Htq) as Hlt.
      rewrite <- Hq1 in Hlt.
      pose proof (nodup_subset_length l1 (committed_queue σ1)
                    (chain_nodup _ _ _ Hok1) Hl1) as Hle.
      unfold cascade_measure in *. nia.
    + exists σ'. split_and!; try done. congruence.
Qed.

Lemma commit_surfaces_forest t l σ b :
  Forest.wf_forest (surfaces σ) →
  Forest.wf_forest (surfaces (foldl (commit_surface t) (σ, b) l).1).
Proof.
  revert σ b. induction l as [|s l IH]; intros σ b Hwf; [done|].
  cbn [foldl]. unfold commit_surface at 2.
  destruct (first_committed (surface_of σ s)); apply IH;
    by apply ForestUpdate.wf_forest_update.
Qed.

Lemma head_snoc (l : list Txn) t : head (l ++ [t]) = Some (default t (head l)).
Proof. by destruct l. Qed.

(** Registering a transaction that is not queued keeps the invariant of
    the engine. *)
Lemma commit_register_spec t σ r :
  engine_inv σ → quiescent σ →
  transactions σ !! t = Some r → t ∉ committed_queue σ →
  ∃ σ1 flag,
    commit_register t σ = Ok (σ1, flag) ∧
    engine_inv σ1 ∧ quiescent σ1 ∧
    committed_queue σ1 = committed_queue σ ++ [t] ∧
    trace σ1 = trace σ ∧
    transactions σ1 =
      <[t := set_committed ((committed_sequence_counter σ + 1) `mod` 2 ^ 64) r]>
        (transactions σ).
Proof.
  intros [Hnd Hcom Hch Hwf] Hquiet Hr Htq.
  unfold commit_register, transaction_of. rewrite Hr.
  cbn [deref mbind result_mbind result_bind].
  set (seq := (committed_sequence_counter σ + 1) `mod` 2 ^ 64).
  set (σ2 := set_committed_queue _ _).
  destruct (Commit.commit_surfaces_spec t (g_hash_table_get_keys_as_array (entries r))
              σ2 true (keys_NoDup _)) as (_ & Htx & Hq & _ & Htr & Hsf).
  pose proof (commit_surfaces_forest t (g_hash_table_get_keys_as_array (entries r))
                σ2 true Hwf) as Hwf1.
  destruct (foldl (commit_surface t) (σ2, true) _) as [σ1 flag] eqn:Efold.
  cbn [fst snd] in *.
  assert (transactions σ1 = <[t := set_committed seq r]> (transactions σ)) as Htx1
    by done.
  assert (committed_queue σ1 = committed_queue σ ++ [t]) as Hq1 by done.
  assert (∀ s u, u ≠ t →
            has_entry (transactions σ1) s u ↔ has_entry (transactions σ) s u) as Hent.
  { intros s u Hne. unfold has_entry. by rewrite Htx1, lookup_insert_ne. }
  assert (∀ s, has_entry (transactions σ1) s t ↔ is_Some (entries r !! s)) as Hentt.
  { intros s. unfold has_entry. by rewrite Htx1, lookup_insert_eq. }
  assert (∀ s, pending σ1 s =
               pending σ s ++ (if decide (is_Some (entries r !! s)) then [t] else []))
    as Hpend.
  { intros s. unfold pending. rewrite Hq1, filter_app. f_equal.
    - apply filter_ext_elem. intros u Hu. apply Hent. by intros ->.
    - rewrite filter_cons, filter_nil.
      destruct (decide (is_Some (entries r !! s))) as [He|He].
      + by rewrite decide_True by by apply Hentt.
      + by rewrite decide_False by by rewrite Hentt. }
  exists σ1, flag. split; [done|]. split; [|split; [|done]].
  - constructor.
    + rewrite Hq1. apply NoDup_app. split_and!; [done| |apply NoDup_singleton].
      intros u Hu Hu'. apply list_elem_of_singleton in Hu' as ->. done.
    + intros u Hu. rewrite Hq1 in Hu. rewrite Htx1.
      apply elem_of_app in Hu as [Hu|Hu].
      * destruct (Hcom u Hu) as (ru & Hru & Hn). exists ru.
        rewrite lookup_insert_ne; [done|]. by intros ->.
      * apply list_elem_of_singleton in Hu as ->. eexists.
        rewrite lookup_insert_eq. done.
    + intros s. rewrite Hpend. unfold chain_of. rewrite Hsf.
      pose proof (Hch s) as Hc. unfold chain_of, ends in Hc.
      change (surface_of σ2 s) with (surface_of σ s).
      destruct (decide (is_Some (entries r !! s))) as [He|He].
      * rewrite decide_True by by apply elem_of_keys.
        cbn [set_committed_chain first_committed last_committed].
        unfold ends. rewrite head_snoc, last_snoc. f_equal. f_equal. f_equal.
        congruence.
      * rewrite decide_False by by rewrite elem_of_keys.
        by rewrite app_nil_r.
    + done.
  - destruct Hquiet as [_ Hnull _ _]. constructor; [done| |constructor|constructor].
    intros u ru Hu _. rewrite Htx1 in Hu. destruct (decide (t = u)) as [->|Hne].
    + rewrite lookup_insert_eq in Hu. simplify_eq. simpl.
      apply (Hnull u r Hr). apply not_elem_of_nil.
    + rewrite lookup_insert_ne in Hu by done. apply (Hnull u ru Hu).
      apply not_elem_of_nil.
Qed.

Lemma precedes_snoc order t T1 T2 :
  T2 ∈ order → t ∉ order → precedes (order ++ [t]) T1 T2 → precedes order T1 T2.
Proof.
  intros H2 Ht (l1 & l2 & l3 & E).
  destruct l3 as [|p l3 _] using rev_ind.
  - exfalso.
    assert (order ++ [t] = (l1 ++ T1 :: l2) ++ [T2]) as E'
      by (rewrite E, <- app_assoc; done).
    apply app_inj_tail in E' as [_ <-]. done.
  - assert (order ++ [t] = (l1 ++ T1 :: l2 ++ T2 :: l3) ++ [p]) as E'.
    { rewrite E, <- app_assoc. simpl. by rewrite <- app_assoc. }
    apply app_inj_tail in E' as [-> _]. by exists l1, l2, l3.
Qed.

(** Committing a transaction that was built and not yet committed, with
    fuel for the cascade: commit returns, the engine is in order, and the
    commit order has the transaction at its end. *)
Lemma commit_spec tx0 order fuel t σ r :
  engine_inv σ → quiescent σ → order_inv tx0 order σ →
  transactions σ !! t = Some r → t ∉ order →
  (cascade_measure (S (length (committed_queue σ))) 0 < fuel)%nat →
  ∃ σ', meta_wayland_transaction_commit fuel t σ = Ok σ' ∧
        engine_inv σ' ∧ quiescent σ' ∧ order_inv tx0 (order ++ [t]) σ'.
Proof.
  intros Hinv Hquiet Hord Hr Hto Hfuel.
  assert (t ∉ committed_queue σ) as Htq.
  { intros Hx. apply Hto. eapply elem_of_sublist; [done|]. by destruct Hord. }
  destruct (commit_register_spec t σ r Hinv Hquiet Hr Htq)
    as (σ1 & flag & Hreg & Hinv1 & Hquiet1 & Hq1 & Htr1 & Htx1).
  unfold meta_wayland_transaction_commit. rewrite Hreg.
  cbn [mbind result_mbind result_bind].
  assert (order_inv tx0 (order ++ [t]) σ1) as Hord1.
  { destruct Hord as [H1 H2 H3 H4 H5 H6 H7]. constructor.
    - apply NoDup_app. split_and!; [done| |apply NoDup_singleton].
      intros u Hu Hu'. apply list_elem_of_singleton in Hu' as ->. done.
    - rewrite Hq1. by apply sublist_app.
    - intros u Hu. rewrite Hq1, Htr1. apply elem_of_app in Hu as [Hu|Hu].
      + destruct (H3 u Hu); [left; apply elem_of_app|]; auto.
      + left. apply elem_of_app. by right.
    - intros u Hu. rewrite Htr1 in Hu. apply elem_of_app. left. by apply H4.
    - intros u Hu s. rewrite Hq1 in Hu. apply elem_of_app in Hu as [Hu|Hu].
      + rewrite <- (H5 u Hu s). unfold has_entry. rewrite Htx1.
        rewrite lookup_insert_ne; [done|]. by intros ->.
      + apply list_elem_of_singleton in Hu as ->.
        rewrite <- (has_entry_txn_data tx0), <- (has_entry_txn_data (transactions σ1)).
        unfold has_entry. rewrite <- (H6 t Hto).
        unfold txn_data. rewrite Htx1, !lookup_fmap, lookup_insert_eq, Hr. done.
    - intros u Hu. rewrite not_elem_of_app in Hu. destruct Hu as [Hu Hut].
      rewrite <- (H6 u Hu). unfold txn_data. rewrite Htx1, !lookup_fmap.
      rewrite lookup_insert_ne; [done|]. intros ->. apply Hut. left.
    - intros pre T2 post Hsplit T1 s Hprec. rewrite Htr1 in Hsplit.
      eapply H7; [done|]. eapply precedes_snoc; [|done|done].
      apply H4. rewrite Hsplit. apply elem_of_app. right. left. }
  destruct flag; [|by exists σ1].
  unfold meta_wayland_transaction_maybe_apply.
  destruct (maybe_apply_loop_spec tx0 (order ++ [t]) fuel σ1 t
              META_WAYLAND_TRANSACTION_NONE [])
    as (σ' & Hrun & ? & ? & ? & _); try done.
  - intros u Hu. by apply elem_of_nil in Hu.
  - apply not_elem_of_nil.
  - rewrite Hq1. apply elem_of_app. right. left.
  - rewrite Hq1, length_app. simpl. by rewrite Nat.add_1_r.
  - by exists σ'.
Qed.

Lemma live_outside tx0 order σ t :
  order_inv tx0 order σ → t ∉ order → is_Some (tx0 !! t) →
  is_Some (transactions σ !! t).
Proof.
  intros Hord Ht [r0 Hr0]. pose proof (ord_outside _ _ _ Hord t Ht) as H.
  unfold txn_data in H. rewrite !lookup_fmap, Hr0 in H.
  destruct (transactions σ !! t); [done|discriminate H].
Qed.

Lemma commit_fuel_enough (q n : nat) fuel :
  (S q ≤ n)%nat → (commit_fuel n ≤ fuel)%nat → (cascade_measure (S q) 0 < fuel)%nat.
Proof. unfold commit_fuel, cascade_measure. nia. Qed.

(** A run of commits and of calls of the engine on queued transactions
    returns and keeps the engine in order. *)
Lemma run_steps_spec tx0 fuel steps :
  ∀ order σ,
    engine_inv σ → quiescent σ → order_inv tx0 order σ →
    NoDup (commits steps) →
    (∀ t, t ∈ commits steps → t ∉ order ∧ is_Some (tx0 !! t)) →
    (commit_fuel (length order + length (commits steps)) ≤ fuel)%nat →
    ∃ σ', run_steps fuel steps σ = Ok σ' ∧
          engine_inv σ' ∧ quiescent σ' ∧
          order_inv tx0 (order ++ commits steps) σ'.
Proof.
  induction steps as [|step steps IH];
    intros order σ Hinv Hquiet Hord Hnd Hts Hfuel.
  { exists σ. simpl. rewrite app_nil_r. by split_and!. }
  cbn [run_steps]. destruct step as [t|t].
  - (* a commit *)
    change (commits (DoCommit t :: steps)) with (t :: commits steps) in *.
    apply NoDup_cons in Hnd as [Htn Hnd].
    destruct (Hts t) as [Hto Hlive]; [left|].
    destruct (live_outside tx0 order σ t Hord Hto Hlive) as [r Hr].
    assert (length (committed_queue σ) ≤ length order)%nat as Hlen.
    { apply sublist_length. by destruct Hord. }
    destruct (commit_spec tx0 order fuel t σ r)
      as (σ1 & Hrun & Hinv1 & Hquiet1 & Hord1); try done.
    { eapply commit_fuel_enough; [|exact Hfuel]. simpl. lia. }
    cbn [run_step]. rewrite Hrun. cbn [mbind result_mbind result_bind].
    destruct (IH (order ++ [t]) σ1) as (σ' & Hrun' & ? & ? & Hord'); try done.
    + intros u Hu. destruct (Hts u) as [Huo Hul]; [by right|].
      split; [|done]. rewrite not_elem_of_app, list_elem_of_singleton.
      split; [done|]. by intros ->.
    + rewrite length_app. simpl in *.
      by replace (length order + 1 + length (commits steps))%nat
        with (length order + S (length (commits steps)))%nat by lia.
    + exists σ'. split; [done|]. split; [done|]. split; [done|].
      by rewrite <- app_assoc in Hord'.
  - (* a call of the engine *)
    assert (commits (DoMaybeApply t :: steps) = commits steps) as Ec by done.
    rewrite Ec in *. cbn [run_step].
    assert (∃ σ1, (if decide (t ∈ committed_queue σ)
                   then meta_wayland_transaction_maybe_apply fuel t σ
                   else Ok σ) = Ok σ1 ∧
                  engine_inv σ1 ∧ quiescent σ1 ∧ order_inv tx0 order σ1)
      as (σ1 & Hrun & Hinv1 & Hquiet1 & Hord1).
    { case_decide as Htq; [|by exists σ].
      unfold meta_wayland_transaction_maybe_apply.
      destruct (maybe_apply_loop_spec tx0 order fuel σ t
                  META_WAYLAND_TRANSACTION_NONE [])
        as (σ1 & Hrun & ? & ? & ? & _); try done.
      - intros u Hu. by apply elem_of_nil in Hu.
      - apply not_elem_of_nil.
      - assert (length (committed_queue σ) ≤ length order)%nat as Hlen.
        { apply sublist_length. by destruct Hord. }
        unfold commit_fuel, cascade_measure in *. simpl. nia.
      - by exists σ1. }
    rewrite Hrun. cbn [mbind result_mbind result_bind].
    destruct (IH order σ1) as (σ' & Hrun' & ? & ? & Hord'); try done.
    by exists σ'.
Qed.

Lemma order_inv_init σ :
  engine_inv σ → applied (trace σ) = [] →
  order_inv (transactions σ) (committed_queue σ) σ.
Proof.
  intros [Hnd _ _ _] Ha. constructor; try done.
  - by left.
  - intros u Hu. rewrite Ha in Hu. by apply elem_of_nil in Hu.
  - intros pre T2 post Hsplit. rewrite Ha in Hsplit. by destruct pre.
Qed.

(** C1.  Start from any state in which the engine is in order and no
    cascade is running (transactions may be waiting in the queue), with
    nothing applied in the trace so far.  Drive the engine with commits
    of built, not yet committed transactions, each once, and with calls
    of the engine on queued transactions, with enough fuel for the
    cascades.  The run returns, and in its trace: whenever two
    transactions share a surface and the first was committed before the
    second (it stands before it in the queue of the start followed by
    the commits of the run), every application of the second is preceded
    by an application of the first. *)
Theorem apply_respects_commit_order (fuel : nat) (steps : list EngineStep)
    (σ0 : Compositor) :
  engine_inv σ0 →
  quiescent σ0 →
  applied (trace σ0) = [] →
  NoDup (commits steps) →
  (∀ t, t ∈ commits steps →
        t ∉ committed_queue σ0 ∧ is_Some (transactions σ0 !! t)) →
  (commit_fuel (length (committed_queue σ0) + length (commits steps)) ≤ fuel)%nat →
  ∃ σ',
    run_steps fuel steps σ0 = Ok σ' ∧
    ∀ T1 T2 s,
      precedes (committed_queue σ0 ++ commits steps) T1 T2 →
      has_entry (transactions σ0) s T1 →
      has_entry (transactions σ0) s T2 →
      ∀ pre post, applied (trace σ') = pre ++ T2 :: post → T1 ∈ pre.
Proof.
  intros Hinv Hquiet Ha Hnd Hts Hfuel.
  destruct (run_steps_spec (transactions σ0) fuel steps (committed_queue σ0) σ0)
    as (σ' & Hrun & _ & _ & Hord); try done.
  { by apply order_inv_init. }
  exists σ'. split; [done|]. intros T1 T2 s Hprec H1 H2 pre post Hsplit.
  by eapply (ord_applied _ _ _ Hord).
Qed.

Lemma filter_none (P : Txn → Prop) `{!∀ u, Decision (P u)} (q : list Txn) :
  (∀ u, u ∈ q → ¬ P u) → filter P q = [].
Proof.
  induction q as [|u q IH]; intros Hq; [done|].
  rewrite filter_cons_False by (apply Hq; left). apply IH.
  intros v Hv. apply Hq. by right.
Qed.

Lemma blocked3_entries s t :
  has_entry (transactions Examples3.blocked3) s t → s = 11%positive ∨ s = 12%positive.
Proof.
  intros (r & Hr & [e He])%has_entry_spec. simpl in Hr.
  repeat (apply lookup_insert_Some in Hr as [[<- <-]|[_ Hr]];
          [simpl in He;
           repeat (apply lookup_insert_Some in He as [[<- _]|[_ He]]; [tauto|]);
           by rewrite lookup_empty in He|]).
  by rewrite lookup_empty in Hr.
Qed.

Lemma blocked3_inv : engine_inv Examples3.blocked3.
Proof.
  constructor.
  - apply (bool_decide_unpack _). by vm_compute.
  - intros t Ht. simpl in Ht.
    repeat (apply elem_of_cons in Ht as [->|Ht]; [eexists; split; reflexivity|]).
    by apply elem_of_nil in Ht.
  - intros s.
    destruct (decide (s = 11%positive)) as [->|H11]; [by vm_compute|].
    destruct (decide (s = 12%positive)) as [->|H12]; [by vm_compute|].
    unfold pending. rewrite filter_none.
    + unfold chain_of, surface_of, get_surface. simpl.
      by rewrite !lookup_insert_ne, lookup_empty.
    + intros u _ Hu. apply blocked3_entries in Hu. tauto.
  - apply ForestFacts.wf_forestb_spec. by vm_compute.
Qed.

Lemma blocked3_quiescent : quiescent Examples3.blocked3.
Proof.
  constructor; [done| |constructor|constructor].
  assert (map_Forall (λ _ r, next_candidate r = CandNull)
            (transactions Examples3.blocked3)) as H
    by (apply (bool_decide_unpack _); by vm_compute).
  intros t r Hr _. by apply (H t r).
Qed.

(** C1 (witness): the run [run3] from [blocked3]; it applies 7, 8, 9 and
    10, in this order. *)
Lemma apply_respects_commit_order_witness :
  ∃ σ',
    run_steps 21 Examples3.run3 Examples3.blocked3 = Ok σ' ∧
    ∀ T1 T2 s,
      precedes (committed_queue Examples3.blocked3 ++ commits Examples3.run3) T1 T2 →
      has_entry (transactions Examples3.blocked3) s T1 →
      has_entry (transactions Examples3.blocked3) s T2 →
      ∀ pre post, applied (trace σ') = pre ++ T2 :: post → T1 ∈ pre.
Proof.
  apply (apply_respects_commit_order 21 Examples3.run3 Examples3.blocked3).
  - exact blocked3_inv.
  - exact blocked3_quiescent.
  - reflexivity.
  - apply (bool_decide_unpack _). by vm_compute.
  - intros t Ht. simpl in Ht. apply list_elem_of_singleton in Ht as ->.
    split; [|by eexists]. simpl. intros Hx.
    repeat (apply elem_of_cons in Hx as [Hx|Hx]; [discriminate Hx|]).
    by apply elem_of_nil in Hx.
  - vm_compute. lia.
Defined.

Example run3_applied :
  ∃ σ', run_steps 21 Examples3.run3 Examples3.blocked3 = Ok σ' ∧
        applied (trace σ') = [7; 8; 9; 10]%positive ∧ committed_queue σ' = [].
Proof. eexists. split; [by vm_compute|]. by split. Qed.

End Cascade.

(** ** The candidate chain during a cascade *)

Module CandidateChain.
Import Chain Pending Apply Cascade.

(** What holds at a loop head of a cascade. *)
Definition head_ok (σ : Compositor) (t : Txn) (c : Candidate) (l : list Txn) : Prop :=
  engine_inv σ ∧ chain_ok (transactions σ) c l ∧
  (∀ u, u ∈ l → u ∈ committed_queue σ) ∧ t ∉ l ∧ t ∈ committed_queue σ.

(** One round: the transaction is skipped or applied, and the chain is a
    chain of queued transactions afterwards. *)
Lemma round_spec σ t c l :
  head_ok σ t c l →
  ∃ σ1 c1 l1,
    meta_wayland_transaction_maybe_apply_one t c σ = Ok (σ1, c1) ∧
    engine_inv σ1 ∧ chain_ok (transactions σ1) c1 l1 ∧
    (∀ u, u ∈ l1 → u ∈ committed_queue σ1).
Proof.
  intros (Hinv & Hok & Hl & Htl & Htq).
  destruct (inv_committed σ Hinv t Htq) as (r & Hr & _).
  unfold meta_wayland_transaction_maybe_apply_one.
  destruct (has_unapplied_dependencies_Ok σ t r Hr) as [b Hb]. rewrite Hb.
  cbn [mbind result_mbind result_bind]. destruct b.
  - by exists σ, c, l.
  - destruct (apply_spec t c σ l r) as
      (σ1 & c1 & l1 & Hrun & Hinv1 & Hok1 & Hl1 & _); try done.
    { intros u Hu. split; [by apply Hl|]. by intros ->. }
    by exists σ1, c1, l1.
Qed.

Lemma cascade_head_ok σ0 t0 σ t c :
  engine_inv σ0 → quiescent σ0 → t0 ∈ committed_queue σ0 →
  cascade_head σ0 t0 σ t c → ∃ l, head_ok σ t c l.
Proof.
  intros Hinv0 Hquiet0 Ht0. induction 1 as [|σ t c σ1 t' r' Hhead [l IH] Hrun Hr'].
  { exists []. split_and!; try done.
    - intros u Hu. by apply elem_of_nil in Hu.
    - apply not_elem_of_nil. }
  destruct (round_spec σ t c l IH) as (σ1' & c1 & l1 & Hrun' & Hinv1 & Hok1 & Hl1).
  rewrite Hrun in Hrun'. simplify_eq.
  destruct (chain_ok_inv _ _ _ Hok1) as [l' ->].
  destruct (chain_pop _ _ _ _ Hok1) as (r'' & _ & Hr'' & Hok' & _). simplify_eq.
  exists l'. split_and!.
  - eapply engine_inv_same_but_chain; [|done]. by apply same_but_chain_store.
  - done.
  - intros u Hu. apply Hl1. by right.
  - destruct Hok1 as [_ _ _ Hnd]. by apply NoDup_cons in Hnd as [? _].
  - apply Hl1. left.
Qed.

(** C6.  In a cascade started on a queued transaction, in a state in
    which the engine is in order and no cascade is running: at every
    loop head and after every surface of the first loop of apply the
    candidate chain is linked from [first_candidate] to the sentinel,
    ascends by [committed_sequence] and holds no transaction twice; the
    candidate a round hands to the next round is the head of the chain
    and has the lowest sequence number on it; and an insertion at such a
    point returns the chain as it was when the transaction is on it, and
    otherwise the chain with the transaction put in, ascending and
    without duplicates again. *)
Theorem candidate_chain_sorted (σ0 : Compositor) (t0 : Txn) :
  engine_inv σ0 →
  quiescent σ0 →
  t0 ∈ committed_queue σ0 →
  (∀ σ c, chain_point σ0 t0 σ c →
     ∃ l, is_chain (transactions σ) c l ∧ chain_sorted (transactions σ) l ∧ NoDup l ∧
          ∀ next r, transactions σ !! next = Some r →
            ∃ σ' c' l',
              ensure_next_candidate next c σ = Ok (σ', c') ∧
              is_chain (transactions σ') c' l' ∧
              chain_sorted (transactions σ') l' ∧ NoDup l' ∧
              (next ∈ l → l' = l) ∧
              (next ∉ l → ∃ l1 l2, l = l1 ++ l2 ∧ l' = l1 ++ next :: l2)) ∧
  (∀ σ t c σ1 u,
     cascade_head σ0 t0 σ t c →
     meta_wayland_transaction_maybe_apply_one t c σ = Ok (σ1, CandPtr u) →
     ∃ l', is_chain (transactions σ1) (CandPtr u) (u :: l') ∧
           Forall (λ v, seq_of (transactions σ1) u ≤ seq_of (transactions σ1) v) l').
Proof.
  intros Hinv0 Hquiet0 Ht0. split.
  - intros σ c Hpoint.
    assert (∃ l, chain_ok (transactions σ) c l) as [l Hok].
    { destruct Hpoint as [σ t c Hhead|σ t c r pre post σ1 c1 states Hhead Hready Hr Hsort Hrun].
      - destruct (cascade_head_ok _ _ _ _ _ Hinv0 Hquiet0 Ht0 Hhead)
          as (l & _ & Hok & _). by exists l.
      - destruct (cascade_head_ok _ _ _ _ _ Hinv0 Hquiet0 Ht0 Hhead)
          as (l & [Hnd Hcom Hchain Hwf] & Hok & Hl & Htl & Htq).
        destruct (ForestUpdate.qsort_total
                    (Forest.meta_wayland_transaction_compare (surfaces σ))
                    (g_hash_table_get_keys_as_array (entries r)))
          as (sorted & Hsort' & Hperm).
        { intros a b. by apply ForestUpdate.compare_total. }
        rewrite Hsort in Hsort'. simplify_eq.
        assert (NoDup (pre ++ post)) as Hndp by (rewrite Hperm; apply keys_NoDup).
        apply NoDup_app in Hndp as (Hndpre & _ & _).
        rewrite (ready_spec σ t r Hr) in Hready.
        destruct (apply_surfaces_spec t r pre (emit (EvApply t) σ) c l [] [])
          as (σ' & c' & l' & states' & done' & Hrun' & _ & _ & _ & Hok' & _);
          try done.
        { intros u Hu. split; [by apply Hl|]. by intros ->. }
        { intros s Hs.
          assert (is_Some (entries r !! s)) as He.
          { apply elem_of_keys. rewrite <- Hperm. apply elem_of_app. by left. }
          split_and!; [apply not_elem_of_nil|done|].
          pose proof (Hchain s) as Hc. unfold chain_of, ends in Hc.
          change (pending (emit (EvApply t) σ) s) with (pending σ s).
          specialize (Hready s He). congruence. }
        rewrite Hrun in Hrun'. simplify_eq. by exists l'. }
    exists l. destruct Hok as [H1 H2 H3 H4]. split_and!; try done.
    intros next r Hr.
    destruct (ensure_next_candidate_spec next c σ l r)
      as (σ' & c' & l' & Hens & [? ? ? ?] & _ & Hin & Hnin); try done.
    exists σ', c', l'. split_and!; try done.
    + intros Hx. by destruct (Hin Hx).
    + intros Hx. destruct (Hnin Hx) as (l1 & l2 & ? & ? & _). by exists l1, l2.
  - intros σ t c σ1 u Hhead Hrun.
    destruct (cascade_head_ok _ _ _ _ _ Hinv0 Hquiet0 Ht0 Hhead) as [l Hhok].
    destruct (round_spec σ t c l Hhok) as (σ1' & c1 & l1 & Hrun' & _ & Hok1 & _).
    rewrite Hrun in Hrun'. simplify_eq.
    destruct (chain_ok_inv _ _ _ Hok1) as [l' ->].
    destruct (chain_pop _ _ _ _ Hok1) as (r' & _ & _ & _ & Hmin).
    exists l'. split; [by destruct Hok1|done].
Qed.

Lemma candidate_chain_sorted_witness :
  (∀ σ c, chain_point Examples3.blocked3 7%positive σ c →
     ∃ l, is_chain (transactions σ) c l ∧ chain_sorted (transactions σ) l ∧ NoDup l ∧
          ∀ next r, transactions σ !! next = Some r →
            ∃ σ' c' l',
              ensure_next_candidate next c σ = Ok (σ', c') ∧
              is_chain (transactions σ') c' l' ∧
              chain_sorted (transactions σ') l' ∧ NoDup l' ∧
              (next ∈ l → l' = l) ∧
              (next ∉ l → ∃ l1 l2, l = l1 ++ l2 ∧ l' = l1 ++ next :: l2)) ∧
  (∀ σ t c σ1 u,
     cascade_head Examples3.blocked3 7%positive σ t c →
     meta_wayland_transaction_maybe_apply_one t c σ = Ok (σ1, CandPtr u) →
     ∃ l', is_chain (transactions σ1) (CandPtr u) (u :: l') ∧
           Forall (λ v, seq_of (transactions σ1) u ≤ seq_of (transactions σ1) v) l').
Proof.
  apply (candidate_chain_sorted Examples3.blocked3 7%positive).
  - exact blocked3_inv.
  - exact blocked3_quiescent.
  - apply (bool_decide_unpack _). by vm_compute.
Defined.

(** The cascade started on transaction 7 of [blocked3]: the round that
    applies 7 hands over 8, the only candidate, and the round that
    applies 8 hands over 9. *)
Example blocked3_rounds :
  ∃ σ1 σ2 r8,
    meta_wayland_transaction_maybe_apply_one 7%positive META_WAYLAND_TRANSACTION_NONE
      Examples3.blocked3 = Ok (σ1, CandPtr 8%positive) ∧
    transactions σ1 !! 8%positive = Some r8 ∧
    next_candidate r8 = META_WAYLAND_TRANSACTION_NONE ∧
    meta_wayland_transaction_maybe_apply_one 8%positive (next_candidate r8)
      (store_transaction 8%positive (set_next_candidate CandNull r8) σ1)
      = Ok (σ2, CandPtr 9%positive).
Proof.
  eexists _, _, _. split_and!.
  - vm_compute. reflexivity.
  - vm_compute. reflexivity.
  - reflexivity.
  - vm_compute. reflexivity.
Qed.

End CandidateChain.

(** ** Ancestry as an order *)

Module ForestOrder.
Import Forest ForestFacts.

(** X1.  In a well-formed forest [is_ancestor] returns for every pair of
    surfaces, and what it answers is a strict order that contains the
    parent relation: no surface is its own ancestor, the parent of a
    surface is an ancestor of it, and an ancestor of an ancestor is an
    ancestor. *)
Theorem is_ancestor_strict_order (sf : gmap Surface MetaWaylandSurface) :
  wf_forest sf →
  (∀ a b, ∃ answer, is_ancestor sf a b = Some answer) ∧
  (∀ a, is_ancestor sf a a = Some false) ∧
  (∀ a b, parent sf b = Some a → is_ancestor sf a b = Some true) ∧
  (∀ a b c, is_ancestor sf a b = Some true → is_ancestor sf b c = Some true →
            is_ancestor sf a c = Some true).
Proof.
  intros Hwf. split_and!.
  - intros a b. destruct (Hwf b) as [l Hl]. eexists. by apply is_ancestor_spec.
  - intros a. destruct (is_ancestor_total sf Hwf a a) as [[] H]; [|done].
    pose proof (is_ancestor_asym sf Hwf a a H). congruence.
  - intros a b Hp. unfold is_ancestor, walk_bound. rewrite Hp. simpl.
    by rewrite decide_True.
  - intros a b c Hab Hbc.
    destruct (is_ancestor_true_inv sf Hwf a b Hab) as (la & l2 & Ha & Hb).
    destruct (is_ancestor_true_inv sf Hwf b c Hbc) as (lb & l1 & Hb' & Hc).
    rewrite Hb in Hb'. simplify_eq.
    rewrite (is_ancestor_spec sf a c _ Hc). f_equal.
    apply bool_decide_eq_true. set_solver.
Qed.

Lemma is_ancestor_strict_order_witness :
  (∀ a b, ∃ answer, is_ancestor Examples.forest4 a b = Some answer) ∧
  (∀ a, is_ancestor Examples.forest4 a a = Some false) ∧
  (∀ a b, parent Examples.forest4 b = Some a →
          is_ancestor Examples.forest4 a b = Some true) ∧
  (∀ a b c, is_ancestor Examples.forest4 a b = Some true →
            is_ancestor Examples.forest4 b c = Some true →
            is_ancestor Examples.forest4 a c = Some true).
Proof.
  apply (is_ancestor_strict_order Examples.forest4).
  apply wf_forestb_spec. reflexivity.
Defined.

End ForestOrder.

(** ** Building transactions: positions and pending state *)

Module Builder.

Lemma ensure_entry_fields r s :
  let r1 := (meta_wayland_transaction_ensure_entry r s).1 in
  node_data r1 = node_data r ∧ next_candidate r1 = next_candidate r ∧
  committed_sequence r1 = committed_sequence r ∧
  (meta_wayland_transaction_ensure_entry r s).2 = default entry_new0 (entries r !! s) ∧
  <[s := (meta_wayland_transaction_ensure_entry r s).2]> (entries r) = entries r1.
Proof.
  unfold meta_wayland_transaction_ensure_entry, meta_wayland_transaction_get_entry.
  destruct (entries r !! s) as [e|] eqn:He; simpl; split_and!; try done.
  by rewrite insert_id.
Qed.

(** X2.  [meta_wayland_transaction_add_subsurface_position] on a
    transaction that is not live is a fault.  On a live one it returns;
    the entry of the surface then holds the position with [has_sub_pos]
    set and the state it held before (none if there was no entry); every
    other entry, the other fields of the transaction, every other
    transaction, the surfaces, the queue, the counter and the trace are
    as before. *)
Theorem add_subsurface_position_sets_entry (t : Txn) (s : Surface) (px py : Z)
    (σ : Compositor) :
  match transactions σ !! t with
  | None => meta_wayland_transaction_add_subsurface_position t s px py σ = Fault
  | Some r =>
      ∃ σ' r',
        meta_wayland_transaction_add_subsurface_position t s px py σ = Ok σ' ∧
        transactions σ' = <[t := r']> (transactions σ) ∧
        entries r' !! s =
          Some {| state := entries r !! s ≫= state;
                  has_sub_pos := true; x := px; y := py |} ∧
        (∀ s', s' ≠ s → entries r' !! s' = entries r !! s') ∧
        node_data r' = node_data r ∧
        next_candidate r' = next_candidate r ∧
        committed_sequence r' = committed_sequence r ∧
        surfaces σ' = surfaces σ ∧
        committed_queue σ' = committed_queue σ ∧
        committed_sequence_counter σ' = committed_sequence_counter σ ∧
        trace σ' = trace σ
  end.
Proof.
  destruct (transactions σ !! t) as [r|] eqn:Hr.
  - rewrite (Merge.add_subsurface_position_spec t s px py σ r Hr).
    destruct (ensure_entry_fields r s) as (Hn & Hc & Hq & He & Hes).
    eexists _, _. split; [done|]. split; [done|]. simpl. split_and!; try done.
    + rewrite lookup_insert_eq. do 2 f_equal. rewrite He.
      by destruct (entries r !! s).
    + intros s' Hs'. rewrite lookup_insert_ne by done. rewrite <- Hes.
      by rewrite lookup_insert_ne.
  - unfold meta_wayland_transaction_add_subsurface_position, transaction_of.
    by rewrite Hr.
Qed.

(** X3.  Of two positions added for the same surface to the same
    transaction the later one stays: the two calls in a row are the later
    call alone. *)
Theorem add_subsurface_position_last_wins (t : Txn) (s : Surface)
    (x1 y1 x2 y2 : Z) (σ : Compositor) :
  meta_wayland_transaction_add_subsurface_position t s x1 y1 σ
    ≫= meta_wayland_transaction_add_subsurface_position t s x2 y2
  = meta_wayland_transaction_add_subsurface_position t s x2 y2 σ.
Proof.
  unfold meta_wayland_transaction_add_subsurface_position, transaction_of.
  destruct (transactions σ !! t) as [r|] eqn:Hr; [|done].
  cbn -[meta_wayland_transaction_ensure_entry].
  unfold meta_wayland_transaction_ensure_entry, meta_wayland_transaction_get_entry.
  destruct (entries r !! s) as [e|] eqn:He; cbn.
  all: rewrite lookup_insert_eq; cbn; rewrite lookup_insert_eq; cbn.
  all: unfold store_transaction, set_transactions, set_entries; cbn.
  all: by rewrite !insert_insert_eq.
Qed.

(** X4.  [meta_wayland_transaction_merge_pending_state] on a transaction
    that is not live is a fault.  On a live one it returns; the entry of
    the surface then holds the surface's pending state, merged into the
    state the entry held if it held one, and the position it had; the
    surface is left with a fresh pending state and is otherwise as before;
    nothing else changes, and nothing is queued or applied. *)
Theorem merge_pending_state_moves_state (t : Txn) (s : Surface) (σ : Compositor) :
  match transactions σ !! t with
  | None => meta_wayland_transaction_merge_pending_state t s σ = Fault
  | Some r =>
      let pending := pending_state (surface_of σ s) in
      let old := default entry_new0 (entries r !! s) in
      ∃ σ' r',
        meta_wayland_transaction_merge_pending_state t s σ = Ok σ' ∧
        transactions σ' = <[t := r']> (transactions σ) ∧
        entries r' !! s =
          Some {| state :=
                    Some (match state old with
                          | None => pending
                          | Some st =>
                              meta_wayland_surface_state_merge_into (Some pending) st
                          end);
                  has_sub_pos := has_sub_pos old; x := x old; y := y old |} ∧
        (∀ s', s' ≠ s → entries r' !! s' = entries r !! s') ∧
        node_data r' = node_data r ∧
        next_candidate r' = next_candidate r ∧
        committed_sequence r' = committed_sequence r ∧
        surface_of σ' s =
          set_pending_state meta_wayland_surface_state_new (surface_of σ s) ∧
        (∀ s', s' ≠ s → surface_of σ' s' = surface_of σ s') ∧
        committed_queue σ' = committed_queue σ ∧
        committed_sequence_counter σ' = committed_sequence_counter σ ∧
        trace σ' = trace σ
  end.
Proof.
  destruct (transactions σ !! t) as [r|] eqn:Hr.
  - unfold meta_wayland_transaction_merge_pending_state, transaction_of.
    rewrite Hr. cbn -[meta_wayland_transaction_ensure_entry].
    destruct (ensure_entry_fields r s) as (Hn & Hc & Hq & He & Hes).
    destruct (meta_wayland_transaction_ensure_entry r s) as [r1 e] eqn:Hens.
    simpl in *. subst e.
    eexists _, _. split; [done|]. split; [done|]. simpl. split_and!; try done.
    + by rewrite lookup_insert_eq.
    + intros s' Hs'. rewrite lookup_insert_ne by done. rewrite <- Hes.
      by rewrite lookup_insert_ne.
    + rewrite surface_of_update. by rewrite decide_True.
    + intros s' Hs'. rewrite surface_of_update. by rewrite decide_False.
  - unfold meta_wayland_transaction_merge_pending_state, transaction_of.
    by rewrite Hr.
Qed.

(** X5.  Adding a position and merging the pending state of a surface
    into the same transaction can be done in either order: the position
    does not touch the state of the entry, and the merge does not touch
    its position. *)
Theorem add_position_merge_pending_commute (t : Txn) (s s' : Surface)
    (px py : Z) (σ : Compositor) :
  meta_wayland_transaction_add_subsurface_position t s px py σ
    ≫= meta_wayland_transaction_merge_pending_state t s'
  = meta_wayland_transaction_merge_pending_state t s' σ
    ≫= meta_wayland_transaction_add_subsurface_position t s px py.
Proof.
  unfold meta_wayland_transaction_add_subsurface_position,
    meta_wayland_transaction_merge_pending_state, transaction_of.
  destruct (transactions σ !! t) as [r|] eqn:Hr; [|done].
  cbn -[meta_wayland_transaction_ensure_entry].
  unfold meta_wayland_transaction_ensure_entry, meta_wayland_transaction_get_entry.
  destruct (decide (s = s')) as [<-|Hne].
  - destruct (entries r !! s) as [e|] eqn:He; cbn.
    all: rewrite !lookup_insert_eq; cbn; rewrite ?lookup_insert_eq; cbn.
    all: unfold update_surface, store_transaction, set_transactions, set_surfaces,
           set_entries, surface_of; cbn.
    all: by rewrite !insert_insert_eq.
  - destruct (entries r !! s) as [e|] eqn:He, (entries r !! s') as [e'|] eqn:He'; cbn.
    all: rewrite ?lookup_insert_eq; cbn.
    all: rewrite ?lookup_insert_ne by done; rewrite ?He, ?He'; cbn.
    all: rewrite ?lookup_insert_eq; cbn.
    all: rewrite ?lookup_insert_ne by done; rewrite ?He, ?He'; cbn.
    all: unfold update_surface, store_transaction, set_transactions, set_surfaces,
           set_entries, surface_of; cbn.
    all: rewrite !insert_insert_eq.
    all: do 3 f_equal.
    all: f_equal; by apply insert_insert_ne.
Qed.

End Builder.

(** ** Merging transactions: which entries the target ends up with *)

Module MergeEntries.
Import Merge.

Lemma add_placement_op_present r op s :
  op_surface op = Some s ∨ op_sibling op = Some s →
  is_Some (entries (add_placement_op r op) !! s).
Proof.
  unfold add_placement_op. intros [H|H]; rewrite H.
  - destruct (op_sibling op) as [s'|].
    + destruct (ensure_entry_present r s) as [e He].
      eexists. by apply ensure_entry_keeps.
    + apply ensure_entry_present.
  - apply ensure_entry_present.
Qed.

Lemma add_placement_ops_present ops r s :
  (∃ op, op ∈ ops ∧ (op_surface op = Some s ∨ op_sibling op = Some s)) →
  is_Some (entries (foldl add_placement_op r ops) !! s).
Proof.
  revert r. induction ops as [|op ops IH]; intros r (op' & Hin & Hop).
  { by apply elem_of_nil in Hin. }
  cbn [foldl]. apply elem_of_cons in Hin as [->|Hin].
  - destruct (add_placement_op_present r op s Hop) as [e He].
    eexists. by apply add_placement_ops_keeps.
  - apply IH. eauto.
Qed.

Lemma add_placement_surfaces_present r st s :
  placement_named st s →
  is_Some (entries (meta_wayland_transaction_add_placement_surfaces r st) !! s).
Proof. apply add_placement_ops_present. Qed.

(** The surfaces [to] has an entry for after one round. *)
Lemma merge_into_step_surfaces from to k v s :
  is_Some (entries (merge_into_step (from, to) (k, v)).2 !! s) ↔
  is_Some (entries to !! s) ∨ k = s ∨
  ∃ st, state v = Some st ∧ placement_named st s.
Proof.
  split.
  - intros [e He]. apply merge_into_step_origin in He
      as [[_ H]|[[H _]|[[H _]|(_ & _ & _ & H)]]]; eauto.
  - unfold merge_into_step, meta_wayland_transaction_get_entry.
    intros [[e He]|[<-|(st & Hst & Hn)]].
    + destruct (entries to !! k) as [te|] eqn:E; simpl.
      * destruct (decide (k = s)) as [->|Hne]; [by rewrite lookup_insert_eq|].
        rewrite lookup_insert_ne by done. eexists.
        destruct (state v); [by apply add_placement_surfaces_keeps|done].
      * assert (k ≠ s) as Hne by congruence.
        unfold meta_wayland_transaction_add_entry. eexists.
        destruct (state v); [apply add_placement_surfaces_keeps|]; simpl;
          by rewrite lookup_insert_ne.
    + destruct (entries to !! k) as [te|] eqn:E; simpl.
      * by rewrite lookup_insert_eq.
      * unfold meta_wayland_transaction_add_entry. eexists.
        destruct (state v); [apply add_placement_surfaces_keeps|]; simpl;
          by rewrite lookup_insert_eq.
    + rewrite Hst. destruct (entries to !! k) as [te|] eqn:E; simpl.
      * apply lookup_insert_is_Some'. right.
        by apply add_placement_surfaces_present.
      * unfold meta_wayland_transaction_add_entry. rewrite Hst.
        by apply add_placement_surfaces_present.
Qed.

Lemma merge_into_fold_surfaces kvs from to s :
  is_Some (entries (foldl merge_into_step (from, to) kvs).2 !! s) ↔
  is_Some (entries to !! s) ∨ s ∈ kvs.*1 ∨
  ∃ k v st, (k, v) ∈ kvs ∧ state v = Some st ∧ placement_named st s.
Proof.
  revert from to. induction kvs as [|[k v] kvs IH]; intros from to.
  { simpl. split; [by left|]. intros [H|[H|(k & v & st & H & _)]]; [done| |].
    - by apply elem_of_nil in H.
    - by apply elem_of_nil in H. }
  cbn [foldl]. destruct (merge_into_step (from, to) (k, v)) as [f' t'] eqn:E.
  rewrite IH. change t' with (f', t').2. rewrite <- E.
  rewrite merge_into_step_surfaces. simpl. split.
  - intros [[H|[->|(st & H1 & H2)]]|[H|(k' & v' & st & H & H1 & H2)]].
    + by left.
    + right. left. left.
    + right. right. exists k, v, st. split_and!; [left|done|done].
    + right. left. by right.
    + right. right. exists k', v', st. split_and!; [by right|done|done].
  - intros [H|[H|(k' & v' & st & H & H1 & H2)]].
    + left. by left.
    + apply elem_of_cons in H as [->|H]; [left; right; by left|right; by left].
    + apply elem_of_cons in H as [H|H].
      * simplify_eq. left. right. right. eauto.
      * right. right. eauto 10.
Qed.

(** X6.  After [from] is merged into another live transaction [to], [to]
    has an entry for exactly the surfaces that [to] or [from] had an entry
    for and the surfaces named by a placement operation of a state held by
    an entry of [from]: no surface of either transaction is lost, and no
    other surface gets an entry. *)
Theorem merge_into_entry_surfaces (from to : Txn) (σ : Compositor)
    (rf rt : MetaWaylandTransaction) :
  from ≠ to →
  transactions σ !! from = Some rf →
  transactions σ !! to = Some rt →
  ∃ σ' rt',
    meta_wayland_transaction_merge_into from to σ = Ok σ' ∧
    transactions σ' !! to = Some rt' ∧
    ∀ s, is_Some (entries rt' !! s) ↔
         is_Some (entries rt !! s) ∨ is_Some (entries rf !! s) ∨
         ∃ s0 e0 st, entries rf !! s0 = Some e0 ∧ state e0 = Some st ∧
                     placement_named st s.
Proof.
  intros Hne Hf Ht.
  destruct (merge_into_Ok from to σ rf rt Hne Hf Ht) as (σ' & Hrun & _ & Hto & _).
  eexists _, _. split; [done|]. split; [done|]. intros s.
  rewrite merge_into_fold_surfaces. unfold g_hash_table_iter.
  rewrite <- (elem_of_keys (entries rf) s).
  unfold g_hash_table_get_keys_as_array.
  split; (intros [H|[H|(k & v & st & H & H1 & H2)]]; [by left|right; by left|]).
  - right. right. exists k, v, st. by rewrite <- elem_of_map_to_list.
  - right. right. exists k, v, st. by rewrite elem_of_map_to_list.
Qed.

Lemma merge_into_entry_surfaces_witness :
  ∃ σ' rt',
    meta_wayland_transaction_merge_into 1 2 Examples2.placement_pair = Ok σ' ∧
    transactions σ' !! 2%positive = Some rt' ∧
    ∀ s, is_Some (entries rt' !! s) ↔
         is_Some (entries Examples2.empty_transaction !! s) ∨
         is_Some (entries Examples2.placement_from !! s) ∨
         ∃ s0 e0 st, entries Examples2.placement_from !! s0 = Some e0 ∧
                     state e0 = Some st ∧ placement_named st s.
Proof.
  apply (merge_into_entry_surfaces 1 2 Examples2.placement_pair
           Examples2.placement_from Examples2.empty_transaction); done.
Defined.






(** Merging a transaction without entries. *)
Lemma merge_into_empty_spec from to σ rf rt :
  from ≠ to →
  transactions σ !! from = Some rf →
  transactions σ !! to = Some rt →
  entries rf = ∅ →
  meta_wayland_transaction_merge_into from to σ =
    meta_wayland_transaction_free from σ.
Proof.
  intros Hne Hf Ht He. unfold meta_wayland_transaction_merge_into, transaction_of.
  rewrite Hf, Ht. cbn [deref mbind result_mbind result_bind].
  rewrite decide_False by done. rewrite He. unfold g_hash_table_iter.
  rewrite map_to_list_empty. cbn [foldl].
  rewrite (Teardown.free_Ok from _ (set_entries (entries rf) rf)).
  2:{ simpl. rewrite lookup_insert_ne by done. rewrite lookup_insert_eq.
      by destruct rf. }
  rewrite (Teardown.free_Ok from σ rf Hf). simpl.
  do 2 f_equal.
  rewrite (insert_id _ to rt).
  2:{ rewrite lookup_insert_ne by done. done. }
  by rewrite delete_insert_eq.
Qed.

(** X8.  Merging a transaction that has no entry into another live
    transaction is freeing it: the target and everything else are as
    after [meta_wayland_transaction_free] alone. *)
Theorem merge_into_empty_is_free (from to : Txn) (σ : Compositor)
    (rf rt : MetaWaylandTransaction) :
  from ≠ to →
  transactions σ !! from = Some rf →
  transactions σ !! to = Some rt →
  entries rf = ∅ →
  meta_wayland_transaction_merge_into from to σ =
    meta_wayland_transaction_free from σ.
Proof. apply merge_into_empty_spec. Qed.

Lemma merge_into_empty_is_free_witness :
  meta_wayland_transaction_merge_into 2 1 Examples2.placement_pair =
    meta_wayland_transaction_free 2 Examples2.placement_pair.
Proof.
  apply (merge_into_empty_is_free 2 1 Examples2.placement_pair
           Examples2.empty_transaction Examples2.placement_from); done.
Defined.

(** X9.  A transaction made by [meta_wayland_transaction_new] at an
    address that was not live, and freed at once or merged at once into a
    live transaction, leaves the compositor as it was. *)
Theorem new_then_discard (t to : Txn) (σ : Compositor) (rt : MetaWaylandTransaction) :
  transactions σ !! t = None →
  transactions σ !! to = Some rt →
  meta_wayland_transaction_free t (meta_wayland_transaction_new t σ) = Ok σ ∧
  meta_wayland_transaction_merge_into t to (meta_wayland_transaction_new t σ) = Ok σ.
Proof.
  intros Hfresh Hto.
  assert (meta_wayland_transaction_free t (meta_wayland_transaction_new t σ) = Ok σ)
    as Hfree.
  { unfold meta_wayland_transaction_new.
    erewrite Teardown.free_Ok by (simpl; apply lookup_insert_eq). simpl.
    rewrite delete_insert_id by done. by destruct σ. }
  split; [done|]. rewrite <- Hfree.
  assert (t ≠ to) as Hne by congruence.
  eapply merge_into_empty_spec; [done| | |].
  - unfold meta_wayland_transaction_new. simpl. apply lookup_insert_eq.
  - unfold meta_wayland_transaction_new. simpl.
    rewrite lookup_insert_ne by done. done.
  - done.
Qed.

Lemma new_then_discard_witness :
  meta_wayland_transaction_free 3
    (meta_wayland_transaction_new 3 Examples2.placement_pair)
    = Ok Examples2.placement_pair ∧
  meta_wayland_transaction_merge_into 3 1
    (meta_wayland_transaction_new 3 Examples2.placement_pair)
    = Ok Examples2.placement_pair.
Proof.
  apply (new_then_discard 3 1 Examples2.placement_pair Examples2.placement_from);
    done.
Defined.

End MergeEntries.

(** ** Single steps of the engine *)

Module EngineSteps.
Import Pending Apply Cascade.

Lemma find_next_loop_first_match σ s nodes :
  (∀ u, u ∈ nodes → is_Some (transactions σ !! u)) →
  find_next_loop σ s nodes =
    Ok (head (filter (λ u, last_committed (surface_of σ s) = Some u ∨
                           has_entry (transactions σ) s u) nodes)).
Proof.
  induction nodes as [|next rest IH]; intros Hlive; [done|].
  cbn [find_next_loop].
  destruct (decide (last_committed (surface_of σ s) = Some next)) as [Hl|Hl].
  { rewrite filter_cons_True by by left. done. }
  destruct (Hlive next) as [r Hr]; [left|].
  unfold transaction_of. rewrite Hr. cbn [deref mbind result_mbind result_bind].
  destruct (decide (is_Some (entries r !! s))) as [He|He].
  - rewrite filter_cons_True; [done|]. right. apply has_entry_spec. eauto.
  - rewrite filter_cons_False.
    + apply IH. intros u Hu. apply Hlive. by right.
    + intros [H|H]; [done|]. apply has_entry_spec in H as (r' & Hr' & H).
      by simplify_eq.
Qed.

(** X10.  With every queued transaction live,
    [find_next_transaction_for_surface] on a queued transaction returns
    the first transaction behind it in the committed queue that is
    [last_committed] of the surface or holds an entry for it, and NULL
    when there is none. *)
Theorem find_next_is_first_match (t : Txn) (s : Surface) (σ : Compositor)
    (q1 q2 : list Txn) :
  (∀ u, u ∈ committed_queue σ → is_Some (transactions σ !! u)) →
  committed_queue σ = q1 ++ t :: q2 →
  t ∉ q1 →
  find_next_transaction_for_surface t s σ =
    Ok (head (filter (λ u, last_committed (surface_of σ s) = Some u ∨
                           has_entry (transactions σ) s u) q2)).
Proof.
  intros Hlive Hq Ht. unfold find_next_transaction_for_surface, transaction_of.
  destruct (Hlive t) as [r Hr].
  { rewrite Hq. apply elem_of_app. right. left. }
  rewrite Hr. cbn [deref mbind result_mbind result_bind].
  rewrite Hq, node_next_split by done.
  apply find_next_loop_first_match. intros u Hu. apply Hlive. rewrite Hq.
  apply elem_of_app. right. by right.
Qed.

Lemma find_next_is_first_match_witness :
  find_next_transaction_for_surface 7 11 Examples3.blocked3 =
    Ok (head (filter (λ u, last_committed (surface_of Examples3.blocked3 11)
                             = Some u ∨
                           has_entry (transactions Examples3.blocked3) 11 u)
                [8%positive; 9%positive])).
Proof.
  apply (find_next_is_first_match 7 11 Examples3.blocked3 [] [8%positive; 9%positive]).
  - intros u Hu. destruct (inv_committed _ blocked3_inv u Hu) as (r & Hr & _).
    by exists r.
  - reflexivity.
  - apply not_elem_of_nil.
Defined.

(** X11.  In a state in order, the readiness check on a queued
    transaction returns, and it passes exactly when no transaction
    before it in the committed queue holds an entry for a surface that it
    holds an entry for. *)
Theorem ready_iff_no_earlier (σ : Compositor) (t : Txn) :
  engine_inv σ →
  t ∈ committed_queue σ →
  ∃ blocked,
    has_unapplied_dependencies t σ = Ok blocked ∧
    (blocked = false ↔
     ∀ u s, precedes (committed_queue σ) u t →
            has_entry (transactions σ) s u → has_entry (transactions σ) s t →
            False).
Proof.
  intros Hinv Htq. destruct (inv_committed σ Hinv t Htq) as (r & Hr & _).
  destruct (has_unapplied_dependencies_Ok σ t r Hr) as [b Hb].
  exists b. split; [done|]. split.
  - intros -> u s Hpre Hu Ht. by eapply (ready_no_earlier σ t r s u).
  - intros Hno. enough (ready σ t) as Hready.
    { unfold ready in Hready. congruence. }
    apply (ready_spec σ t r Hr). intros s Hs.
    assert (has_entry (transactions σ) s t) as Hent.
    { apply has_entry_spec. eauto. }
    pose proof (inv_chain σ Hinv s) as Hc. unfold chain_of, ends in Hc.
    injection Hc as Hfirst _. rewrite Hfirst.
    assert (t ∈ pending σ s) as Hin by by apply list_elem_of_filter.
    destruct (pending σ s) as [|h rest] eqn:Ep; [by apply elem_of_nil in Hin|].
    simpl. f_equal. apply elem_of_cons in Hin as [->|Hin]; [done|].
    exfalso. unfold pending in Ep.
    apply filter_split_head in Ep as (q1 & q2 & Hq & _ & Hrest & Hh).
    rewrite <- Hrest in Hin. apply list_elem_of_filter in Hin as [_ Hin].
    apply list_elem_of_split in Hin as (q3 & q4 & ->).
    apply (Hno h s); [|done|done]. by exists q1, q3, q4.
Qed.

Lemma ready_iff_no_earlier_witness :
  ∃ blocked,
    has_unapplied_dependencies 8 Examples3.blocked3 = Ok blocked ∧
    (blocked = false ↔
     ∀ u s, precedes (committed_queue Examples3.blocked3) u 8%positive →
            has_entry (transactions Examples3.blocked3) s u →
            has_entry (transactions Examples3.blocked3) s 8%positive →
            False).
Proof.
  apply (ready_iff_no_earlier Examples3.blocked3 8).
  - exact blocked3_inv.
  - apply (bool_decide_unpack _). by vm_compute.
Defined.

(** A commit that finds one of its surfaces claimed. *)
Lemma commit_blocked_spec fuel t σ r s0 :
  transactions σ !! t = Some r →
  is_Some (entries r !! s0) →
  is_Some (first_committed (surface_of σ s0)) →
  let seq := (committed_sequence_counter σ + 1) `mod` 2 ^ 64 in
  ∃ σ',
    meta_wayland_transaction_commit fuel t σ = Ok σ' ∧
    committed_queue σ' = committed_queue σ ++ [t] ∧
    transactions σ' = <[t := set_committed seq r]> (transactions σ) ∧
    committed_sequence_counter σ' = seq ∧
    trace σ' = trace σ ∧
    ∀ s, surface_of σ' s =
         if decide (is_Some (entries r !! s))
         then set_committed_chain
                (Some (default t (first_committed (surface_of σ s)))) (Some t)
                (surface_of σ s)
         else surface_of σ s.
Proof.
  intros Hr Hs0 Hfirst seq.
  unfold meta_wayland_transaction_commit, commit_register, transaction_of.
  rewrite Hr. cbn [deref mbind result_mbind result_bind]. fold seq.
  set (σ2 := set_committed_queue _ _).
  destruct (Commit.commit_surfaces_spec t (g_hash_table_get_keys_as_array (entries r))
              σ2 true (keys_NoDup _)) as (Hflag & Htx & Hq & Hc & Htr & Hsf).
  destruct (foldl (commit_surface t) (σ2, true) _) as [σ1 flag] eqn:Efold.
  cbn [fst snd] in *.
  assert (flag = false) as ->.
  { rewrite Hflag. simpl. apply not_true_iff_false. intros Hall.
    rewrite forallb_forall in Hall.
    specialize (Hall s0 ltac:(by apply list_elem_of_In, elem_of_keys)).
    apply bool_decide_eq_true in Hall.
    change (surface_of σ2 s0) with (surface_of σ s0) in Hall.
    rewrite Hall in Hfirst. by destruct Hfirst. }
  exists σ1. split_and!; try done.
  intros s. rewrite Hsf. change (surface_of σ2 s) with (surface_of σ s).
  destruct (decide (is_Some (entries r !! s))) as [He|He].
  - by rewrite decide_True by by apply elem_of_keys.
  - by rewrite decide_False by by rewrite elem_of_keys.
Qed.

(** X12.  A commit of a live transaction one of whose surfaces already
    has a [first_committed] returns without applying anything, for any
    fuel: the transaction is appended to the queue with the next sequence
    number (the counter plus one, modulo 2^64); it becomes
    [last_committed] of each of its surfaces, and [first_committed] of
    those of them that had none; the other surfaces, the other
    transactions and the trace are as before. *)
Theorem commit_blocked_registers (fuel : nat) (t : Txn) (σ : Compositor)
    (r : MetaWaylandTransaction) (s0 : Surface) :
  transactions σ !! t = Some r →
  is_Some (entries r !! s0) →
  is_Some (first_committed (surface_of σ s0)) →
  ∃ σ',
    meta_wayland_transaction_commit fuel t σ = Ok σ' ∧
    committed_queue σ' = committed_queue σ ++ [t] ∧
    transactions σ' =
      <[t := set_committed ((committed_sequence_counter σ + 1) `mod` 2 ^ 64) r]>
        (transactions σ) ∧
    committed_sequence_counter σ' = (committed_sequence_counter σ + 1) `mod` 2 ^ 64 ∧
    trace σ' = trace σ ∧
    ∀ s, surface_of σ' s =
         if decide (is_Some (entries r !! s))
         then set_committed_chain
                (Some (default t (first_committed (surface_of σ s)))) (Some t)
                (surface_of σ s)
         else surface_of σ s.
Proof. apply commit_blocked_spec. Qed.

Lemma commit_blocked_registers_witness :
  ∃ σ',
    meta_wayland_transaction_commit 0 10 Examples3.blocked3 = Ok σ' ∧
    committed_queue σ' = committed_queue Examples3.blocked3 ++ [10%positive] ∧
    transactions σ' =
      <[10%positive :=
          set_committed
            ((committed_sequence_counter Examples3.blocked3 + 1) `mod` 2 ^ 64)
            Examples4.uncommitted10]>
        (transactions Examples3.blocked3) ∧
    committed_sequence_counter σ' =
      (committed_sequence_counter Examples3.blocked3 + 1) `mod` 2 ^ 64 ∧
    trace σ' = trace Examples3.blocked3 ∧
    ∀ s, surface_of σ' s =
         if decide (is_Some (entries Examples4.uncommitted10 !! s))
         then set_committed_chain
                (Some (default 10%positive
                         (first_committed (surface_of Examples3.blocked3 s))))
                (Some 10%positive) (surface_of Examples3.blocked3 s)
         else surface_of Examples3.blocked3 s.
Proof.
  apply (commit_blocked_registers 0 10 Examples3.blocked3
           Examples4.uncommitted10 11); by eexists.
Defined.

(** X13.  [meta_wayland_transaction_free] does not reset the surfaces
    that name the transaction: a surface whose [first_committed] was the
    freed transaction still names it, and a transaction committed later
    for that surface is queued and not applied. *)
Theorem free_keeps_surface_chain (fuel : nat) (t t' : Txn) (σ : Compositor)
    (r r' : MetaWaylandTransaction) (s : Surface) :
  transactions σ !! t = Some r →
  first_committed (surface_of σ s) = Some t →
  t' ≠ t →
  transactions σ !! t' = Some r' →
  is_Some (entries r' !! s) →
  ∃ σ1 σ2,
    meta_wayland_transaction_free t σ = Ok σ1 ∧
    transactions σ1 !! t = None ∧
    first_committed (surface_of σ1 s) = Some t ∧
    meta_wayland_transaction_commit fuel t' σ1 = Ok σ2 ∧
    committed_queue σ2 = committed_queue σ1 ++ [t'] ∧
    is_Some (transactions σ2 !! t') ∧
    first_committed (surface_of σ2 s) = Some t ∧
    trace σ2 = trace σ.
Proof.
  intros Hr Hfirst Hne Hr' Hs.
  rewrite (Teardown.free_Ok t σ r Hr).
  set (σ1 := {| surfaces := surfaces σ |}).
  assert (∀ s', surface_of σ1 s' = surface_of σ s') as Hsame by done.
  destruct (commit_blocked_spec fuel t' σ1 r' s)
    as (σ2 & Hrun & Hq & Htx & _ & Htr & Hsf).
  { simpl. by rewrite lookup_delete_ne. }
  { done. }
  { rewrite Hsame, Hfirst. by eexists. }
  exists σ1, σ2. split_and!; try done.
  - apply lookup_delete_eq.
  - rewrite Htx, lookup_insert_eq. by eexists.
  - rewrite Hsf, decide_True by done. simpl. by rewrite Hsame, Hfirst.
Qed.

Lemma free_keeps_surface_chain_witness :
  ∃ σ1 σ2,
    meta_wayland_transaction_free 7 Examples3.blocked3 = Ok σ1 ∧
    transactions σ1 !! 7%positive = None ∧
    first_committed (surface_of σ1 11) = Some 7%positive ∧
    meta_wayland_transaction_commit 0 10 σ1 = Ok σ2 ∧
    committed_queue σ2 = committed_queue σ1 ++ [10%positive] ∧
    is_Some (transactions σ2 !! 10%positive) ∧
    first_committed (surface_of σ2 11) = Some 7%positive ∧
    trace σ2 = trace Examples3.blocked3.
Proof.
  apply (free_keeps_surface_chain 0 7 10 Examples3.blocked3
           (Examples3.queued 1 (<[11%positive := Examples3.entry_with 1]> ∅))
           Examples4.uncommitted10 11); try done; by eexists.
Defined.

End EngineSteps.

(** ** The effects of apply *)

Module ApplyEffects.
Import Chain Pending Apply Cascade.

Lemma ensure_next_candidate_frame t c σ σ' c' :
  ensure_next_candidate t c σ = Ok (σ', c') →
  surfaces σ' = surfaces σ ∧ trace σ' = trace σ.
Proof.
  unfold ensure_next_candidate, transaction_of. intros H.
  destruct (transactions σ !! t) as [r|]; [|done].
  cbn [deref mbind result_mbind result_bind] in H.
  case_decide; [by simplify_eq|].
  destruct (candidate_walk _ _ _ _ _) as [[slot cur]| |]; [|done|done].
  cbn [mbind result_mbind result_bind] in H.
  destruct slot as [|p]; [by simplify_eq|].
  destruct (transactions (store_transaction t (set_next_candidate cur r) σ) !! p);
    [|done].
  cbn [deref mbind result_mbind result_bind] in H. by simplify_eq.
Qed.

Lemma surface_of_emit ev σ s : surface_of (emit ev σ) s = surface_of σ s.
Proof. done. Qed.

Lemma geometry_set_chain first last r :
  geometry (set_committed_chain first last r) = geometry r.
Proof. done. Qed.

Lemma geometry_apply_entry s e σ s' :
  let σ2 := match state e with
            | Some st =>
                emit (EvApplyState s st)
                  (meta_wayland_transaction_apply_subsurface_position s e σ)
            | None => meta_wayland_transaction_apply_subsurface_position s e σ
            end in
  trace σ2 = trace σ ++ entry_events s e ∧
  surface_of σ2 s' =
    if decide (s' = s) then apply_position e (surface_of σ s') else surface_of σ s'.
Proof.
  unfold meta_wayland_transaction_apply_subsurface_position, entry_events,
    apply_position.
  destruct (state e) as [st|], (has_sub_pos e); cbn.
  all: rewrite ?app_nil_r; try rewrite <- app_assoc; split; try done.
  all: try (by case_decide).
  all: rewrite !surface_of_emit.
  all: rewrite surface_of_update; by repeat case_decide; simplify_eq.
Qed.

Lemma apply_surface_effects t r σ c states s e σ' c' states' :
  entries r !! s = Some e →
  apply_surface t r (σ, c, states) s = Ok (σ', c', states') →
  trace σ' = trace σ ++ entry_events s e ∧
  states' = states ++ [state e] ∧
  ∀ s', geometry (surface_of σ' s') =
        geometry (if decide (s' = s) then apply_position e (surface_of σ s')
                  else surface_of σ s').
Proof.
  intros He. unfold apply_surface, meta_wayland_transaction_get_entry.
  rewrite He. cbn [deref mbind result_mbind result_bind].
  pose proof (geometry_apply_entry s e σ) as H2. cbn zeta in H2.
  set (σ2 := match state e with Some _ => _ | None => _ end) in *.
  case_decide as Hl.
  - intros H. simplify_eq. split; [apply (H2 s)|]. split; [done|].
    intros s'. rewrite surface_of_update. destruct (decide (s = s')) as [<-|Hne].
    + rewrite geometry_set_chain. by destruct (H2 s) as [_ ->].
    + by destruct (H2 s') as [_ ->].
  - destruct (find_next_transaction_for_surface t s σ2) as [[next|]| |]; try done.
    + cbn [mbind result_mbind result_bind].
      destruct (ensure_next_candidate _ _ _) as [[σ4 c4]| |] eqn:Hens; try done.
      cbn [mbind result_mbind result_bind]. intros H. simplify_eq.
      apply ensure_next_candidate_frame in Hens as [Hsf Htr].
      rewrite Htr. split; [apply (H2 s)|]. split; [done|].
      intros s'. unfold surface_of at 1. rewrite Hsf.
      match goal with |- context [get_surface (surfaces ?σ3) s'] =>
        change (get_surface (surfaces σ3) s') with (surface_of σ3 s') end.
      rewrite surface_of_update. destruct (decide (s = s')) as [<-|Hne].
      * rewrite geometry_set_chain. by destruct (H2 s) as [_ ->].
      * by destruct (H2 s') as [_ ->].
    + cbn [mbind result_mbind result_bind]. intros H. simplify_eq.
      split; [apply (H2 s)|]. split; [done|]. intros s'.
      by destruct (H2 s') as [_ ->].
Qed.

Lemma apply_position_idem e r :
  apply_position e (apply_position e r) = apply_position e r.
Proof. unfold apply_position. by destruct (has_sub_pos e). Qed.

Lemma geometry_apply_position e r r' :
  geometry r' = geometry r →
  geometry (apply_position e r') = geometry (apply_position e r).
Proof.
  unfold geometry, apply_position. intros H. injection H as H1 H2 H3 H4.
  destruct (has_sub_pos e); simpl; congruence.
Qed.

Lemma apply_surfaces_effects t r todo :
  ∀ σ c states σ' c' states',
    NoDup todo →
    apply_surfaces t r (σ, c, states) todo = Ok (σ', c', states') →
    trace σ' = trace σ ++ first_pass_events r todo ∧
    states' = states ++ ((λ s, entries r !! s ≫= state) <$> todo) ∧
    ∀ s', geometry (surface_of σ' s') =
          geometry (if decide (s' ∈ todo)
                    then from_option apply_position id (entries r !! s')
                           (surface_of σ s')
                    else surface_of σ s').
Proof.
  induction todo as [|s todo IH]; intros σ c states σ' c' states' Hnd H.
  { cbn in H. simplify_eq. unfold first_pass_events. cbn.
    rewrite !app_nil_r. by split_and!. }
  apply NoDup_cons in Hnd as [Hs Hnd]. cbn [apply_surfaces] in H.
  destruct (apply_surface t r (σ, c, states) s) as [[[σ1 c1] states1]| |] eqn:H1;
    try done.
  cbn [mbind result_mbind result_bind] in H.
  destruct (entries r !! s) as [e|] eqn:He.
  2:{ unfold apply_surface, meta_wayland_transaction_get_entry in H1.
      by rewrite He in H1. }
  destruct (apply_surface_effects _ _ _ _ _ _ _ _ _ _ He H1) as (Htr1 & Hst1 & Hg1).
  destruct (IH _ _ _ _ _ _ Hnd H) as (Htr & Hst & Hg).
  split_and!.
  - rewrite Htr, Htr1. unfold first_pass_events. cbn. rewrite He. cbn.
    by rewrite <- app_assoc.
  - rewrite Hst, Hst1. cbn. rewrite He. cbn. by rewrite <- app_assoc.
  - intros s'. rewrite Hg. destruct (decide (s' = s)) as [->|Hne].
    + rewrite decide_False by done. rewrite Hg1, decide_True by done.
      rewrite decide_True by left. by rewrite He.
    + destruct (decide (s' ∈ todo)) as [Hin|Hin].
      * rewrite decide_True by by right.
        destruct (entries r !! s') as [e'|]; cbn.
        -- apply geometry_apply_position. rewrite Hg1. by rewrite decide_False.
        -- rewrite Hg1. by rewrite decide_False.
      * rewrite decide_False.
        -- rewrite Hg1. by rewrite decide_False.
        -- rewrite not_elem_of_cons. done.
Qed.

Lemma sync_pass_trace ps σ :
  trace (foldl (λ σ (p : Surface * option MetaWaylandSurfaceState),
                  if p.2 is Some _ then emit (EvSyncChildStates p.1) σ else σ)
               σ ps)
  = trace σ ++ omap (λ p : Surface * option MetaWaylandSurfaceState,
                       if p.2 is Some _ then Some (EvSyncChildStates p.1) else None)
                    ps.
Proof.
  revert σ. induction ps as [|[s [st|]] ps IH]; intros σ; cbn.
  - by rewrite app_nil_r.
  - rewrite IH. cbn. by rewrite <- app_assoc.
  - apply IH.
Qed.

Lemma second_pass_trace r sorted σ :
  trace (sync_child_states_pass sorted
           ((λ s, entries r !! s ≫= state) <$> sorted) σ)
  = trace σ ++ second_pass_events r sorted.
Proof.
  unfold sync_child_states_pass, second_pass_events. rewrite sync_pass_trace.
  f_equal.
  assert (zip sorted ((λ s, entries r !! s ≫= state) <$> sorted)
          = (λ s, (s, entries r !! s ≫= state)) <$> sorted) as ->.
  { induction sorted as [|s sorted IH]; [done|]. cbn. by rewrite IH. }
  rewrite <- fmap_reverse. generalize (reverse sorted). intros l.
  induction l as [|s l IH]; [done|]. cbn. rewrite IH.
  by destruct (entries r !! s ≫= state).
Qed.

Lemma surface_eq r r' :
  geometry r = geometry r' →
  first_committed r = first_committed r' →
  last_committed r = last_committed r' →
  r = r'.
Proof.
  destruct r, r'. unfold geometry. simpl. intros H -> ->.
  injection H as -> -> -> ->. done.
Qed.

Lemma pending_after_apply σ σ' t s :
  committed_queue σ' = filter (λ u, u ≠ t) (committed_queue σ) →
  txn_data (transactions σ') = delete t (txn_data (transactions σ)) →
  pending σ' s = filter (λ u, u ≠ t) (pending σ s).
Proof.
  intros Hq Hd. unfold pending. rewrite Hq, filter_filter_ne.
  apply filter_ext_elem. intros u Hu. apply list_elem_of_filter in Hu as [Hne _].
  rewrite <- (has_entry_txn_data (transactions σ')), Hd.
  rewrite has_entry_delete by done. apply has_entry_txn_data.
Qed.

Lemma free_frame t σ σ' :
  meta_wayland_transaction_free t σ = Ok σ' →
  surfaces σ' = surfaces σ ∧ trace σ' = trace σ.
Proof.
  unfold meta_wayland_transaction_free, transaction_of.
  destruct (transactions σ !! t) as [r|]; [|done].
  cbn [deref mbind result_mbind result_bind]. intros H. simplify_eq.
  by destruct (node_data r).
Qed.

(** Everything apply does when it is called on a ready, queued
    transaction. *)
Lemma apply_effects t c σ l r :
  engine_inv σ →
  chain_ok (transactions σ) c l →
  (∀ u, u ∈ l → u ∈ committed_queue σ ∧ u ≠ t) →
  transactions σ !! t = Some r →
  t ∈ committed_queue σ →
  ready σ t →
  ∃ σ' c' sorted,
    meta_wayland_transaction_apply t c σ = Ok (σ', c') ∧
    engine_inv σ' ∧
    committed_queue σ' = filter (λ u, u ≠ t) (committed_queue σ) ∧
    txn_data (transactions σ') = delete t (txn_data (transactions σ)) ∧
    qsort (Forest.meta_wayland_transaction_compare (surfaces σ))
      (g_hash_table_get_keys_as_array (entries r)) = Some sorted ∧
    sorted ≡ₚ g_hash_table_get_keys_as_array (entries r) ∧
    trace σ' = trace σ ++ EvApply t :: first_pass_events r sorted
                 ++ second_pass_events r sorted ∧
    ∀ s, geometry (surface_of σ' s) =
         geometry (from_option apply_position id (entries r !! s) (surface_of σ s)).
Proof.
  intros Hinv Hok Hl Ht Htq Hready.
  destruct (apply_spec t c σ l r Hinv Hok Hl Ht Htq Hready)
    as (σ' & c' & l' & Hrun & Hinv' & _ & _ & _ & Hq & Hd & _ & _).
  destruct (ForestUpdate.qsort_total
              (Forest.meta_wayland_transaction_compare (surfaces σ))
              (g_hash_table_get_keys_as_array (entries r)))
    as (sorted & Hsort & Hperm).
  { intros a b. apply ForestUpdate.compare_total. by destruct Hinv. }
  exists σ', c', sorted. split_and!; try done.
  all: unfold meta_wayland_transaction_apply, transaction_of in Hrun.
  all: change (transactions (emit (EvApply t) σ)) with (transactions σ) in Hrun.
  all: change (surfaces (emit (EvApply t) σ)) with (surfaces σ) in Hrun.
  all: rewrite Ht in Hrun; cbn [deref mbind result_mbind result_bind] in Hrun.
  all: rewrite Hsort in Hrun.
  all: cbn [deref returns mbind result_mbind result_bind] in Hrun.
  all: destruct (apply_surfaces _ _ _ _) as [[[σ1 c1] states]| |] eqn:Hloop;
         try done.
  all: cbn [mbind result_mbind result_bind] in Hrun.
  all: destruct (meta_wayland_transaction_free _ _) as [σ2| |] eqn:Hfree; try done.
  all: cbn [mbind result_mbind result_bind] in Hrun; simplify_eq.
  all: apply apply_surfaces_effects in Hloop as (Htr & Hst & Hg);
         [|rewrite Hperm; apply keys_NoDup].
  all: cbn [app] in Hst; subst states.
  all: apply free_frame in Hfree as [Hsf2 Htr2].
  - rewrite Htr2, second_pass_trace, Htr. cbn [emit trace].
    rewrite <- !app_assoc. done.
  - intros s. unfold surface_of at 1. rewrite Hsf2.
    destruct (sync_pass_frame sorted ((λ s, entries r !! s ≫= state) <$> sorted) σ1)
      as (_ & Hsf & _).
    rewrite Hsf. fold (surface_of σ1 s). rewrite Hg.
    rewrite surface_of_emit. case_decide as Hin; [done|].
    rewrite Hperm, elem_of_keys in Hin.
    by destruct (entries r !! s) as [e|]; [destruct Hin; eauto|].
Qed.

(** X14.  Applying a ready, queued transaction in a state in order
    returns and leaves every surface as follows.  A surface the
    transaction has an entry for has the position of the entry if the
    entry has one, and its [first_committed] and [last_committed] are the
    first and the last of the queued transactions behind the applied one
    that hold an entry for the surface (NULL when there is none); its
    parent and its pending state are untouched.  Every other surface is as
    before.  The transaction itself has left the queue, whose other
    elements keep their order, and is no longer live. *)
Theorem apply_advances_surfaces (t : Txn) (c : Candidate) (σ : Compositor)
    (l : list Txn) (r : MetaWaylandTransaction) :
  engine_inv σ →
  chain_ok (transactions σ) c l →
  (∀ u, u ∈ l → u ∈ committed_queue σ ∧ u ≠ t) →
  transactions σ !! t = Some r →
  t ∈ committed_queue σ →
  ready σ t →
  ∃ σ' c',
    meta_wayland_transaction_apply t c σ = Ok (σ', c') ∧
    transactions σ' !! t = None ∧
    committed_queue σ' = filter (λ u, u ≠ t) (committed_queue σ) ∧
    ∀ s, surface_of σ' s =
         match entries r !! s with
         | Some e =>
             set_committed_chain
               (head (filter (λ u, u ≠ t) (pending σ s)))
               (last (filter (λ u, u ≠ t) (pending σ s)))
               (apply_position e (surface_of σ s))
         | None => surface_of σ s
         end.
Proof.
  intros Hinv Hok Hl Ht Htq Hready.
  destruct (apply_effects t c σ l r Hinv Hok Hl Ht Htq Hready)
    as (σ' & c' & sorted & Hrun & Hinv' & Hq & Hd & _ & _ & _ & Hg).
  exists σ', c'. split_and!; try done.
  - assert (txn_data (transactions σ') !! t = None) as Hn
      by (rewrite Hd; apply lookup_delete_eq).
    unfold txn_data in Hn. rewrite lookup_fmap in Hn.
    by destruct (transactions σ' !! t).
  - intros s. pose proof (inv_chain σ' Hinv' s) as Hc'.
    rewrite (pending_after_apply σ σ' t s Hq Hd) in Hc'.
    unfold chain_of, ends in Hc'. injection Hc' as Hfirst Hlast.
    destruct (entries r !! s) as [e|] eqn:He.
    + apply surface_eq; [|done|done]. rewrite Hg, He. done.
    + assert (filter (λ u, u ≠ t) (pending σ s) = pending σ s) as Hsame.
      { apply filter_all, Forall_forall. intros u Hu ->.
        apply list_elem_of_filter in Hu as [Hent _].
        apply has_entry_spec in Hent as (r' & Hr' & [e He']). by simplify_eq. }
      rewrite Hsame in Hfirst, Hlast.
      pose proof (inv_chain σ Hinv s) as Hc. unfold chain_of, ends in Hc.
      injection Hc as Hfirst0 Hlast0.
      apply surface_eq; [|congruence|congruence]. rewrite Hg, He. done.
Qed.

(** Apply is [apply_in_order] at the order the sort returns. *)
Lemma apply_at_sorted t c σ r sorted :
  transactions σ !! t = Some r →
  qsort (Forest.meta_wayland_transaction_compare (surfaces σ))
    (g_hash_table_get_keys_as_array (entries r)) = Some sorted →
  meta_wayland_transaction_apply t c σ = apply_in_order t c sorted σ.
Proof.
  intros Ht Hsort.
  unfold meta_wayland_transaction_apply, apply_in_order, transaction_of.
  change (transactions (emit (EvApply t) σ)) with (transactions σ).
  change (surfaces (emit (EvApply t) σ)) with (surfaces σ).
  rewrite Ht. cbn [deref mbind result_mbind result_bind].
  rewrite Hsort. done.
Qed.

(** X15.  Applying a ready, queued transaction in a state in order
    returns whatever the order is that the sort has left the surfaces of
    the transaction in, and what it adds to the trace is: the entry into
    apply; then, for the surfaces in that order, the position of the entry
    where it has one, followed by the call of the external apply-state
    with the state of the entry where it holds one; then the
    synchronisation of child states for the surfaces whose entry holds a
    state, in the reverse of that order.  Every surface of the transaction
    is visited once in each pass, and an entry without a state leads to
    neither call.  Apply itself is this at an order that holds each
    surface of the transaction once. *)
Theorem apply_trace (t : Txn) (c : Candidate) (σ : Compositor)
    (l : list Txn) (r : MetaWaylandTransaction) (sorted : list Surface) :
  engine_inv σ →
  chain_ok (transactions σ) c l →
  (∀ u, u ∈ l → u ∈ committed_queue σ ∧ u ≠ t) →
  transactions σ !! t = Some r →
  t ∈ committed_queue σ →
  ready σ t →
  sorted ≡ₚ g_hash_table_get_keys_as_array (entries r) →
  (∃ σ' c',
     apply_in_order t c sorted σ = Ok (σ', c') ∧
     trace σ' = trace σ ++ EvApply t :: first_pass_events r sorted
                  ++ second_pass_events r sorted) ∧
  ∃ sorted0,
    sorted0 ≡ₚ g_hash_table_get_keys_as_array (entries r) ∧
    meta_wayland_transaction_apply t c σ = apply_in_order t c sorted0 σ.
Proof.
  intros Hinv Hok Hl Ht Htq Hready Hperm. split.
  - destruct Hinv as [Hnd Hcom Hchain Hwf].
    rewrite (ready_spec σ t r Ht) in Hready.
    assert (NoDup sorted) as Hnds by (rewrite Hperm; apply keys_NoDup).
    destruct (apply_surfaces_spec t r sorted (emit (EvApply t) σ) c l [] [])
      as (σ1 & c' & l' & states & done' & Hrun & _ & _ & _ & _ & _ & Ht1 & _);
      try done.
    { intros s Hs. rewrite Hperm, elem_of_keys in Hs.
      split_and!; [apply not_elem_of_nil|done|].
      pose proof (Hchain s) as Hc. unfold chain_of, ends in Hc.
      change (pending (emit (EvApply t) σ) s) with (pending σ s).
      specialize (Hready s Hs). congruence. }
    destruct (sync_pass_frame sorted states σ1) as (_ & _ & Htx2).
    unfold apply_in_order, transaction_of.
    change (transactions (emit (EvApply t) σ)) with (transactions σ).
    rewrite Ht. cbn [deref mbind result_mbind result_bind]. rewrite Hrun.
    cbn [mbind result_mbind result_bind].
    rewrite (Teardown.free_Ok t _ r) by by rewrite Htx2.
    cbn [mbind result_mbind result_bind].
    eexists _, _. split; [done|]. cbn [trace].
    apply apply_surfaces_effects in Hrun as (Htr & Hst & _); [|done].
    cbn [app] in Hst. subst states.
    rewrite second_pass_trace, Htr. cbn [emit trace].
    by rewrite <- !app_assoc.
  - destruct (ForestUpdate.qsort_total
                (Forest.meta_wayland_transaction_compare (surfaces σ))
                (g_hash_table_get_keys_as_array (entries r)))
      as (sorted0 & Hsort & Hperm0).
    { intros a b. apply ForestUpdate.compare_total. by destruct Hinv. }
    exists sorted0. split; [done|]. by apply (apply_at_sorted t c σ r).
Qed.

Lemma blocked3_ready7 : ready Examples3.blocked3 7.
Proof. by vm_compute. Qed.

Lemma apply_advances_surfaces_witness :
  ∃ σ' c',
    meta_wayland_transaction_apply 7 META_WAYLAND_TRANSACTION_NONE
      Examples3.blocked3 = Ok (σ', c') ∧
    transactions σ' !! 7%positive = None ∧
    committed_queue σ' =
      filter (λ u, u ≠ 7%positive) (committed_queue Examples3.blocked3) ∧
    ∀ s, surface_of σ' s =
         match entries Examples5.queued7 !! s with
         | Some e =>
             set_committed_chain
               (head (filter (λ u, u ≠ 7%positive) (pending Examples3.blocked3 s)))
               (last (filter (λ u, u ≠ 7%positive) (pending Examples3.blocked3 s)))
               (apply_position e (surface_of Examples3.blocked3 s))
         | None => surface_of Examples3.blocked3 s
         end.
Proof.
  apply (apply_advances_surfaces 7 META_WAYLAND_TRANSACTION_NONE
           Examples3.blocked3 [] Examples5.queued7).
  - exact blocked3_inv.
  - exact blocked3_quiescent.
  - intros u Hu. by apply elem_of_nil in Hu.
  - reflexivity.
  - apply (bool_decide_unpack _). by vm_compute.
  - exact blocked3_ready7.
Defined.

Lemma apply_trace_witness :
  (∃ σ' c',
     apply_in_order 7 META_WAYLAND_TRANSACTION_NONE
       (reverse (g_hash_table_get_keys_as_array (entries Examples5.queued7)))
       Examples3.blocked3 = Ok (σ', c') ∧
     trace σ' =
       trace Examples3.blocked3
         ++ EvApply 7
         :: first_pass_events Examples5.queued7
              (reverse (g_hash_table_get_keys_as_array (entries Examples5.queued7)))
         ++ second_pass_events Examples5.queued7
              (reverse (g_hash_table_get_keys_as_array (entries Examples5.queued7)))) ∧
  ∃ sorted0,
    sorted0 ≡ₚ g_hash_table_get_keys_as_array (entries Examples5.queued7) ∧
    meta_wayland_transaction_apply 7 META_WAYLAND_TRANSACTION_NONE
      Examples3.blocked3 =
    apply_in_order 7 META_WAYLAND_TRANSACTION_NONE sorted0 Examples3.blocked3.
Proof.
  apply (apply_trace 7 META_WAYLAND_TRANSACTION_NONE
           Examples3.blocked3 [] Examples5.queued7).
  - exact blocked3_inv.
  - exact blocked3_quiescent.
  - intros u Hu. by apply elem_of_nil in Hu.
  - reflexivity.
  - apply (bool_decide_unpack _). by vm_compute.
  - exact blocked3_ready7.
  - apply reverse_Permutation.
Defined.

End ApplyEffects.

(** ** Invariants of rounds and of runs *)

Module Rounds.
Import Chain Pending Apply Cascade CandidateChain.

Section Heads.
Variable J : Compositor → Txn → Prop.
Variable Q : Compositor → Prop.

(** [J] holds at the next loop head when it holds at this one, and [Q]
    holds when the round was the last one. *)
Hypothesis Hnext : ∀ σ t c l σ1 t' r',
  head_ok σ t c l → J σ t →
  meta_wayland_transaction_maybe_apply_one t c σ = Ok (σ1, CandPtr t') →
  transactions σ1 !! t' = Some r' →
  J (store_transaction t' (set_next_candidate CandNull r') σ1) t'.
Hypothesis Hlast : ∀ σ t c l σ1,
  head_ok σ t c l → J σ t →
  meta_wayland_transaction_maybe_apply_one t c σ
    = Ok (σ1, META_WAYLAND_TRANSACTION_NONE) →
  Q σ1.

Lemma cascade_head_keeps σ0 t0 σ t c :
  engine_inv σ0 → quiescent σ0 → t0 ∈ committed_queue σ0 → J σ0 t0 →
  cascade_head σ0 t0 σ t c → J σ t.
Proof.
  intros Hinv Hquiet Ht0 HJ. induction 1 as [|σ t c σ1 t' r' Hhead IH Hrun Hr'];
    [done|].
  destruct (cascade_head_ok _ _ _ _ _ Hinv Hquiet Ht0 Hhead) as [l Hl].
  by eapply Hnext.
Qed.

(** A cascade that returns ends with a round that leaves no candidate. *)
Lemma cascade_end σ0 t0 n :
  ∀ σ t c σ',
    maybe_apply_loop n t c σ = Ok σ' →
    cascade_head σ0 t0 σ t c →
    ∃ σl tl cl,
      cascade_head σ0 t0 σl tl cl ∧
      meta_wayland_transaction_maybe_apply_one tl cl σl
        = Ok (σ', META_WAYLAND_TRANSACTION_NONE).
Proof.
  induction n as [|n IH]; intros σ t c σ' Hrun Hhead; [done|].
  cbn [maybe_apply_loop] in Hrun.
  destruct (meta_wayland_transaction_maybe_apply_one t c σ)
    as [[σ1 c1]| |] eqn:Hone; try done.
  cbn [mbind result_mbind result_bind] in Hrun.
  destruct c1 as [| |t']; [done| |].
  - simplify_eq. by exists σ, t, c.
  - unfold transaction_of in Hrun.
    destruct (transactions σ1 !! t') as [r'|] eqn:Hr'; [|done].
    cbn [deref mbind result_mbind result_bind] in Hrun.
    eapply IH; [done|]. by eapply head_next.
Qed.

Lemma cascade_final fuel σ0 t0 σ' :
  engine_inv σ0 → quiescent σ0 → t0 ∈ committed_queue σ0 → J σ0 t0 →
  meta_wayland_transaction_maybe_apply fuel t0 σ0 = Ok σ' →
  Q σ'.
Proof.
  intros Hinv Hquiet Ht0 HJ Hrun.
  destruct (cascade_end σ0 t0 fuel σ0 t0 META_WAYLAND_TRANSACTION_NONE σ' Hrun)
    as (σl & tl & cl & Hhead & Hone); [constructor|].
  destruct (cascade_head_ok _ _ _ _ _ Hinv Hquiet Ht0 Hhead) as [l Hl].
  eapply Hlast; [done| |done]. by eapply cascade_head_keeps.
Qed.

End Heads.

Section Runs.
Variable P : nat → Compositor → Prop.

(** [P], indexed by the number of commits so far, is kept by a commit and
    by a call of the engine on a queued transaction. *)
Hypothesis Hcommit : ∀ k fuel t σ r σ',
  engine_inv σ → quiescent σ →
  transactions σ !! t = Some r → t ∉ committed_queue σ →
  P k σ → meta_wayland_transaction_commit fuel t σ = Ok σ' → P (S k) σ'.
Hypothesis Hcascade : ∀ k fuel t σ σ',
  engine_inv σ → quiescent σ → t ∈ committed_queue σ →
  P k σ → meta_wayland_transaction_maybe_apply fuel t σ = Ok σ' → P k σ'.

Lemma run_steps_keeps tx0 fuel steps :
  ∀ k order σ,
    engine_inv σ → quiescent σ → order_inv tx0 order σ →
    NoDup (commits steps) →
    (∀ t, t ∈ commits steps → t ∉ order ∧ is_Some (tx0 !! t)) →
    (commit_fuel (length order + length (commits steps)) ≤ fuel)%nat →
    P k σ →
    ∃ σ', run_steps fuel steps σ = Ok σ' ∧
          engine_inv σ' ∧ quiescent σ' ∧
          order_inv tx0 (order ++ commits steps) σ' ∧
          P (k + length (commits steps)) σ'.
Proof.
  induction steps as [|step steps IH];
    intros k order σ Hinv Hquiet Hord Hnd Hts Hfuel HP.
  { exists σ. simpl. rewrite app_nil_r, Nat.add_0_r. by split_and!. }
  assert (commits (step :: steps) = commits [step] ++ commits steps) as Ec
    by by destruct step.
  rewrite Ec in *. apply NoDup_app in Hnd as (Hnd1 & Hdisj & Hnd2).
  destruct (run_steps_spec tx0 fuel [step] order σ)
    as (σ1 & Hrun1 & Hinv1 & Hquiet1 & Hord1); try done.
  { intros t Ht. apply Hts, elem_of_app. by left. }
  { rewrite length_app in Hfuel. unfold commit_fuel, cascade_measure in *. nia. }
  cbn [run_steps] in Hrun1 |- *.
  destruct (run_step fuel step σ) as [σ1'| |] eqn:Hstep; try done.
  cbn [mbind result_mbind result_bind] in Hrun1 |- *. simplify_eq.
  assert (P (k + length (commits [step])) σ1) as HP1.
  { destruct step as [t|t]; cbn [run_step] in Hstep.
    - destruct (Hts t) as [Hto Hlive]; [left|].
      destruct (live_outside tx0 order σ t Hord Hto Hlive) as [r Hr].
      replace (k + length (commits [DoCommit t]))%nat with (S k) by (simpl; lia).
      apply (Hcommit k fuel t σ r σ1); try done.
      intros Hx. apply Hto. eapply elem_of_sublist; [done|]. by destruct Hord.
    - replace (k + length (commits [DoMaybeApply t]))%nat with k by (simpl; lia).
      case_decide; [|by simplify_eq]. by apply (Hcascade k fuel t σ σ1). }
  destruct (IH (k + length (commits [step]))%nat (order ++ commits [step]) σ1)
    as (σ' & Hrun' & ? & ? & Hord' & HP'); try done.
  - intros u Hu. destruct (Hts u) as [Huo Hul]; [apply elem_of_app; by right|].
    split; [|done]. rewrite not_elem_of_app. split; [done|].
    intros Hx. by apply (Hdisj u).
  - rewrite !length_app in *. by rewrite <- Nat.add_assoc.
  - exists σ'. rewrite <- app_assoc in Hord'. rewrite length_app, Nat.add_assoc.
    by split_and!.
Qed.

End Runs.

End Rounds.

(** ** Runs: the invariant of the engine and the sequence numbers *)

Module EngineRuns.
Import Chain Pending Apply Cascade CandidateChain Rounds.

(** X16.  From a state in which the engine is in order, no cascade is
    running and nothing was applied yet, every run of commits of live,
    not yet committed transactions and of calls of the engine on queued
    transactions returns, given the fuel its cascades need.  Afterwards the
    queue holds live, committed transactions, each once, and is a
    subsequence of the transactions in commit order; every surface records
    as [first_committed] and [last_committed] the first and the last
    queued transaction that holds an entry for it; every [next_candidate]
    is NULL again; and every committed transaction is still queued or was
    applied. *)
Theorem runs_keep_engine_in_order (fuel : nat) (steps : list EngineStep)
    (σ0 : Compositor) :
  engine_inv σ0 →
  quiescent σ0 →
  applied (trace σ0) = [] →
  NoDup (commits steps) →
  (∀ t, t ∈ commits steps → t ∉ committed_queue σ0 ∧ is_Some (transactions σ0 !! t)) →
  (commit_fuel (length (committed_queue σ0) + length (commits steps)) ≤ fuel)%nat →
  ∃ σ',
    run_steps fuel steps σ0 = Ok σ' ∧
    NoDup (committed_queue σ') ∧
    queue_committed σ' ∧
    committed_queue σ' `sublist_of` (committed_queue σ0 ++ commits steps) ∧
    (∀ s, first_committed (surface_of σ' s) = head (pending σ' s) ∧
          last_committed (surface_of σ' s) = last (pending σ' s)) ∧
    (∀ t r, transactions σ' !! t = Some r → next_candidate r = CandNull) ∧
    (∀ u, u ∈ committed_queue σ0 ++ commits steps →
          u ∈ committed_queue σ' ∨ u ∈ applied (trace σ')).
Proof.
  intros Hinv Hquiet Htr Hnd Hts Hfuel.
  destruct (run_steps_spec (transactions σ0) fuel steps (committed_queue σ0) σ0)
    as (σ' & Hrun & [H1 H2 H3 H4] & Hq' & Hord); try done.
  { by apply order_inv_init. }
  exists σ'. split_and!; try done.
  - by destruct Hord.
  - intros s. pose proof (H3 s) as Hc. unfold chain_of, ends in Hc.
    by injection Hc as -> ->.
  - intros t r Hr. apply (chain_rest_null _ _ _ Hq' t r Hr). apply not_elem_of_nil.
  - by destruct Hord.
Qed.

Lemma runs_keep_engine_in_order_witness :
  ∃ σ',
    run_steps 21 Examples3.run3 Examples3.blocked3 = Ok σ' ∧
    NoDup (committed_queue σ') ∧
    queue_committed σ' ∧
    committed_queue σ' `sublist_of`
      (committed_queue Examples3.blocked3 ++ commits Examples3.run3) ∧
    (∀ s, first_committed (surface_of σ' s) = head (pending σ' s) ∧
          last_committed (surface_of σ' s) = last (pending σ' s)) ∧
    (∀ t r, transactions σ' !! t = Some r → next_candidate r = CandNull) ∧
    (∀ u, u ∈ committed_queue Examples3.blocked3 ++ commits Examples3.run3 →
          u ∈ committed_queue σ' ∨ u ∈ applied (trace σ')).
Proof.
  apply (runs_keep_engine_in_order 21 Examples3.run3 Examples3.blocked3).
  - exact blocked3_inv.
  - exact blocked3_quiescent.
  - reflexivity.
  - apply (bool_decide_unpack _). by vm_compute.
  - intros t Ht. simpl in Ht. apply list_elem_of_singleton in Ht as ->.
    split; [|by eexists]. simpl. intros Hx.
    repeat (apply elem_of_cons in Hx as [Hx|Hx]; [discriminate Hx|]).
    by apply elem_of_nil in Hx.
  - vm_compute. lia.
Defined.

(** *** Sequence numbers *)

Lemma seq_of_txn_data tx u : seq_of (txn_data tx) u = seq_of tx u.
Proof.
  unfold seq_of, txn_data. rewrite lookup_fmap. by destruct (tx !! u).
Qed.

Lemma seq_of_lookup tx tx' u :
  txn_data tx' !! u = txn_data tx !! u → seq_of tx' u = seq_of tx u.
Proof.
  intros H. rewrite <- (seq_of_txn_data tx'), <- (seq_of_txn_data tx).
  unfold seq_of. by rewrite H.
Qed.

Lemma data_frame_refl σ : data_frame σ σ.
Proof. by split_and!. Qed.

Lemma data_frame_trans σ1 σ2 σ3 :
  data_frame σ1 σ2 → data_frame σ2 σ3 → data_frame σ1 σ3.
Proof.
  intros (Hq1 & Hd1 & Hc1) (Hq2 & Hd2 & Hc2). split_and!.
  - by etrans.
  - intros u Hu. rewrite (Hd2 u Hu). apply Hd1. by eapply elem_of_sublist.
  - congruence.
Qed.

Lemma data_frame_store σ t r c :
  transactions σ !! t = Some r →
  data_frame σ (store_transaction t (set_next_candidate c r) σ).
Proof.
  intros Hr. split_and!; [done| |done]. intros u _. simpl.
  by rewrite txn_data_insert.
Qed.

(** One round keeps the queued transactions as they are. *)
Lemma round_frame σ t c l σ1 c1 :
  head_ok σ t c l →
  meta_wayland_transaction_maybe_apply_one t c σ = Ok (σ1, c1) →
  data_frame σ σ1.
Proof.
  intros (Hinv & Hok & Hl & Htl & Htq) Hrun.
  destruct (inv_committed σ Hinv t Htq) as (r & Hr & _).
  unfold meta_wayland_transaction_maybe_apply_one in Hrun.
  destruct (has_unapplied_dependencies_Ok σ t r Hr) as [b Hb]. rewrite Hb in Hrun.
  cbn [mbind result_mbind result_bind] in Hrun. destruct b.
  - simplify_eq. apply data_frame_refl.
  - destruct (apply_spec t c σ l r) as
      (σ1' & c1' & l1 & Hrun' & _ & _ & _ & _ & Hq & Hd & Hc & _); try done.
    { intros u Hu. split; [by apply Hl|]. by intros ->. }
    rewrite Hrun in Hrun'. simplify_eq. split_and!; [| |done].
    + rewrite Hq. apply sublist_filter.
    + intros u Hu. rewrite Hq in Hu. apply list_elem_of_filter in Hu as [Hne _].
      rewrite Hd. by rewrite lookup_delete_ne.
Qed.

(** A cascade keeps the queued transactions as they are. *)
Lemma cascade_data_frame fuel σ0 t0 σ' :
  engine_inv σ0 → quiescent σ0 → t0 ∈ committed_queue σ0 →
  meta_wayland_transaction_maybe_apply fuel t0 σ0 = Ok σ' →
  data_frame σ0 σ'.
Proof.
  intros Hinv Hquiet Ht0 Hrun.
  refine (cascade_final (λ σ _, data_frame σ0 σ) (data_frame σ0) _ _
            fuel σ0 t0 σ' Hinv Hquiet Ht0 _ Hrun).
  - intros σ t c l σ1 t' r' Hhead HJ Hone Hr'.
    eapply data_frame_trans; [exact HJ|].
    eapply data_frame_trans; [by eapply round_frame|].
    by apply data_frame_store.
  - intros σ t c l σ1 Hhead HJ Hone.
    eapply data_frame_trans; [exact HJ|]. by eapply round_frame.
  - apply data_frame_refl.
Qed.

Lemma sorted_sublist {A} (R : A → A → Prop) (l k : list A) :
  l `sublist_of` k → StronglySorted R k → StronglySorted R l.
Proof.
  induction 1 as [|x l1 l2 Hsub IH|x l1 l2 Hsub IH]; intros Hs; [done| |].
  - apply StronglySorted_cons in Hs as [Hx Hs].
    apply StronglySorted_cons. split; [|by apply IH].
    rewrite Forall_forall in Hx |- *. intros y Hy. apply Hx.
    by eapply elem_of_sublist.
  - apply StronglySorted_cons in Hs as [_ Hs]. by apply IH.
Qed.

Lemma sorted_ext {A} (R R' : A → A → Prop) (l : list A) :
  (∀ a b, a ∈ l → b ∈ l → R a b → R' a b) →
  StronglySorted R l → StronglySorted R' l.
Proof.
  induction l as [|x l IH]; intros HR Hs; [constructor|].
  apply StronglySorted_cons in Hs as [Hx Hs]. apply StronglySorted_cons. split.
  - rewrite Forall_forall in Hx |- *. intros y Hy.
    apply HR; [left|by right|by apply Hx].
  - apply IH; [|done]. intros a b Ha Hb. apply HR; by right.
Qed.

Lemma queue_ascending_frame σ0 σ :
  data_frame σ0 σ → queue_ascending σ0 → queue_ascending σ.
Proof.
  intros (Hq & Hd & Hc) [Hs Hf]. split.
  - eapply sorted_ext; [|by eapply sorted_sublist].
    intros a b Ha Hb. cbn beta.
    by rewrite (seq_of_lookup _ _ a (Hd a Ha)), (seq_of_lookup _ _ b (Hd b Hb)).
  - rewrite Forall_forall in Hf |- *. intros u Hu.
    rewrite (seq_of_lookup _ _ u (Hd u Hu)), Hc. apply Hf.
    by eapply elem_of_sublist.
Qed.

(** What the part of commit before the final [if] leaves. *)
Lemma commit_register_effects t σ r :
  transactions σ !! t = Some r →
  let seq := (committed_sequence_counter σ + 1) `mod` 2 ^ 64 in
  ∃ σ1 flag,
    commit_register t σ = Ok (σ1, flag) ∧
    committed_queue σ1 = committed_queue σ ++ [t] ∧
    transactions σ1 = <[t := set_committed seq r]> (transactions σ) ∧
    committed_sequence_counter σ1 = seq ∧
    trace σ1 = trace σ ∧
    (flag = true ↔
     ∀ s, is_Some (entries r !! s) → first_committed (surface_of σ s) = None) ∧
    ∀ s, surface_of σ1 s =
         if decide (is_Some (entries r !! s))
         then set_committed_chain
                (Some (default t (first_committed (surface_of σ s)))) (Some t)
                (surface_of σ s)
         else surface_of σ s.
Proof.
  intros Hr seq. unfold commit_register, transaction_of.
  rewrite Hr. cbn [deref mbind result_mbind result_bind]. fold seq.
  set (σ2 := set_committed_queue _ _).
  destruct (Commit.commit_surfaces_spec t (g_hash_table_get_keys_as_array (entries r))
              σ2 true (keys_NoDup _)) as (Hflag & Htx & Hq & Hc & Htr & Hsf).
  destruct (foldl (commit_surface t) (σ2, true) _) as [σ1 flag] eqn:Efold.
  cbn [fst snd] in *. exists σ1, flag. split_and!; try done.
  - rewrite Hflag. simpl. rewrite forallb_forall. split.
    + intros H s Hs. specialize (H s ltac:(by apply list_elem_of_In, elem_of_keys)).
      by apply bool_decide_eq_true in H.
    + intros H s Hs. apply bool_decide_eq_true.
      change (surface_of σ2 s) with (surface_of σ s).
      by apply H, elem_of_keys, list_elem_of_In.
  - intros s. rewrite Hsf. change (surface_of σ2 s) with (surface_of σ s).
    destruct (decide (is_Some (entries r !! s))) as [He|He].
    + by rewrite decide_True by by apply elem_of_keys.
    + by rewrite decide_False by by rewrite elem_of_keys.
Qed.

Section NoWrap.
Variable c0 : Z.
Variable N : nat.
Hypothesis Hc0 : 0 ≤ c0.
Hypothesis HN : c0 + Z.of_nat N < 2 ^ 64.

Lemma ascending_commit k fuel t σ r σ' :
  engine_inv σ → quiescent σ →
  transactions σ !! t = Some r → t ∉ committed_queue σ →
  ascending_after c0 N k σ →
  meta_wayland_transaction_commit fuel t σ = Ok σ' →
  ascending_after c0 N (S k) σ'.
Proof.
  intros Hinv Hquiet Hr Htq HP Hrun Hk.
  destruct HP as [[Hs Hf] Hc]; [lia|].
  destruct (commit_register_spec t σ r Hinv Hquiet Hr Htq)
    as (σ1 & flag & Hreg & Hinv1 & Hquiet1 & _).
  destruct (commit_register_effects t σ r Hr)
    as (σ1' & flag' & Hreg' & Hq1 & Htx1 & Hc1 & _).
  rewrite Hreg in Hreg'. simplify_eq.
  assert ((committed_sequence_counter σ + 1) `mod` 2 ^ 64 = c0 + Z.of_nat (S k)) as Hseq.
  { rewrite Hc. rewrite Z.mod_small by lia. lia. }
  rewrite Hseq in Hc1, Htx1.
  assert (∀ u, u ∈ committed_queue σ →
               seq_of (transactions σ1') u = seq_of (transactions σ) u) as Hsame.
  { intros u Hu. unfold seq_of. rewrite Htx1, lookup_insert_ne; [done|].
    by intros ->. }
  assert (seq_of (transactions σ1') t = c0 + Z.of_nat (S k)) as Hseqt.
  { unfold seq_of. by rewrite Htx1, lookup_insert_eq. }
  assert (queue_ascending σ1') as Hasc1.
  { rewrite Forall_forall in Hf. split.
    - rewrite Hq1. apply StronglySorted_app. split_and!.
      + intros u v Hu Hv. apply list_elem_of_singleton in Hv as ->.
        rewrite Hsame, Hseqt by done. specialize (Hf u Hu). lia.
      + eapply sorted_ext; [|exact Hs]. intros a b Ha Hb. cbn beta.
        by rewrite !Hsame.
      + repeat constructor.
    - rewrite Hq1, Forall_forall. intros u Hu. rewrite Hc1.
      apply elem_of_app in Hu as [Hu|Hu].
      + rewrite Hsame by done. specialize (Hf u Hu). lia.
      + apply list_elem_of_singleton in Hu as ->. lia. }
  unfold meta_wayland_transaction_commit in Hrun. rewrite Hreg in Hrun.
  cbn [mbind result_mbind result_bind] in Hrun.
  destruct flag'; [|by simplify_eq].
  assert (data_frame σ1' σ') as Hframe.
  { eapply cascade_data_frame; [done|done| |done].
    rewrite Hq1. apply elem_of_app. right. left. }
  split; [by eapply queue_ascending_frame|].
  destruct Hframe as (_ & _ & ->). done.
Qed.

Lemma ascending_cascade k fuel t σ σ' :
  engine_inv σ → quiescent σ → t ∈ committed_queue σ →
  ascending_after c0 N k σ →
  meta_wayland_transaction_maybe_apply fuel t σ = Ok σ' →
  ascending_after c0 N k σ'.
Proof.
  intros Hinv Hquiet Htq HP Hrun Hk. destruct (HP Hk) as [Hasc Hc].
  pose proof (cascade_data_frame fuel σ t σ' Hinv Hquiet Htq Hrun) as Hframe.
  split; [by eapply queue_ascending_frame|].
  destruct Hframe as (_ & _ & ->). done.
Qed.

End NoWrap.

(** X17.  As long as the counter of commit does not wrap, the committed
    queue ascends strictly by [committed_sequence]: from a state in order
    in which it does, with a counter that is not negative and that the
    commits of the run keep below 2^64, every run of commits and of calls
    of the engine returns in a state in which the queue ascends strictly
    by sequence number, no queued transaction has a sequence number above
    the counter, and the counter has advanced by the number of commits. *)
Theorem sequence_numbers_ascend (fuel : nat) (steps : list EngineStep)
    (σ0 : Compositor) :
  engine_inv σ0 →
  quiescent σ0 →
  applied (trace σ0) = [] →
  NoDup (commits steps) →
  (∀ t, t ∈ commits steps → t ∉ committed_queue σ0 ∧ is_Some (transactions σ0 !! t)) →
  (commit_fuel (length (committed_queue σ0) + length (commits steps)) ≤ fuel)%nat →
  queue_ascending σ0 →
  0 ≤ committed_sequence_counter σ0 →
  committed_sequence_counter σ0 + Z.of_nat (length (commits steps)) < 2 ^ 64 →
  ∃ σ',
    run_steps fuel steps σ0 = Ok σ' ∧
    queue_ascending σ' ∧
    committed_sequence_counter σ' =
      committed_sequence_counter σ0 + Z.of_nat (length (commits steps)).
Proof.
  intros Hinv Hquiet Htr Hnd Hts Hfuel Hasc Hc0 HN.
  destruct (run_steps_keeps
              (ascending_after (committed_sequence_counter σ0)
                 (length (commits steps)))
              (ascending_commit _ _ Hc0 HN) (ascending_cascade _ _)
              (transactions σ0) fuel steps 0%nat (committed_queue σ0) σ0)
    as (σ' & Hrun & _ & _ & _ & HP); try done.
  { by apply order_inv_init. }
  { intros _. split; [done|]. lia. }
  exists σ'. split; [done|]. by apply HP.
Qed.

Lemma blocked3_ascending : queue_ascending Examples3.blocked3.
Proof.
  split.
  - repeat (apply StronglySorted_cons; split); try constructor;
      repeat constructor; by vm_compute.
  - repeat constructor; by vm_compute.
Qed.

Lemma sequence_numbers_ascend_witness :
  ∃ σ',
    run_steps 21 Examples3.run3 Examples3.blocked3 = Ok σ' ∧
    queue_ascending σ' ∧
    committed_sequence_counter σ' =
      committed_sequence_counter Examples3.blocked3
      + Z.of_nat (length (commits Examples3.run3)).
Proof.
  apply (sequence_numbers_ascend 21 Examples3.run3 Examples3.blocked3).
  - exact blocked3_inv.
  - exact blocked3_quiescent.
  - reflexivity.
  - apply (bool_decide_unpack _). by vm_compute.
  - intros t Ht. simpl in Ht. apply list_elem_of_singleton in Ht as ->.
    split; [|by eexists]. simpl. intros Hx.
    repeat (apply elem_of_cons in Hx as [Hx|Hx]; [discriminate Hx|]).
    by apply elem_of_nil in Hx.
  - vm_compute. lia.
  - exact blocked3_ascending.
  - by vm_compute.
  - by vm_compute.
Defined.

End EngineRuns.

(** ** Nothing that is ready is left in the queue *)

Module Settling.
Import Chain Pending Apply Cascade CandidateChain Rounds ApplyEffects EngineRuns.

Lemma has_unapplied_frame σ σ' u :
  (∀ s, first_committed (surface_of σ' s) = first_committed (surface_of σ s)) →
  txn_data (transactions σ') !! u = txn_data (transactions σ) !! u →
  has_unapplied_dependencies u σ' = has_unapplied_dependencies u σ.
Proof.
  intros Hf Hd. unfold has_unapplied_dependencies, transaction_of.
  unfold txn_data in Hd. rewrite !lookup_fmap in Hd.
  destruct (transactions σ' !! u) as [r'|], (transactions σ !! u) as [r|];
    simpl in Hd; try done.
  assert (erase_next r' = erase_next r) as He by congruence.
  apply erase_next_fields in He as (He & _).
  cbn [deref mbind result_mbind result_bind]. rewrite He. f_equal.
  apply existsb_ext_elem. intros s _. by rewrite Hf.
Qed.

Lemma marked_chain σ c l u :
  chain_ok (transactions σ) c l → is_Some (transactions σ !! u) →
  marked σ u ↔ u ∈ l.
Proof.
  intros Hok [r Hr]. rewrite (chain_ok_member _ _ _ u r Hok Hr). unfold marked.
  split; [|by eauto]. intros (r' & Hr' & H). by simplify_eq.
Qed.

(** The round of the first loop of apply on one surface: the
    transaction that becomes [first_committed] of the surface is marked as
    a candidate, and the other surfaces keep their [first_committed]. *)
Lemma apply_surface_marks t r σ c l states s σ' c' states' :
  chain_ok (transactions σ) c l →
  first_committed (surface_of σ s) = Some t →
  apply_surface t r (σ, c, states) s = Ok (σ', c', states') →
  (∀ u, first_committed (surface_of σ' s) = Some u → u ≠ t → marked σ' u) ∧
  (∀ s', s' ≠ s →
         first_committed (surface_of σ' s') = first_committed (surface_of σ s')).
Proof.
  intros Hok Hfirst. unfold apply_surface, meta_wayland_transaction_get_entry.
  destruct (entries r !! s) as [e|]; [|done].
  cbn [deref mbind result_mbind result_bind].
  destruct (apply_entry_frame s e σ) as (Hf2 & Htx2 & Hch2).
  set (σ2 := match state e with Some _ => _ | None => _ end) in *.
  assert (∀ s', first_committed (surface_of σ2 s') = first_committed (surface_of σ s'))
    as Hfirst2.
  { intros s'. pose proof (Hch2 s') as H. unfold chain_of in H. congruence. }
  case_decide as Hl2.
  - intros H. simplify_eq. split.
    + intros u Hu. rewrite surface_of_update, decide_True in Hu by done. done.
    + intros s' Hne. rewrite surface_of_update, decide_False by done. apply Hfirst2.
  - destruct (find_next_transaction_for_surface t s σ2) as [[next|]| |]; try done.
    + cbn [mbind result_mbind result_bind].
      set (σ3 := update_surface s _ σ2).
      destruct (ensure_next_candidate next c σ3) as [[σ4 c4]| |] eqn:Hens; try done.
      cbn [mbind result_mbind result_bind]. intros H.
      injection H as Hσ Hc Hst. subst σ' c' states'.
      assert (transactions σ3 = transactions σ) as Htx3 by done.
      assert (∃ rn, transactions σ !! next = Some rn) as [rn Hrn].
      { unfold ensure_next_candidate, transaction_of in Hens. rewrite Htx3 in Hens.
        destruct (transactions σ !! next); [by eauto|done]. }
      destruct (ensure_next_candidate_spec next c σ3 l rn)
        as (σ4' & c'' & l' & Hens' & Hok4 & Hsame & Hin & Hnin);
        [by rewrite Htx3|by rewrite Htx3|].
      rewrite Hens in Hens'. injection Hens' as <- <-.
      assert (next ∈ l') as Hnext.
      { destruct (decide (next ∈ l)) as [Hnl|Hnl].
        - by destruct (Hin Hnl) as (-> & _).
        - destruct (Hnin Hnl) as (l1 & l2 & -> & -> & _).
          apply elem_of_app. right. left. }
      destruct Hsame as (Hsf & _).
      assert (∀ s', surface_of σ4 s' = surface_of σ3 s') as Hsf4.
      { intros s'. unfold surface_of. by rewrite Hsf. }
      split.
      * intros u Hu Hne. rewrite Hsf4 in Hu. subst σ3.
        rewrite surface_of_update, decide_True in Hu by done. simpl in Hu.
        simplify_eq. apply (marked_chain σ4 c4 l'); [done| |done].
        by eapply chain_ok_live.
      * intros s' Hne. rewrite Hsf4. subst σ3.
        rewrite surface_of_update, decide_False by done. apply Hfirst2.
    + cbn [mbind result_mbind result_bind]. intros H. simplify_eq. split.
      * intros u Hu Hne. rewrite Hfirst2 in Hu. congruence.
      * intros s' _. apply Hfirst2.
Qed.

Lemma apply_surfaces_cover t r todo :
  ∀ σ c l states done σ' c' states',
    NoDup (committed_queue σ) →
    queue_committed σ →
    chains_during t done σ →
    chain_ok (transactions σ) c l →
    (∀ u, u ∈ l → u ∈ committed_queue σ ∧ u ≠ t) →
    transactions σ !! t = Some r →
    NoDup todo →
    (∀ s, s ∈ todo →
          s ∉ done ∧ is_Some (entries r !! s) ∧ head (pending σ s) = Some t) →
    candidates_cover σ t →
    apply_surfaces t r (σ, c, states) todo = Ok (σ', c', states') →
    candidates_cover σ' t.
Proof.
  induction todo as [|s todo IH];
    intros σ c l states done σ' c' states' Hnd Hcom Hch Hok Hl Ht Hndt Htodo Hcov Hrun.
  { cbn in Hrun. by simplify_eq. }
  apply NoDup_cons in Hndt as [Hs Hndt].
  destruct (Htodo s) as (Hsd & [e He] & Hhead); [left|].
  assert (first_committed (surface_of σ s) = Some t) as Hfirst.
  { pose proof (Hch s) as Hc. rewrite decide_False in Hc by done.
    unfold chain_of, ends in Hc. congruence. }
  destruct (apply_surface_spec t r σ c l states done s e)
    as (σ1 & c1 & l1 & Hrun1 & Hf1 & Hch1 & Hok1 & Hl1 & Ht1 & Hsub1); try done.
  cbn [apply_surfaces] in Hrun. rewrite Hrun1 in Hrun.
  cbn [mbind result_mbind result_bind] in Hrun.
  destruct (apply_surface_marks t r σ c l states s σ1 c1 _ Hok Hfirst Hrun1)
    as [Hmark Hother].
  pose proof Hf1 as [Hq1 Hd1 _ _ _].
  eapply (IH σ1 c1 l1 _ (s :: done)); try done.
  { by rewrite Hq1. }
  { by eapply queue_committed_frame. }
  { intros s' Hs'. destruct (Htodo s') as (Hsd' & He' & Hhead'); [by right|].
    split_and!; [|done|].
    - rewrite not_elem_of_cons. split; [|done]. by intros ->.
    - by rewrite (pending_frame σ σ1). }
  intros u Hu Hne Hready. rewrite Hq1 in Hu.
  destruct (Hcom u Hu) as (ru & Hru & _).
  destruct (txn_data_lookup _ _ u ru Hd1 Hru) as (ru1 & Hru1 & Heq).
  apply erase_next_fields in Heq as (Hent & _).
  rewrite (ready_spec σ1 u ru1 Hru1) in Hready.
  destruct (entries ru !! s) as [eu|] eqn:Heu.
  - apply Hmark; [|done]. apply Hready. rewrite Hent, Heu. by eexists.
  - apply (marked_chain σ1 c1 l1); [done|by eexists|].
    apply Hsub1. apply (marked_chain σ c l); [done|by eexists|].
    apply Hcov; [done|done|]. apply (ready_spec σ u ru Hru). intros s' Hs'.
    assert (s' ≠ s) as Hne' by (intros ->; rewrite Heu in Hs'; by destruct Hs').
    rewrite <- Hother by done. apply Hready. by rewrite Hent.
Qed.

(** Apply leaves every ready queued transaction marked. *)
Lemma apply_cover t c σ l r σ' c' :
  engine_inv σ →
  chain_ok (transactions σ) c l →
  (∀ u, u ∈ l → u ∈ committed_queue σ ∧ u ≠ t) →
  transactions σ !! t = Some r →
  t ∈ committed_queue σ →
  ready σ t →
  candidates_cover σ t →
  meta_wayland_transaction_apply t c σ = Ok (σ', c') →
  ∀ u, u ∈ committed_queue σ' → ready σ' u → marked σ' u.
Proof.
  intros [Hnd Hcom Hchain Hwf] Hok Hl Ht Htq Hready Hcov Hrun.
  rewrite (ready_spec σ t r Ht) in Hready.
  unfold meta_wayland_transaction_apply, transaction_of in Hrun.
  change (transactions (emit (EvApply t) σ)) with (transactions σ) in Hrun.
  change (surfaces (emit (EvApply t) σ)) with (surfaces σ) in Hrun.
  rewrite Ht in Hrun. cbn [deref mbind result_mbind result_bind] in Hrun.
  destruct (ForestUpdate.qsort_total
              (Forest.meta_wayland_transaction_compare (surfaces σ))
              (g_hash_table_get_keys_as_array (entries r)))
    as (sorted & Hsort & Hperm).
  { intros a b. by apply ForestUpdate.compare_total. }
  rewrite Hsort in Hrun. cbn [returns mbind result_mbind result_bind] in Hrun.
  set (σ0 := emit (EvApply t) σ) in *.
  assert (∀ s, s ∈ sorted ↔ is_Some (entries r !! s)) as Hsorted.
  { intros s. by rewrite Hperm, elem_of_keys. }
  assert (∀ s, s ∈ sorted →
               s ∉ [] ∧ is_Some (entries r !! s) ∧ head (pending σ0 s) = Some t)
    as Htodo.
  { intros s Hs. apply Hsorted in Hs. split_and!; [apply not_elem_of_nil|done|].
    pose proof (Hchain s) as Hc. unfold chain_of, ends in Hc.
    change (pending σ0 s) with (pending σ s). specialize (Hready s Hs). congruence. }
  assert (NoDup sorted) as Hnds by (rewrite Hperm; apply keys_NoDup).
  destruct (apply_surfaces_spec t r sorted σ0 c l [] [])
    as (σ1 & c1 & l1 & states & done' & Hloop & Hf1 & Hch1 & Hdone & Hok1 & Hl1 & Ht1 & Hsub);
    try done.
  assert (candidates_cover σ1 t) as Hcov1.
  { by eapply (apply_surfaces_cover t r sorted σ0 c l [] []). }
  rewrite Hloop in Hrun. cbn [mbind result_mbind result_bind] in Hrun.
  destruct (sync_pass_frame sorted states σ1) as (Hf2 & Hsf2 & Htx2).
  set (σ2 := sync_child_states_pass sorted states σ1) in *.
  destruct (Hcom t Htq) as (r0 & Hr0 & Hnode). simplify_eq.
  rewrite (Teardown.free_Ok t σ2 r) in Hrun by by rewrite Htx2.
  cbn [mbind result_mbind result_bind] in Hrun. rewrite Hnode in Hrun.
  simplify_eq. cbn [committed_queue].
  intros u Hu Hru. apply Teardown.g_queue_unlink_elem in Hu as [Hu Hne].
  assert (committed_queue σ2 = committed_queue σ1) as Hq2 by by destruct Hf2.
  rewrite Hq2 in Hu.
  assert (marked σ1 u) as (ru & Hru1 & Hn).
  { apply Hcov1; [done|done|]. unfold ready in *. rewrite <- Hru.
    symmetry. apply has_unapplied_frame.
    - intros s. unfold surface_of. cbn [surfaces]. by rewrite Hsf2.
    - cbn [transactions]. unfold txn_data. rewrite Htx2, fmap_delete.
      by rewrite lookup_delete_ne. }
  exists ru. split; [|done]. cbn [transactions].
  rewrite Htx2. by rewrite lookup_delete_ne.
Qed.

(** One round leaves every ready queued transaction marked. *)
Lemma round_cover σ t c l σ1 c1 :
  head_ok σ t c l →
  candidates_cover σ t →
  meta_wayland_transaction_maybe_apply_one t c σ = Ok (σ1, c1) →
  ∀ u, u ∈ committed_queue σ1 → ready σ1 u → marked σ1 u.
Proof.
  intros (Hinv & Hok & Hl & Htl & Htq) Hcov Hrun.
  destruct (inv_committed σ Hinv t Htq) as (r & Hr & _).
  unfold meta_wayland_transaction_maybe_apply_one in Hrun.
  destruct (has_unapplied_dependencies_Ok σ t r Hr) as [b Hb]. rewrite Hb in Hrun.
  cbn [mbind result_mbind result_bind] in Hrun. destruct b.
  - simplify_eq. intros u Hu Hready. apply Hcov; [done| |done].
    intros ->. unfold ready in Hready. congruence.
  - eapply (apply_cover t c σ l r); try done.
    intros u Hu. split; [by apply Hl|]. by intros ->.
Qed.

(** In a state in order the head of the queue is ready. *)
Lemma head_ready σ u q :
  engine_inv σ → committed_queue σ = u :: q → ready σ u.
Proof.
  intros Hinv Hq.
  destruct (inv_committed σ Hinv u) as (r & Hr & _); [rewrite Hq; left|].
  apply (ready_spec σ u r Hr). intros s Hs.
  pose proof (inv_chain σ Hinv s) as Hc. unfold chain_of, ends in Hc.
  injection Hc as -> _. unfold pending. rewrite Hq.
  rewrite filter_cons_True; [done|]. apply has_entry_spec. eauto.
Qed.

(** A cascade that starts with every ready queued transaction covered
    ends with no ready transaction in the queue. *)
Lemma cascade_nothing_ready fuel σ0 t0 σ' :
  engine_inv σ0 → quiescent σ0 → t0 ∈ committed_queue σ0 →
  candidates_cover σ0 t0 →
  meta_wayland_transaction_maybe_apply fuel t0 σ0 = Ok σ' →
  ∀ u, u ∈ committed_queue σ' → ¬ ready σ' u.
Proof.
  intros Hinv Hquiet Ht0 Hcov Hrun.
  refine (cascade_final candidates_cover
            (λ σ, ∀ u, u ∈ committed_queue σ → ¬ ready σ u) _ _
            fuel σ0 t0 σ' Hinv Hquiet Ht0 Hcov Hrun).
  - intros σ t c l σ1 t' r' Hhead HJ Hone Hr' u Hu Hne Hready.
    pose proof (round_cover σ t c l σ1 _ Hhead HJ Hone) as Hc1.
    destruct (Hc1 u Hu) as (ru & Hru & Hn).
    { unfold ready in *. rewrite <- Hready. symmetry.
      apply has_unapplied_frame; [done|]. simpl. by rewrite txn_data_insert. }
    exists ru. split; [|done]. simpl. by rewrite lookup_insert_ne.
  - intros σ t c l σ1 Hhead HJ Hone u Hu Hready.
    destruct (round_spec σ t c l Hhead) as (σ1' & c1 & l1 & Hone' & _ & Hok1 & _).
    rewrite Hone in Hone'. simplify_eq.
    pose proof (chain_ok_inv _ _ _ Hok1) as Hl1. simpl in Hl1. subst l1.
    destruct (round_cover σ t c l σ1' _ Hhead HJ Hone u Hu Hready)
      as (ru & Hru & Hn).
    apply Hn. apply (chain_rest_null _ _ _ Hok1 u ru Hru). apply not_elem_of_nil.
Qed.

(** X18.  A cascade leaves no transaction behind.  In a state in order in
    which no cascade is running and nothing was applied yet, let the
    engine be called on a queued transaction while every other queued
    transaction waits for another one.  With the fuel
    [commit_fuel] gives for the length of the queue the call returns,
    the queue is empty afterwards, and every transaction that was queued
    has been applied. *)
Theorem cascade_drains_queue (fuel : nat) (σ0 : Compositor) (t0 : Txn) :
  engine_inv σ0 →
  quiescent σ0 →
  applied (trace σ0) = [] →
  t0 ∈ committed_queue σ0 →
  (∀ u, u ∈ committed_queue σ0 → u ≠ t0 →
        has_unapplied_dependencies u σ0 = Ok true) →
  (commit_fuel (length (committed_queue σ0)) ≤ fuel)%nat →
  ∃ σ',
    meta_wayland_transaction_maybe_apply fuel t0 σ0 = Ok σ' ∧
    committed_queue σ' = [] ∧
    ∀ u, u ∈ committed_queue σ0 → u ∈ applied (trace σ').
Proof.
  intros Hinv Hquiet Htr Ht0 Hblocked Hfuel.
  destruct (maybe_apply_loop_spec (transactions σ0) (committed_queue σ0) fuel σ0 t0
              META_WAYLAND_TRANSACTION_NONE [])
    as (σ' & Hrun & Hinv' & _ & Hord & _).
  { done. }
  { done. }
  { intros u Hu. by apply elem_of_nil in Hu. }
  { apply not_elem_of_nil. }
  { done. }
  { by apply order_inv_init. }
  { unfold commit_fuel in Hfuel. cbn [length]. lia. }
  assert (committed_queue σ' = []) as Hempty.
  { destruct (committed_queue σ') as [|u q] eqn:Hq; [done|]. exfalso.
    apply (cascade_nothing_ready fuel σ0 t0 σ' Hinv Hquiet Ht0) with (u := u);
      [|done|rewrite Hq; left|by eapply head_ready].
    intros v Hv Hne Hready. unfold ready in Hready.
    rewrite (Hblocked v Hv Hne) in Hready. done. }
  exists σ'. split; [done|]. split; [done|]. intros u Hu.
  destruct (ord_cover _ _ _ Hord u Hu) as [Hx|Hx]; [|done].
  rewrite Hempty in Hx. by apply elem_of_nil in Hx.
Qed.

Lemma cascade_drains_queue_witness :
  ∃ σ',
    meta_wayland_transaction_maybe_apply 13 7 Examples3.blocked3 = Ok σ' ∧
    committed_queue σ' = [] ∧
    ∀ u, u ∈ committed_queue Examples3.blocked3 → u ∈ applied (trace σ').
Proof.
  apply (cascade_drains_queue 13 Examples3.blocked3 7).
  - exact blocked3_inv.
  - exact blocked3_quiescent.
  - reflexivity.
  - apply (bool_decide_unpack _). by vm_compute.
  - intros u Hu Hne. simpl in Hu.
    repeat (apply elem_of_cons in Hu as [->|Hu]; [try done; by vm_compute|]).
    by apply elem_of_nil in Hu.
  - vm_compute. lia.
Defined.

End Settling.

(** ** Commits on an empty queue *)

Module EmptyQueue.
Import Chain Pending Apply Cascade EngineRuns.

(** With nothing queued, a commit applies its transaction in the first
    round of the loop and leaves nothing queued. *)
Lemma commit_empty_queue fuel t σ r :
  engine_inv σ → quiescent σ → committed_queue σ = [] →
  transactions σ !! t = Some r →
  ∃ σ',
    meta_wayland_transaction_commit (S fuel) t σ = Ok σ' ∧
    engine_inv σ' ∧ quiescent σ' ∧ committed_queue σ' = [] ∧
    applied (trace σ') = applied (trace σ) ++ [t] ∧
    txn_data (transactions σ') = delete t (txn_data (transactions σ)).
Proof.
  intros Hinv Hquiet Hempty Hr.
  assert (t ∉ committed_queue σ) as Htq by (rewrite Hempty; apply not_elem_of_nil).
  assert (∀ s, first_committed (surface_of σ s) = None) as Hnone.
  { intros s. pose proof (inv_chain σ Hinv s) as Hc. unfold chain_of, ends in Hc.
    injection Hc as -> _. unfold pending. by rewrite Hempty. }
  destruct (commit_register_spec t σ r Hinv Hquiet Hr Htq)
    as (σ1 & flag & Hreg & Hinv1 & Hquiet1 & _).
  destruct (commit_register_effects t σ r Hr)
    as (σ1' & flag' & Hreg' & Hq1 & Htx1 & _ & Htr1 & Hflag & Hsf).
  rewrite Hreg in Hreg'. simplify_eq.
  assert (flag' = true) as -> by (apply Hflag; auto).
  set (r1 := set_committed _ r) in *.
  assert (transactions σ1' !! t = Some r1) as Hr1 by (by rewrite Htx1, lookup_insert_eq).
  assert (ready σ1' t) as Hready.
  { apply (ready_spec σ1' t r1 Hr1). intros s Hs. rewrite Hsf.
    rewrite decide_True by done. simpl. by rewrite Hnone. }
  assert (t ∈ committed_queue σ1') as Htq1 by (rewrite Hq1, Hempty; left).
  destruct (apply_spec t META_WAYLAND_TRANSACTION_NONE σ1' [] r1)
    as (σ' & c' & l' & Hrun & Hinv' & Hok' & Hl' & _ & Hq' & Hd' & _ & Ha');
    try done.
  { intros u Hu. by apply elem_of_nil in Hu. }
  assert (committed_queue σ' = []) as Hempty'.
  { rewrite Hq', Hq1, Hempty. simpl. rewrite filter_cons_False; [done|]. by intros H. }
  assert (l' = []) as ->.
  { destruct l' as [|u l']; [done|]. specialize (Hl' u ltac:(left)).
    rewrite Hempty' in Hl'. by apply elem_of_nil in Hl'. }
  pose proof (chain_ok_inv _ _ _ Hok') as Hc'.
  destruct c' as [| |u]; [done| |by destruct Hc'].
  exists σ'. split_and!; try done.
  - unfold meta_wayland_transaction_commit. rewrite Hreg.
    cbn [mbind result_mbind result_bind].
    unfold meta_wayland_transaction_maybe_apply. cbn [maybe_apply_loop].
    unfold meta_wayland_transaction_maybe_apply_one.
    unfold ready in Hready. rewrite Hready.
    cbn [mbind result_mbind result_bind]. rewrite Hrun. done.
  - by rewrite Ha', Htr1.
  - rewrite Hd', Htx1. unfold txn_data. by rewrite fmap_insert, delete_insert_eq.
Qed.

(** X19.  With nothing queued, every commit applies its transaction at
    once.  From a state in order with an empty queue, committing live,
    distinct transactions one after the other returns with one round of
    the loop per commit; afterwards the queue is empty again, the
    transactions were applied in the order of their commits and nothing
    else was applied, and they are no longer live. *)
Theorem commits_apply_at_once (fuel : nat) (ts : list Txn) (σ0 : Compositor) :
  engine_inv σ0 →
  quiescent σ0 →
  committed_queue σ0 = [] →
  NoDup ts →
  (∀ t, t ∈ ts → is_Some (transactions σ0 !! t)) →
  ∃ σ',
    run_steps (S fuel) (DoCommit <$> ts) σ0 = Ok σ' ∧
    committed_queue σ' = [] ∧
    applied (trace σ') = applied (trace σ0) ++ ts ∧
    ∀ t, t ∈ ts → transactions σ' !! t = None.
Proof.
  intros Hinv Hquiet Hempty Hnd Hlive.
  enough (∃ σ', run_steps (S fuel) (DoCommit <$> ts) σ0 = Ok σ' ∧
                committed_queue σ' = [] ∧
                applied (trace σ') = applied (trace σ0) ++ ts ∧
                ∀ u, txn_data (transactions σ') !! u =
                     if decide (u ∈ ts) then None
                     else txn_data (transactions σ0) !! u)
    as (σ' & Hrun & Hq & Ha & Hd).
  { exists σ'. split_and!; try done. intros t Ht. specialize (Hd t).
    rewrite decide_True in Hd by done. unfold txn_data in Hd.
    rewrite lookup_fmap in Hd. by destruct (transactions σ' !! t). }
  revert σ0 Hinv Hquiet Hempty Hlive.
  induction ts as [|t ts IH]; intros σ0 Hinv Hquiet Hempty Hlive.
  { exists σ0. simpl. rewrite app_nil_r. split_and!; try done. }
  apply NoDup_cons in Hnd as [Ht Hnd].
  destruct (Hlive t) as [r Hr]; [left|].
  destruct (commit_empty_queue fuel t σ0 r Hinv Hquiet Hempty Hr)
    as (σ1 & Hrun1 & Hinv1 & Hquiet1 & Hempty1 & Ha1 & Hd1).
  destruct (IH Hnd σ1 Hinv1 Hquiet1 Hempty1) as (σ' & Hrun & Hq & Ha & Hd).
  { intros u Hu. destruct (Hlive u) as [ru Hru]; [by right|].
    assert (txn_data (transactions σ1) !! u = Some (erase_next ru)) as Hx.
    { rewrite Hd1, lookup_delete_ne by (by intros ->).
      unfold txn_data. by rewrite lookup_fmap, Hru. }
    unfold txn_data in Hx. rewrite lookup_fmap in Hx.
    by destruct (transactions σ1 !! u). }
  exists σ'. split_and!; try done.
  - cbn [fmap list_fmap run_steps run_step]. rewrite Hrun1. done.
  - rewrite Ha, Ha1, <- app_assoc. done.
  - intros u. rewrite Hd, Hd1. destruct (decide (u = t)) as [->|Hne].
    + rewrite lookup_delete_eq. rewrite (decide_True (P := t ∈ t :: ts)) by left.
      by case_decide.
    + rewrite lookup_delete_ne by done.
      destruct (decide (u ∈ ts)) as [Hin|Hin].
      * by rewrite (decide_True (P := u ∈ t :: ts)) by by right.
      * rewrite (decide_False (P := u ∈ t :: ts)); [done|].
        rewrite not_elem_of_cons. done.
Qed.

Lemma parent_child_inv : engine_inv Examples2.parent_child.
Proof.
  constructor.
  - constructor.
  - intros t Ht. by apply elem_of_nil in Ht.
  - intros s. destruct (decide (s = 2%positive)) as [->|H2]; [by vm_compute|].
    unfold chain_of, surface_of, get_surface, pending. simpl.
    by rewrite lookup_insert_ne, lookup_empty.
  - apply ForestFacts.wf_forestb_spec. by vm_compute.
Qed.

Lemma parent_child_quiescent : quiescent Examples2.parent_child.
Proof.
  constructor; [done| |constructor|constructor].
  assert (map_Forall (λ _ r, next_candidate r = CandNull)
            (transactions Examples2.parent_child)) as H
    by (apply (bool_decide_unpack _); by vm_compute).
  intros t r Hr _. by apply (H t r).
Qed.

Lemma commits_apply_at_once_witness :
  ∃ σ',
    run_steps 1 (DoCommit <$> [5%positive]) Examples2.parent_child = Ok σ' ∧
    committed_queue σ' = [] ∧
    applied (trace σ') = applied (trace Examples2.parent_child) ++ [5%positive] ∧
    ∀ t, t ∈ [5%positive] → transactions σ' !! t = None.
Proof.
  apply (commits_apply_at_once 0 [5%positive] Examples2.parent_child).
  - exact parent_child_inv.
  - exact parent_child_quiescent.
  - reflexivity.
  - apply (bool_decide_unpack _). by vm_compute.
  - intros t Ht. apply list_elem_of_singleton in Ht as ->. by eexists.
Defined.

End EmptyQueue.

(** ** Building does not disturb the engine *)

Module BuildFrame.
Import Chain Pending Apply Cascade.

(** A state that differs from one in order only in transactions that are
    not queued, with chain links still NULL, and in fields of surfaces
    that the engine does not read, is in order. *)
Lemma engine_inv_frame σ σ' :
  engine_inv σ →
  committed_queue σ' = committed_queue σ →
  (∀ u, u ∈ committed_queue σ → transactions σ' !! u = transactions σ !! u) →
  (∀ u r', transactions σ' !! u = Some r' → next_candidate r' = CandNull) →
  (∀ s, chain_of σ' s = chain_of σ s) →
  Forest.wf_forest (surfaces σ') →
  engine_inv σ' ∧ quiescent σ'.
Proof.
  intros [Hnd Hcom Hch Hwf] Hq Htx Hnull Hchain Hwf'. split.
  - constructor; [by rewrite Hq| | |done].
    + intros u Hu. rewrite Hq in Hu. rewrite (Htx u Hu). by apply Hcom.
    + intros s. rewrite Hchain, Hch. f_equal. unfold pending. rewrite Hq.
      apply filter_ext_elem. intros u Hu. unfold has_entry. by rewrite (Htx u Hu).
  - constructor; [done| |constructor|constructor]. intros u r' Hr' _. by eapply Hnull.
Qed.

Lemma add_placement_surfaces_link r st :
  next_candidate (meta_wayland_transaction_add_placement_surfaces r st)
  = next_candidate r.
Proof.
  unfold meta_wayland_transaction_add_placement_surfaces.
  generalize (subsurface_placement_ops st). intros ops. revert r.
  induction ops as [|op ops IH]; intros r; [done|]. cbn [foldl]. rewrite IH.
  unfold add_placement_op.
  destruct (op_surface op) as [s1|], (op_sibling op) as [s2|]; try done.
  - destruct (Builder.ensure_entry_fields
                (meta_wayland_transaction_ensure_entry r s1).1 s2) as (_ & -> & _).
    by destruct (Builder.ensure_entry_fields r s1) as (_ & -> & _).
  - by destruct (Builder.ensure_entry_fields r s1) as (_ & -> & _).
  - by destruct (Builder.ensure_entry_fields r s2) as (_ & -> & _).
Qed.

Lemma merge_into_step_link from to kv :
  next_candidate (merge_into_step (from, to) kv).2 = next_candidate to.
Proof.
  destruct kv as [k v].
  unfold merge_into_step, meta_wayland_transaction_get_entry,
    meta_wayland_transaction_add_entry.
  destruct (entries to !! k); destruct (state v); simpl;
    by rewrite ?add_placement_surfaces_link.
Qed.

Lemma merge_into_fold_link kvs from to :
  next_candidate (foldl merge_into_step (from, to) kvs).2 = next_candidate to.
Proof.
  revert from to. induction kvs as [|kv kvs IH]; intros from to; [done|].
  cbn [foldl]. destruct (merge_into_step (from, to) kv) as [f' t'] eqn:E.
  rewrite IH. change t' with (f', t').2. rewrite <- E. apply merge_into_step_link.
Qed.

Lemma quiescent_null σ t r :
  quiescent σ → transactions σ !! t = Some r → next_candidate r = CandNull.
Proof. intros Hq Hr. apply (chain_rest_null _ _ _ Hq t r Hr), not_elem_of_nil. Qed.

(** X20.  Building does not disturb the engine.  In a state in order in
    which no cascade is running, an operation that builds transactions
    (adding a position, merging the pending state of a surface, merging
    one transaction into another) on live transactions that are not in
    the committed queue returns, and the state is in order afterwards,
    with the same queue, the same counter, the same trace and every
    [next_candidate] NULL. *)
Theorem build_op_keeps_engine_in_order (op : BuildOp) (σ : Compositor) :
  engine_inv σ →
  quiescent σ →
  NoDup (op_transactions op) →
  (∀ t, t ∈ op_transactions op →
        is_Some (transactions σ !! t) ∧ t ∉ committed_queue σ) →
  ∃ σ',
    run_build_op op σ = Ok σ' ∧
    engine_inv σ' ∧
    quiescent σ' ∧
    committed_queue σ' = committed_queue σ ∧
    committed_sequence_counter σ' = committed_sequence_counter σ ∧
    trace σ' = trace σ.
Proof.
  intros Hinv Hquiet Hnd Hts. destruct op as [t s px py|t s|from to]; cbn in *.
  - destruct (Hts t) as [[r Hr] Htq]; [left|].
    rewrite (Merge.add_subsurface_position_spec t s px py σ r Hr).
    destruct (Builder.ensure_entry_fields r s) as (_ & Hc & _).
    eexists. split; [done|].
    match goal with |- engine_inv ?σ1 ∧ _ =>
      destruct (engine_inv_frame σ σ1) as [H1 H2]; try done end.
    + intros u Hu. simpl. rewrite lookup_insert_ne; [done|]. by intros ->.
    + intros u r' Hr'. simpl in Hr'. destruct (decide (t = u)) as [->|Hne].
      * rewrite lookup_insert_eq in Hr'. simplify_eq. simpl. rewrite Hc.
        by eapply quiescent_null.
      * rewrite lookup_insert_ne in Hr' by done. by eapply quiescent_null.
    + by destruct Hinv.
  - destruct (Hts t) as [[r Hr] Htq]; [left|].
    destruct (Merge.merge_pending_state_spec t s σ r Hr) as [st' ->].
    destruct (Builder.ensure_entry_fields r s) as (_ & Hc & _).
    eexists. split; [done|].
    match goal with |- engine_inv ?σ1 ∧ _ =>
      destruct (engine_inv_frame σ σ1) as [H1 H2]; try done end.
    + intros u Hu. simpl. rewrite lookup_insert_ne; [done|]. by intros ->.
    + intros u r' Hr'. simpl in Hr'. destruct (decide (t = u)) as [->|Hne].
      * rewrite lookup_insert_eq in Hr'. simplify_eq. simpl. rewrite Hc.
        by eapply quiescent_null.
      * rewrite lookup_insert_ne in Hr' by done. by eapply quiescent_null.
    + intros s'. rewrite chain_of_update. by case_decide; simplify_eq.
    + apply (ForestUpdate.wf_forest_update s _ (store_transaction t _ σ)); [done|].
      by destruct Hinv.
  - apply NoDup_cons in Hnd as [Hne _]. rewrite list_elem_of_singleton in Hne.
    destruct (Hts from) as [[rf Hrf] Hfq]; [left|].
    destruct (Hts to) as [[rt Hrt] Htq]; [right; left|].
    unfold meta_wayland_transaction_merge_into, transaction_of.
    rewrite Hrf, Hrt. cbn [deref mbind result_mbind result_bind].
    rewrite decide_False by done.
    destruct (foldl merge_into_step (rf, rt) _) as [rf' rt'] eqn:E.
    rewrite (Teardown.free_Ok from _ rf').
    2:{ simpl. rewrite lookup_insert_ne by done. apply lookup_insert_eq. }
    eexists. split; [done|].
    assert (next_candidate rt' = CandNull) as Hnt.
    { change rt' with (rf', rt').2. rewrite <- E, merge_into_fold_link.
      by eapply quiescent_null. }
    match goal with |- engine_inv ?σ1 ∧ _ =>
      destruct (engine_inv_frame σ σ1) as [H1 H2]; try done end.
    + simpl. destruct (node_data rf'); [|done].
      by apply Teardown.g_queue_unlink_absent.
    + intros u Hu. simpl. rewrite lookup_delete_ne by (by intros ->).
      rewrite !lookup_insert_ne; [done| |]; by intros ->.
    + intros u r' Hr'. simpl in Hr'.
      destruct (decide (from = u)) as [->|Hnf]; [by rewrite lookup_delete_eq in Hr'|].
      rewrite lookup_delete_ne in Hr' by done.
      destruct (decide (to = u)) as [->|Hnt'].
      * rewrite lookup_insert_eq in Hr'. by simplify_eq.
      * rewrite !lookup_insert_ne in Hr' by done. by eapply quiescent_null.
    + by destruct Hinv.
    + split_and!; try done. simpl. destruct (node_data rf'); [|done].
      by apply Teardown.g_queue_unlink_absent.
Qed.

Lemma build_op_keeps_engine_in_order_witness :
  ∃ σ',
    run_build_op (OpMergePendingState 5 2) Examples2.parent_child = Ok σ' ∧
    engine_inv σ' ∧
    quiescent σ' ∧
    committed_queue σ' = committed_queue Examples2.parent_child ∧
    committed_sequence_counter σ' =
      committed_sequence_counter Examples2.parent_child ∧
    trace σ' = trace Examples2.parent_child.
Proof.
  apply (build_op_keeps_engine_in_order (OpMergePendingState 5 2)
           Examples2.parent_child).
  - exact EmptyQueue.parent_child_inv.
  - exact EmptyQueue.parent_child_quiescent.
  - apply (bool_decide_unpack _). by vm_compute.
  - intros t Ht. apply list_elem_of_singleton in Ht as ->.
    split; [by eexists|]. apply not_elem_of_nil.
Defined.

End BuildFrame.
